(** * fcd: recovery of stack locals ([pass_locals.cpp])

    A shallow embedding of the [IdentifyLocals] function pass and of the
    classes it is built from ([StackObject], [OverlappingTypedAccesses],
    [LlvmStackFrame]), followed by the properties proved about them.

    Conventions.
    - Fixed-width C++ integers are [Z] with the wrap-around written out
      ([uint64], [sint64], [uint32], [sint32]).  Signed overflow, undefined
      in the source, follows two's complement.
    - [assert] and the checked [cast<>] are those of a build with
      assertions: a failed one stops the pass ([Stopped AssertionFailure]).
    - A pointer to a [StackObject] or to a [GepLink] is the number the
      object got when it was allocated; a pointer to an [Instruction] is its
      index in the function's instruction table. *)

From Stdlib Require Import ZArith List Bool Lia Sorted.
From stdpp Require Import base decidable option list gmap.
Import ListNotations.

#[local] Set Warnings "-register-all".

Local Open Scope Z_scope.

(** ** Machine integers *)

Definition uint64 (z : Z) : Z := z mod 18446744073709551616.
Definition sint64 (z : Z) : Z :=
  (z + 9223372036854775808) mod 18446744073709551616 - 9223372036854775808.
Definition uint32 (z : Z) : Z := z mod 4294967296.
Definition sint32 (z : Z) : Z := (z + 2147483648) mod 4294967296 - 2147483648.

(** ** Outcomes of a run

    [Done] is a normal return.  The pass has no error channel of its own:
    what stops it is a failed assertion or the use of a null or past-the-end
    pointer; the
    model adds the exhaustion of the recursion budget. *)

Inductive Failure := AssertionFailure | InvalidPointer | OutOfFuel.

Inductive Outcome (A : Type) :=
| Done (a : A)
| Stopped (why : Failure).
Arguments Done {A} a.
Arguments Stopped {A} why.

Definition obind {A B} (m : Outcome A) (k : A -> Outcome B) : Outcome B :=
  match m with
  | Done a => k a
  | Stopped w => Stopped w
  end.

Declare Scope outcome_scope.
Notation "x ← y ; z" := (obind y (fun x => z))
  (at level 20, y at level 100, z at level 200, only parsing) : outcome_scope.
Notation "' x ← y ; z" := (obind y (fun x => z))
  (at level 20, x pattern, y at level 100, z at level 200, only parsing)
  : outcome_scope.
Local Open Scope outcome_scope.

(** ** The host IR: types *)

Inductive Ty :=
| VoidTy
| HalfTy
| FloatTy
| DoubleTy
| LabelTy
| IntegerTy (bits : Z)
| StructTy (packed : bool) (body : list Ty)
| ArrayTy (element : Ty) (numElements : Z)
| PointerTy (element : Ty)
| VectorTy (element : Ty) (numElements : Z).

Fixpoint Ty_eqb (a b : Ty) {struct a} : bool :=
  match a, b with
  | VoidTy, VoidTy | HalfTy, HalfTy | FloatTy, FloatTy
  | DoubleTy, DoubleTy | LabelTy, LabelTy => true
  | IntegerTy n, IntegerTy m => n =? m
  | StructTy p l, StructTy q k =>
      Bool.eqb p q &&
      (fix body_eqb (l k : list Ty) {struct l} : bool :=
         match l, k with
         | [], [] => true
         | x :: l', y :: k' => Ty_eqb x y && body_eqb l' k'
         | _, _ => false
         end) l k
  | ArrayTy e n, ArrayTy f m => Ty_eqb e f && (n =? m)
  | PointerTy e, PointerTy f => Ty_eqb e f
  | VectorTy e n, VectorTy f m => Ty_eqb e f && (n =? m)
  | _, _ => false
  end.

(** Induction over [Ty] that also reaches the fields of a struct. *)
Section Ty_nested_ind.
Variable P : Ty -> Prop.
Hypothesis HVoid : P VoidTy.
Hypothesis HHalf : P HalfTy.
Hypothesis HFloat : P FloatTy.
Hypothesis HDouble : P DoubleTy.
Hypothesis HLabel : P LabelTy.
Hypothesis HInteger : forall bits, P (IntegerTy bits).
Hypothesis HStruct : forall packed body, Forall P body -> P (StructTy packed body).
Hypothesis HArray : forall e n, P e -> P (ArrayTy e n).
Hypothesis HPointer : forall e, P e -> P (PointerTy e).
Hypothesis HVector : forall e n, P e -> P (VectorTy e n).

Fixpoint Ty_nested_ind (t : Ty) : P t :=
  match t with
  | VoidTy => HVoid
  | HalfTy => HHalf
  | FloatTy => HFloat
  | DoubleTy => HDouble
  | LabelTy => HLabel
  | IntegerTy bits => HInteger bits
  | StructTy packed body =>
      HStruct packed body
        ((fix all (l : list Ty) : Forall P l :=
            match l with
            | [] => List.Forall_nil P
            | x :: l' => @List.Forall_cons Ty P x l' (Ty_nested_ind x) (all l')
            end) body)
  | ArrayTy e n => HArray e n (Ty_nested_ind e)
  | PointerTy e => HPointer e (Ty_nested_ind e)
  | VectorTy e n => HVector e n (Ty_nested_ind e)
  end.
End Ty_nested_ind.

Lemma Ty_eqb_eq (a b : Ty) : Ty_eqb a b = true <-> a = b.
Proof.
  revert b. induction a using Ty_nested_ind; intros b; destruct b; simpl;
    try (split; [discriminate | congruence]); try tauto.
  - rewrite Z.eqb_eq. split; congruence.
  - rewrite andb_true_iff, Bool.eqb_true_iff.
    assert (Hbody : forall k,
      (fix body_eqb (l k : list Ty) {struct l} : bool :=
         match l, k with
         | [], [] => true
         | x :: l', y :: k' => Ty_eqb x y && body_eqb l' k'
         | _, _ => false
         end) body k = true <-> body = k).
    { induction H as [|x l Hx Hl IH]; intros [|y k]; simpl;
        try (split; [discriminate | congruence]); try tauto.
      rewrite andb_true_iff, Hx, IH. split; [intros [-> ->]; reflexivity|].
      intros E; injection E; auto. }
    rewrite Hbody. split; [intros [-> ->]; reflexivity|].
    intros E; injection E; auto.
  - rewrite andb_true_iff, IHa, Z.eqb_eq. split; [intros [-> ->]; reflexivity|].
    intros E; injection E; auto.
  - rewrite IHa. split; congruence.
  - rewrite andb_true_iff, IHa, Z.eqb_eq. split; [intros [-> ->]; reflexivity|].
    intros E; injection E; auto.
Qed.

#[global] Instance Ty_eq_dec : EqDecision Ty.
Proof.
  refine (fun a b =>
    (if Ty_eqb a b as r return Ty_eqb a b = r -> Decision (a = b)
     then fun E => left _ else fun E => right _) eq_refl).
  - apply Ty_eqb_eq, E.
  - intros ->. assert (Ty_eqb b b = true) by (apply Ty_eqb_eq; reflexivity).
    congruence.
Defined.

Inductive TypeID :=
| VoidTyID | HalfTyID | FloatTyID | DoubleTyID | LabelTyID | IntegerTyID
| StructTyID | ArrayTyID | PointerTyID | VectorTyID.

Definition getTypeID (t : Ty) : TypeID :=
  match t with
  | VoidTy => VoidTyID
  | HalfTy => HalfTyID
  | FloatTy => FloatTyID
  | DoubleTy => DoubleTyID
  | LabelTy => LabelTyID
  | IntegerTy _ => IntegerTyID
  | StructTy _ _ => StructTyID
  | ArrayTy _ _ => ArrayTyID
  | PointerTy _ => PointerTyID
  | VectorTy _ _ => VectorTyID
  end.

Definition isIntegerTy (t : Ty) : bool :=
  match t with IntegerTy _ => true | _ => false end.

(** [Type::isSized]: what can be stepped over in memory. *)
Fixpoint isSized (t : Ty) : bool :=
  match t with
  | VoidTy | LabelTy => false
  | HalfTy | FloatTy | DoubleTy | IntegerTy _ | PointerTy _ => true
  | StructTy _ body => forallb isSized body
  | ArrayTy e _ | VectorTy e _ => isSized e
  end.

(** The data-layout oracle the pass is handed ([const DataLayout& dl]). *)
Record DataLayout := { getTypeStoreSize : Ty -> Z }.

(** A 64-bit layout in LLVM's manner: natural alignment up to eight bytes,
    eight-byte pointers. *)
Fixpoint abiAlignment (t : Ty) : Z :=
  match t with
  | IntegerTy b =>
      if b <=? 8 then 1 else if b <=? 16 then 2 else if b <=? 32 then 4 else 8
  | HalfTy => 2
  | FloatTy => 4
  | DoubleTy | PointerTy _ => 8
  | ArrayTy e _ | VectorTy e _ => abiAlignment e
  | StructTy true _ => 1
  | StructTy false body => fold_right (fun e a => Z.max (abiAlignment e) a) 1 body
  | VoidTy | LabelTy => 1
  end.

Definition alignTo (n a : Z) : Z := (n + a - 1) / a * a.

Fixpoint storeSize64 (t : Ty) : Z :=
  match t with
  | IntegerTy b => (b + 7) / 8
  | HalfTy => 2
  | FloatTy => 4
  | DoubleTy | PointerTy _ => 8
  | ArrayTy e n | VectorTy e n => n * alignTo (storeSize64 e) (abiAlignment e)
  | StructTy packed body =>
      let place e off :=
        (if packed then off else alignTo off (abiAlignment e))
        + alignTo (storeSize64 e) (abiAlignment e) in
      let size := fold_left (fun off e => place e off) body 0 in
      if packed then size
      else alignTo size (fold_right (fun e a => Z.max (abiAlignment e) a) 1 body)
  | VoidTy | LabelTy => 0
  end.

Definition dl64 : DataLayout := {| getTypeStoreSize := storeSize64 |}.

(** ** The host IR: values, instructions, functions *)

Record ConstantInt := { bitWidth : Z; zextValue : Z }.

(** [ConstantInt::getLimitedValue()], a [uint64_t]. *)
Definition getLimitedValue (c : ConstantInt) : Z :=
  Z.min (zextValue c) 18446744073709551615.

Inductive Value :=
| VArg (argNo : nat)                 (* Argument *)
| VInst (id : nat)                   (* Instruction *)
| VConst (c : ConstantInt)           (* ConstantInt *)
| VOther (type : Ty) (tag : nat).    (* any other constant or global *)

#[global] Instance ConstantInt_eq_dec : EqDecision ConstantInt.
Proof. solve_decision. Defined.
#[global] Instance Value_eq_dec : EqDecision Value.
Proof. solve_decision. Defined.

Inductive BinaryOps :=
| Add | FAdd | Sub | FSub | Mul | FMul | UDiv | SDiv | FDiv
| URem | SRem | FRem | Shl | LShr | AShr | And | Or | Xor.

Inductive CastOps :=
| Trunc | ZExt | SExt | FPToUI | FPToSI | UIToFP | SIToFP | FPTrunc | FPExt
| PtrToInt | IntToPtr | BitCast | AddrSpaceCast.

Inductive Opcode :=
| BinaryOperator (op : BinaryOps)
| CastInst (op : CastOps)
| LoadInst
| StoreInst
| CallInst
| PHINode
| GetElementPtrInst
| AllocaInst
| ICmpInst
| SelectInst
| ReturnInst
| BranchInst.

#[global] Instance BinaryOps_eq_dec : EqDecision BinaryOps.
Proof. solve_decision. Defined.
#[global] Instance CastOps_eq_dec : EqDecision CastOps.
Proof. solve_decision. Defined.
#[global] Instance Opcode_eq_dec : EqDecision Opcode.
Proof. solve_decision. Defined.

Record Instruction := {
  opcode : Opcode;
  operands : list Value;
  instType : Ty
}.

(** A function: every instruction that exists for it, by number, and where
    the placed ones stand.  An instruction created without an insertion
    point is in the table and in no block.  The two metadata fields are
    what [md::getStackPointerArgument] reads and [md::setStackFrame]
    writes. *)
Record Function := {
  stackPointerArgument : option ConstantInt;
  args : list Ty;
  instructions : list Instruction;
  blocks : list (list nat);          (* entry block first *)
  stackFrameMarks : list nat
}.

(** Modelled from the spec: [md::getStackPointerArgument], declared in
    [metadata.h], which is not among the sources.  The function carries a
    single constant-integer tag giving the zero-based index of the
    stack-pointer argument; without the tag the result is null. *)
Definition getStackPointerArgument (fn : Function) : option ConstantInt :=
  stackPointerArgument fn.

(** Modelled from the spec: [md::setStackFrame], declared in [metadata.h],
    which is not among the sources.  It attaches the marker "stack frame"
    to an instruction. *)
Definition setStackFrame (id : nat) (fn : Function) : Function :=
  {| stackPointerArgument := stackPointerArgument fn;
     args := args fn;
     instructions := instructions fn;
     blocks := blocks fn;
     stackFrameMarks := id :: stackFrameMarks fn |}.

Definition getInst (fn : Function) (id : nat) : option Instruction :=
  instructions fn !! id.

Definition getType (fn : Function) (v : Value) : Ty :=
  match v with
  | VArg n => default VoidTy (args fn !! n)
  | VInst id => default VoidTy (instType <$> getInst fn id)
  | VConst c => IntegerTy (bitWidth c)
  | VOther t _ => t
  end.

(** The uses of a value in the order in which they were made, one entry
    for each use, when the instructions are created in the order of the
    table. *)
Fixpoint users_from (k : nat) (insts : list Instruction) (v : Value)
    : list (nat * Instruction) :=
  match insts with
  | [] => []
  | i :: rest =>
      replicate (count_occ Value_eq_dec (operands i) v) (k, i)
        ++ users_from (S k) rest v
  end.

(** [Value::users()].  The host puts every new use at the front of the
    use-list of the value, so the list runs from the use made last to the use
    made first.  ([replaceAllUsesWith] moves the uses one by one from the
    front, which leaves them in the opposite order on the new value; the pass
    never walks the users of a value it has created.) *)
Definition users (fn : Function) (v : Value) : list (nat * Instruction) :=
  rev (users_from 0 (instructions fn) v).

Definition isPlaced (fn : Function) (id : nat) : bool :=
  existsb (fun b => existsb (Nat.eqb id) b) (blocks fn).

Definition placeBefore (pos new : nat) (block : list nat) : list nat :=
  flat_map (fun i => if Nat.eqb i pos then [new; i] else [i]) block.

(** An instruction constructor with its [InsertBefore] argument: the new
    instruction joins the table and, given an insertion point, the block of
    that point (which the host asserts to exist). *)
Definition createInst (i : Instruction) (insertBefore : option nat)
    (fn : Function) : Outcome (Value * Function) :=
  let id := length (instructions fn) in
  match insertBefore with
  | None =>
      Done (VInst id,
            {| stackPointerArgument := stackPointerArgument fn;
               args := args fn;
               instructions := instructions fn ++ [i];
               blocks := blocks fn;
               stackFrameMarks := stackFrameMarks fn |})
  | Some pos =>
      if isPlaced fn pos then
        Done (VInst id,
              {| stackPointerArgument := stackPointerArgument fn;
                 args := args fn;
                 instructions := instructions fn ++ [i];
                 blocks := map (placeBefore pos id) (blocks fn);
                 stackFrameMarks := stackFrameMarks fn |})
      else Stopped AssertionFailure
  end.

Definition replaceOperand (old new : Value) (i : Instruction) : Instruction :=
  {| opcode := opcode i;
     operands := map (fun o => if decide (o = old) then new else o) (operands i);
     instType := instType i |}.

(** [Value::replaceAllUsesWith]. *)
Definition replaceAllUsesWith (old new : Value) (fn : Function) : Function :=
  {| stackPointerArgument := stackPointerArgument fn;
     args := args fn;
     instructions := map (replaceOperand old new) (instructions fn);
     blocks := blocks fn;
     stackFrameMarks := stackFrameMarks fn |}.

(** [GetElementPtrInst::getIndexedType]: the type reached from a pointer by
    a list of indices, or nothing when the indices do not fit. *)
Definition typeAtIndex (agg : Ty) (index : Value) : option Ty :=
  match agg, index with
  | StructTy _ body, VConst c =>
      if bitWidth c =? 32 then body !! Z.to_nat (zextValue c) else None
  | ArrayTy e _, (VConst _ | VInst _ | VArg _) => Some e
  | VectorTy e _, (VConst _ | VInst _ | VArg _) => Some e
  | _, _ => None
  end.

Definition getIndexedType (ptr : Ty) (idxList : list Value) : option Ty :=
  match ptr with
  | PointerTy agg =>
      match idxList with
      | [] => Some agg
      | _ :: rest =>
          if isSized agg
          then foldl (fun a idx => a ≫= fun t => typeAtIndex t idx) (Some agg) rest
          else None
      end
  | _ => None
  end.

(** A loop whose body may stop the pass. *)
Fixpoint ofoldl {A B} (f : A -> B -> Outcome A) (a : A) (l : list B)
    : Outcome A :=
  match l with
  | [] => Done a
  | x :: l' => a' ← f a x; ofoldl f a' l'
  end.

(** ** [StackObject], [ObjectStackObject], [StructureStackObject]

    The constructor of [StackObject] takes a parent and stores [nullptr];
    an object is its own number and what its subclass adds. *)

Inductive StackObject :=
| ObjectStackObject (self : nat) (offset : Value)
| StructureStackObject (self : nat) (fields : list (Z * StackObject)).

Definition addressOf (object : StackObject) : nat :=
  match object with
  | ObjectStackObject self _ | StructureStackObject self _ => self
  end.

(** A [SmallPtrSet<Type*, N>] kept as the list of its elements in the order
    they were first inserted, which is the order in which the host walks the
    set while it holds no more than [N] elements.  A larger set is walked in
    the order of the hashed addresses of its elements, an order the function
    does not fix. *)
Definition set_insert (t : Ty) (types : list Ty) : list Ty :=
  if decide (t ∈ types) then types else types ++ [t].

Section WitnessedTypes.
Variable fn : Function.

(** [ObjectStackObject::getCastTypes].  The recursion follows loads that are
    cast to pointers again; [fuel] bounds its depth. *)
Fixpoint getCastTypes (fuel : nat) (cast : nat) (types : list Ty)
    : Outcome (list Ty) :=
  match fuel with
  | O => Stopped OutOfFuel
  | S fuel' =>
      ofoldl (fun types user =>
        match opcode user.2 with
        | LoadInst =>
            let loadType := instType user.2 in
            let types := set_insert loadType types in
            if isIntegerTy loadType then
              ofoldl (fun types loadUser =>
                match opcode loadUser.2 with
                | CastInst IntToPtr =>
                    castTypes ← getCastTypes fuel' loadUser.1 [];
                    Done (foldl (fun ts t => set_insert (PointerTy t) ts)
                                types castTypes)
                | _ => Done types
                end) types (users fn (VInst user.1))
            else Done types
        | StoreInst =>
            match operands user.2 !! 0%nat with
            | Some valueOperand =>
                Done (set_insert (getType fn valueOperand) types)
            | None => Stopped InvalidPointer
            end
        | _ => Done types
        end) types (users fn (VInst cast))
  end.

(** [ObjectStackObject::getUnionTypes]. *)
Definition getUnionTypes (fuel : nat) (offset : Value) (types : list Ty)
    : Outcome (list Ty) :=
  let initialSize := length types in
  '(types', defaultsToVoid) ←
    ofoldl (fun '(types, defaultsToVoid) offsetUser =>
      match opcode offsetUser.2 with
      | CastInst _ =>
          types ← getCastTypes fuel offsetUser.1 types;
          Done (types, defaultsToVoid)
      | StoreInst | CallInst => Done (types, true)
      | BinaryOperator _ | PHINode => Done (types, defaultsToVoid)
      | _ => Stopped AssertionFailure
      end) (types, false) (users fn offset);
  if Nat.eqb (length types') initialSize && defaultsToVoid
  then Done (set_insert (IntegerTy 8) types')
  else Done types'.

End WitnessedTypes.

(** ** [OverlappingTypedAccesses] *)

Module OverlappingTypedAccesses.

Record TypedAccess := {
  offset : Z;          (* int64_t *)
  object : nat;        (* const StackObject* *)
  type : Ty
}.

(** The table of [getTypePriority]; entries it does not name are zero. *)
Definition getTypePriority (t : Ty) : Z :=
  match getTypeID t with
  | ArrayTyID => 5
  | StructTyID => 4
  | PointerTyID => 3
  | FloatTyID => 2
  | IntegerTyID => 1
  | _ => 0
  end.

(** One round of the loop of [pad], for the sizes [i] that it visits. *)
Fixpoint pad_ints (sizes : list Z) (difference : Z) : list Ty :=
  match sizes with
  | [] => []
  | i :: rest =>
      if (0 <? i) && (0 <? difference) then
        if i <=? difference
        then IntegerTy (i * 8) :: pad_ints rest (difference - i)
        else pad_ints rest difference
      else []
  end.

(** [pad]: the types written through [outputIter], in the order written.
    [i] runs through 8, 4, 2, 1 and the loop ends at [i = 0]. *)
Definition pad (difference : Z) : list Ty :=
  if 16 <? difference then
    let numElements := difference / 8 in
    ArrayTy (IntegerTy 64) numElements
      :: pad_ints [8; 4; 2; 1] (uint64 (difference - numElements * 8))
  else pad_ints [8; 4; 2; 1] difference.

Section WithDataLayout.
Variable dl : DataLayout.

Definition size (a : TypedAccess) : Z :=
  if isSized (type a) then getTypeStoreSize dl (type a) else 0.

Definition accessEndOffset (a : TypedAccess) : Z :=
  sint64 (offset a + size a).

(** The class itself is its vector of accesses. *)
Definition endOffset (accesses : list TypedAccess) : Z :=
  match last accesses with
  | None => 0
  | Some back => accessEndOffset back
  end.

(** [insert]: [None] when the access was refused, else the new vector. *)
Definition insert (accesses : list TypedAccess)
    (offset : Z) (object : nat) (type : Ty) : option (list TypedAccess) :=
  match last accesses with
  | Some back =>
      if accessEndOffset back <=? offset then None
      else Some (accesses ++ [Build_TypedAccess offset object type])
  | None => Some (accesses ++ [Build_TypedAccess offset object type])
  end.

(** The comparison handed to [sort]: does [a] go before [b]? *)
Definition before (a b : TypedAccess) : bool :=
  if offset b <? offset a then true
  else if offset a <? offset b then false
  else
    let aSize := getTypeStoreSize dl (type a) in
    let bSize := getTypeStoreSize dl (type b) in
    if bSize <? aSize then true
    else if aSize <? bSize then false
    else getTypePriority (type b) <? getTypePriority (type a).

(** [std::sort] fixes the order of equivalent elements no further; the
    model leaves them in the order they came in. *)
Fixpoint sort_insert (a : TypedAccess) (sorted : list TypedAccess) :=
  match sorted with
  | [] => [a]
  | b :: rest => if before a b then a :: b :: rest
                 else b :: sort_insert a rest
  end.

Definition sort (accesses : list TypedAccess) : list TypedAccess :=
  fold_left (fun sorted a => sort_insert a sorted) accesses [].

Record ReduceState := {
  fieldCount : Z;
  structBody : list Ty;            (* deque<Type*> *)
  gepIndices : gmap nat Z;         (* unordered_map<const StackObject*, int> *)
  startOffset : Z;
  endOffsetSoFar : Z
}.

(** The body of the [for] loop of [reduce]. *)
Definition reduce_step (st : ReduceState) (iter : TypedAccess) : ReduceState :=
  let iterFront := offset iter in
  let frontDifference := sint64 (startOffset st - iterFront) in
  let st1 :=
    if 0 <? frontDifference then
      {| fieldCount := fieldCount st + 1;
         structBody := rev (pad (uint64 frontDifference)) ++ structBody st;
         gepIndices := gepIndices st;
         startOffset := iterFront;
         endOffsetSoFar := endOffsetSoFar st |}
    else st in
  let iterEnd := accessEndOffset iter in
  let backDifference := sint64 (iterEnd - endOffsetSoFar st1) in
  let st2 :=
    if 0 <? backDifference then
      {| fieldCount := fieldCount st1;
         structBody := structBody st1 ++ pad (uint64 backDifference);
         gepIndices := gepIndices st1;
         startOffset := startOffset st1;
         endOffsetSoFar := iterEnd |}
    else st1 in
  {| fieldCount := fieldCount st2;
     structBody := structBody st2;
     gepIndices :=
       <[object iter := - sint32 (Z.of_nat (length (structBody st2)))]>
         (gepIndices st2);
     startOffset := startOffset st2;
     endOffsetSoFar := endOffsetSoFar st2 |}.

(** [reduce]: the field count, [outputType] and [gepIndices]. *)
Definition reduce (accesses : list TypedAccess)
    : Outcome (Z * Ty * gmap nat Z) :=
  match accesses with
  | [] => Stopped AssertionFailure
  | [front] => Done (1, type front, ∅)
  | _ =>
      match sort accesses with
      | [] => Stopped InvalidPointer
      | first :: rest =>
          let st0 :=
            {| fieldCount := 1;
               structBody := [type first];
               gepIndices := {[ object first := -1 ]};
               startOffset := offset first;
               endOffsetSoFar := accessEndOffset first |} in
          let st := fold_left reduce_step rest st0 in
          if fieldCount st =? 1 then
            match structBody st with
            | only :: _ => Done (1, only, ∅)
            | [] => Stopped InvalidPointer
            end
          else
            let n := Z.of_nat (length (structBody st)) in
            Done (fieldCount st,
                  StructTy true (structBody st),
                  (fun i => sint32 (uint64 i + n)) <$> gepIndices st)
      end
  end.
End WithDataLayout.

End OverlappingTypedAccesses.

(** ** [LlvmStackFrame] *)

Record GepLink := {
  parent : option nat;               (* GepLink* *)
  index : option ConstantInt;        (* Value*, always a ConstantInt *)
  expectedType : option Ty
}.

Record LlvmStackFrame := {
  links : list GepLink;              (* deque<GepLink>; a GepLink* is a position *)
  linkMap : gmap nat nat;
  typeMap : gmap nat Ty;
  allObjects : list (nat * Value)    (* each leaf with its offset value *)
}.

Definition emptyFrame : LlvmStackFrame :=
  {| links := []; linkMap := ∅; typeMap := ∅; allObjects := [] |}.

Definition withLinks (f : list GepLink -> list GepLink) (frame : LlvmStackFrame) :=
  {| links := f (links frame); linkMap := linkMap frame;
     typeMap := typeMap frame; allObjects := allObjects frame |}.

Definition createLink (frame : LlvmStackFrame) : nat * LlvmStackFrame :=
  (length (links frame),
   withLinks (fun l => l ++ [Build_GepLink None None None]) frame).

Definition linkFor (value : nat) (frame : LlvmStackFrame) : nat * LlvmStackFrame :=
  match linkMap frame !! value with
  | Some link => (link, frame)
  | None =>
      let '(link, frame) := createLink frame in
      (link,
       {| links := links frame; linkMap := <[value := link]> (linkMap frame);
          typeMap := typeMap frame; allObjects := allObjects frame |})
  end.

Definition setIndex (link : nat) (idx : ConstantInt) (expected : Ty)
    (frame : LlvmStackFrame) : LlvmStackFrame :=
  withLinks (alter (fun g => Build_GepLink (parent g) (Some idx) (Some expected)) link)
            frame.

Definition setParent (link : nat) (newParent : nat) (frame : LlvmStackFrame)
    : Outcome LlvmStackFrame :=
  match links frame !! link with
  | None => Stopped InvalidPointer
  | Some g =>
      match parent g with
      | Some _ => Stopped AssertionFailure
      | None =>
          Done (withLinks
                  (alter (fun g => Build_GepLink (Some newParent) (index g)
                                                 (expectedType g)) link) frame)
      end
  end.

(** [GepLink::toVector]: the links from the root down to [link]. *)
Fixpoint toVector (arena : list GepLink) (fuel : nat) (link : nat)
    (result : list nat) : Outcome (list nat) :=
  match fuel with
  | O => Stopped OutOfFuel
  | S fuel' =>
      match arena !! link with
      | None => Stopped InvalidPointer
      | Some g =>
          match parent g with
          | None => Done (link :: result)
          | Some up => toVector arena fuel' up (link :: result)
          end
      end
  end.

Definition getNaiveType (frame : LlvmStackFrame) (object : StackObject)
    : option Ty :=
  typeMap frame !! addressOf object.

Section Represent.
Variable fn : Function.
Variable dl : DataLayout.

Definition i32 (v : Z) : ConstantInt := {| bitWidth := 32; zextValue := uint32 v |}.
Definition i64 (v : Z) : ConstantInt := {| bitWidth := 64; zextValue := uint64 v |}.

(** [LlvmStackFrame::reduceStructField]. *)
Definition reduceStructField
    (typedAccesses : list OverlappingTypedAccesses.TypedAccess)
    (parentLink : nat) (index : Z) (frame : LlvmStackFrame)
    : Outcome (option Ty * LlvmStackFrame) :=
  '(count, resultType, gep) ← OverlappingTypedAccesses.reduce dl typedAccesses;
  if count =? 0 then Stopped AssertionFailure
  else
    let linkIndex := i32 index in
    if count =? 1 then
      frame ← ofoldl (fun frame access =>
          let '(fieldLink, frame) :=
            linkFor (OverlappingTypedAccesses.object access) frame in
          setParent fieldLink parentLink
            (setIndex fieldLink linkIndex
                      (OverlappingTypedAccesses.type access) frame))
        frame typedAccesses;
      Done (Some resultType, frame)
    else
      let '(structureLink, frame) := createLink frame in
      frame ← setParent structureLink parentLink frame;
      let frame := setIndex structureLink linkIndex resultType frame in
      frame ← ofoldl (fun frame access =>
          match gep !! OverlappingTypedAccesses.object access with
          | None => Stopped AssertionFailure
          | Some position =>
              let '(fieldLink, frame) :=
                linkFor (OverlappingTypedAccesses.object access) frame in
              setParent fieldLink structureLink
                (setIndex fieldLink (i32 position)
                          (OverlappingTypedAccesses.type access) frame)
          end)
        frame typedAccesses;
      Done (Some resultType, frame).

(** The loop of [representObject] for a leaf that offers each witnessed type
    to the window at offset 0. *)
Fixpoint insertTypes (self : nat) (types : list Ty)
    (typedAccesses : list OverlappingTypedAccesses.TypedAccess)
    : option (list OverlappingTypedAccesses.TypedAccess) :=
  match types with
  | [] => Some typedAccesses
  | type :: rest =>
      match OverlappingTypedAccesses.insert dl typedAccesses 0 self type with
      | None => None
      | Some typedAccesses => insertTypes self rest typedAccesses
      end
  end.

(** [LlvmStackFrame::representObject] for an [ObjectStackObject]. *)
Definition representLeaf (self : nat) (offset : Value) (frame : LlvmStackFrame)
    : Outcome (bool * LlvmStackFrame) :=
  types ← getUnionTypes fn (S (length (instructions fn))) offset [];
  match insertTypes self types [] with
  | None => Done (false, frame)
  | Some typedAccesses =>
      '(count, resultType, gep) ← OverlappingTypedAccesses.reduce dl typedAccesses;
      if negb (count =? 1) then Done (false, frame)
      else
        match typeMap frame !! self with
        | Some _ => Stopped AssertionFailure
        | None =>
            Done (true,
                  {| links := links frame; linkMap := linkMap frame;
                     typeMap := <[self := resultType]> (typeMap frame);
                     allObjects := allObjects frame ++ [(self, offset)] |})
        end
  end.

(** What [representObject] for a structure does with one field once the
    field itself is represented: [None] is its [return false], otherwise the
    field types and the window so far. *)
Definition placeField (thisLink : nat) (offset : Z) (fieldObject : nat)
    (fieldTypes : list Ty)
    (typedAccesses : list OverlappingTypedAccesses.TypedAccess)
    (frame : LlvmStackFrame)
    : Outcome (option (list Ty * list OverlappingTypedAccesses.TypedAccess)
               * LlvmStackFrame) :=
  match typeMap frame !! fieldObject with
  | None => Stopped InvalidPointer
  | Some fieldType =>
      match OverlappingTypedAccesses.insert dl typedAccesses offset fieldObject
                                            fieldType with
      | Some typedAccesses => Done (Some (fieldTypes, typedAccesses), frame)
      | None =>
          '(result, frame) ←
            reduceStructField typedAccesses thisLink
                              (Z.of_nat (length fieldTypes)) frame;
          match result with
          | None => Done (None, frame)
          | Some result =>
              let fieldTypes := fieldTypes ++ [result] in
              let padding :=
                uint64 (offset - OverlappingTypedAccesses.endOffset dl typedAccesses) in
              let fieldTypes :=
                if 0 <? padding
                then fieldTypes ++ [ArrayTy (IntegerTy 8) padding]
                else fieldTypes in
              Done (Some (fieldTypes,
                          default [] (OverlappingTypedAccesses.insert dl []
                                        offset fieldObject fieldType)),
                    frame)
          end
      end
  end.

(** The end of [representObject] for a structure: the last window is
    reduced and the struct type recorded. *)
Definition closeStructure (self thisLink : nat) (fieldTypes : list Ty)
    (typedAccesses : list OverlappingTypedAccesses.TypedAccess)
    (frame : LlvmStackFrame) : Outcome (bool * LlvmStackFrame) :=
  '(fieldTypes, frame) ←
    match typedAccesses return Outcome (option (list Ty) * LlvmStackFrame) with
    | [] => Done (Some fieldTypes, frame)
    | _ =>
        '(result, frame) ←
          reduceStructField typedAccesses thisLink
                            (Z.of_nat (length fieldTypes)) frame;
        Done ((fun result => fieldTypes ++ [result]) <$> result, frame)
    end;
  match fieldTypes return Outcome (bool * LlvmStackFrame) with
  | None => Done (false, frame)
  | Some fieldTypes =>
      match typeMap frame !! self with
      | Some _ => Stopped AssertionFailure
      | None =>
          Done (true,
                {| links := links frame; linkMap := linkMap frame;
                   typeMap := <[self := StructTy true fieldTypes]> (typeMap frame);
                   allObjects := allObjects frame |})
      end
  end.

(** The loop of [representObject] for a structure over its fields;
    [represent] is the recursive call on a field, and [None] is the
    [return false] of the loop. *)
Fixpoint representFields
    (represent : StackObject -> LlvmStackFrame -> Outcome (bool * LlvmStackFrame))
    (thisLink : nat) (fields : list (Z * StackObject)) (fieldTypes : list Ty)
    (typedAccesses : list OverlappingTypedAccesses.TypedAccess)
    (frame : LlvmStackFrame) {struct fields}
    : Outcome (option (list Ty * list OverlappingTypedAccesses.TypedAccess)
               * LlvmStackFrame) :=
  match fields with
  | [] => Done (Some (fieldTypes, typedAccesses), frame)
  | field :: rest =>
      '(represented, frame) ← represent field.2 frame;
      if negb represented then Done (None, frame)
      else
        '(state, frame) ←
          placeField thisLink field.1 (addressOf field.2)
                     fieldTypes typedAccesses frame;
        match state with
        | None => Done (None, frame)
        | Some (fieldTypes, typedAccesses) =>
            representFields represent thisLink rest fieldTypes typedAccesses frame
        end
  end.

(** [LlvmStackFrame::representObject], the three overloads: the dispatch on
    the kind of object, the leaf ([representLeaf]) and the structure. *)
Fixpoint representObject (object : StackObject) (frame : LlvmStackFrame)
    {struct object} : Outcome (bool * LlvmStackFrame) :=
  match object with
  | ObjectStackObject self offset => representLeaf self offset frame
  | StructureStackObject self fields =>
      let '(thisLink, frame) := linkFor self frame in
      '(state, frame) ←
        representFields representObject thisLink fields [] [] frame;
      match state with
      | None => Done (false, frame)
      | Some (fieldTypes, typedAccesses) =>
          closeStructure self thisLink fieldTypes typedAccesses frame
      end
  end.

(** The static [LlvmStackFrame::representObject]: the frame, or nothing. *)
Definition representRoot (object : StackObject) : Outcome (option LlvmStackFrame) :=
  '(represented, frame) ← representObject object emptyFrame;
  if represented then
    match getNaiveType frame object with
    | None => Stopped InvalidPointer
    | Some rootType =>
        let '(link, frame) := linkFor (addressOf object) frame in
        Done (Some (setIndex link (i64 0) rootType frame))
    end
  else Done None.

End Represent.

(** [GetElementPtrInst::Create]: the host asserts that the indices fit. *)
Definition createGEP (pointer : Value) (idxList : list Value)
    (insertBefore : option nat) (fn : Function) : Outcome (Value * Function) :=
  match getIndexedType (getType fn pointer) idxList with
  | None => Stopped AssertionFailure
  | Some pointee =>
      createInst {| opcode := GetElementPtrInst;
                    operands := pointer :: idxList;
                    instType := PointerTy pointee |} insertBefore fn
  end.

(** One round of the loop of [getPointerToObject], for the link [link]. *)
Definition followLink (frame : LlvmStackFrame) (insertionPoint : option nat)
    (state : Value * list Value * Function) (link : nat)
    : Outcome (Value * list Value * Function) :=
  let '(result, gepIndices, fn) := state in
  match links frame !! link with
  | None => Stopped InvalidPointer
  | Some g =>
      match index g with
      | None => Stopped InvalidPointer
      | Some idx =>
          let gepIndices := gepIndices ++ [VConst idx] in
          if decide (expectedType g = getIndexedType (getType fn result) gepIndices)
          then Done (result, gepIndices, fn)
          else
            '(gep, fn) ← createGEP result gepIndices insertionPoint fn;
            match expectedType g with
            | None => Stopped InvalidPointer
            | Some expected =>
                '(cast, fn) ←
                  createInst {| opcode := CastInst BitCast;
                                operands := [gep];
                                instType := PointerTy expected |}
                             insertionPoint fn;
                Done (cast, [VConst (i64 0)], fn)
            end
      end
  end.

(** [LlvmStackFrame::getPointerToObject]: the pointer (nothing when the
    object has no link) and the function with what was emitted. *)
Definition getPointerToObject (frame : LlvmStackFrame) (object : nat)
    (basePointer : Value) (insertionPoint : option nat) (fn : Function)
    : Outcome (option Value * Function) :=
  match linkMap frame !! object with
  | None => Done (None, fn)
  | Some link =>
      path ← toVector (links frame) (S (length (links frame))) link [];
      '(result, gepIndices, fn) ←
        ofoldl (followLink frame insertionPoint) (basePointer, [], fn) path;
      if (1 <? length gepIndices)%nat then
        '(gep, fn) ← createGEP result gepIndices insertionPoint fn;
        Done (Some gep, fn)
      else Done (Some result, fn)
  end.

(** ** [std::map<int64_t, Instruction*>]: kept in ascending key order;
    [insert] leaves a key that is already there alone. *)
Module StdMap.

Fixpoint insert (key : Z) (value : nat) (m : list (Z * nat)) : list (Z * nat) :=
  match m with
  | [] => [(key, value)]
  | (k, v) :: rest =>
      if key <? k then (key, value) :: m
      else if key =? k then m
      else (k, v) :: insert key value rest
  end.

Definition find (key : Z) (m : list (Z * nat)) : option nat :=
  snd <$> List.find (fun kv => fst kv =? key) m.

End StdMap.

(** ** [IdentifyLocals] *)

Section IdentifyLocals.
Variable dl : DataLayout.

(** [getStackPointer]: the argument that [advance] reaches. *)
Definition getStackPointer (fn : Function) : Outcome (option Value) :=
  match getStackPointerArgument fn with
  | None => Done None
  | Some stackPointerIndex =>
      let n := Z.to_nat (getLimitedValue stackPointerIndex) in
      if (n <? length (args fn))%nat then Done (Some (VArg n))
      else Stopped InvalidPointer
  end.

(** One round of the loop of [analyzeObject]; [None] is [return false]. *)
Definition analyzeUser (base : Value)
    (state : bool * list (Z * nat) * list (Z * nat)) (user : nat * Instruction)
    : option (bool * list (Z * nat) * list (Z * nat)) :=
  let '(hasCastInst, constantOffsets, variableOffsetStrides) := state in
  match opcode user.2 with
  | BinaryOperator op =>
      if decide (op = Add) then
        let right :=
          operands user.2
            !! (if decide (operands user.2 !! 0%nat = Some base) then 1 else 0)%nat in
        match right with
        | Some (VConst constant) =>
            Some (hasCastInst,
                  StdMap.insert (sint64 (getLimitedValue constant)) user.1
                                constantOffsets,
                  variableOffsetStrides)
        | _ => None
        end
      else None
  | CastInst castOp =>
      Some (hasCastInst || bool_decide (castOp = IntToPtr),
            constantOffsets, variableOffsetStrides)
  | _ => Some state
  end.

Fixpoint analyzeUsers (base : Value) (us : list (nat * Instruction))
    (state : bool * list (Z * nat) * list (Z * nat))
    : option (bool * list (Z * nat) * list (Z * nat)) :=
  match us with
  | [] => Some state
  | user :: rest =>
      match analyzeUser base state user with
      | None => None
      | Some state => analyzeUsers base rest state
      end
  end.

(** [analyzeObject]: [hasCastInst], [constantOffsets] and
    [variableOffsetStrides], or [None] for [false]. *)
Definition analyzeObject (fn : Function) (base : Value)
    : option (bool * list (Z * nat) * list (Z * nat)) :=
  analyzeUsers base (users fn base) (false, [], []).

Definition signbit (x : Z) : bool := x <? 0.

(** The body of the loop of [readObject] over [constantOffsets]; [read] is
    the recursive call. *)
Definition readField
    (read : Value -> option nat -> nat -> Outcome (option StackObject * nat))
    (structure : nat) (front : Z)
    (state : list (Z * StackObject) * nat) (pair : Z * nat)
    : Outcome (list (Z * StackObject) * nat) :=
  let '(fields, next) := state in
  '(type, next) ← read (VInst pair.2) (Some structure) next;
  match type with
  | Some type => Done (fields ++ [(sint64 (pair.1 - front), type)], next)
  | None => Done (fields, next)
  end.

(** [readObject].  [next] is the number the next allocated object gets;
    [fuel] bounds the depth of the recursion. *)
Fixpoint readObject (fn : Function) (fuel : nat) (base : Value)
    (parent : option nat) (next : nat) : Outcome (option StackObject * nat) :=
  match fuel with
  | O => Stopped OutOfFuel
  | S fuel' =>
      match analyzeObject fn base with
      | None => Done (None, next)
      | Some (hasCastInst, constantOffsets, variableOffsetsStrides) =>
          if (0 <? length variableOffsetsStrides)%nat then Done (None, next)
          else
            match constantOffsets, last constantOffsets with
            | (front, _) :: _, Some (back, _) =>
                if negb ((front =? 0) || (back =? 0)
                         || Bool.eqb (signbit front) (signbit back))
                then Stopped AssertionFailure
                else
                  let structure := next in
                  let implicit :=
                    if hasCastInst
                    then ([(0, ObjectStackObject (S next) base)], S (S next))
                    else ([], S next) in
                  '(fields, next) ←
                    ofoldl (readField (readObject fn fuel') structure front)
                           implicit constantOffsets;
                  Done (Some (StructureStackObject structure fields), next)
            | _, _ => Done (Some (ObjectStackObject next base), S next)
            end
      end
  end.

(** [BasicBlock::getFirstInsertionPt] of the entry block. *)
Definition getFirstInsertionPt (fn : Function) : option nat :=
  match blocks fn with
  | [] => None
  | entry :: _ =>
      List.find (fun id => match getInst fn id with
                           | Some i => negb (bool_decide (opcode i = PHINode))
                           | None => true
                           end) entry
  end.

(** The body of the loop of [runOnFunction] over [getAllObjects()]. *)
Definition rewriteObject (frame : LlvmStackFrame) (stackFrame : Value)
    (fn : Function) (object : nat * Value) : Outcome Function :=
  let offsetInstruction := object.2 in
  let insertionPoint :=
    match offsetInstruction with VInst id => Some id | _ => None end in
  '(pointer, fn) ←
    getPointerToObject frame object.1 stackFrame insertionPoint fn;
  match pointer with
  | None => Stopped InvalidPointer
  | Some pointer =>
      '(ptr2int, fn) ←
        createInst {| opcode := CastInst PtrToInt;
                      operands := [pointer];
                      instType := getType fn offsetInstruction |}
                   insertionPoint fn;
      Done (replaceAllUsesWith offsetInstruction ptr2int fn)
  end.

(** [runOnFunction]: whether the function was modified, and the function. *)
Definition runOnFunction (fn : Function) : Outcome (bool * Function) :=
  stackPointer ← getStackPointer fn;
  match stackPointer with
  | None => Done (false, fn)
  | Some stackPointer =>
      '(root, _) ←
        readObject fn (S (length (instructions fn))) stackPointer None 0;
      match root with
      | None => Done (false, fn)
      | Some (ObjectStackObject _ _) => Stopped AssertionFailure
      | Some (StructureStackObject _ _ as root) =>
          llvmFrame ← representRoot fn dl root;
          match llvmFrame with
          | None => Done (false, fn)
          | Some llvmFrame =>
              match getFirstInsertionPt fn, getNaiveType llvmFrame root with
              | Some allocaInsert, Some naiveType =>
                  '(stackFrame, fn) ←
                    createInst {| opcode := AllocaInst;
                                  operands := [VConst (i32 1)];
                                  instType := PointerTy naiveType |}
                               (Some allocaInsert) fn;
                  let fn :=
                    match stackFrame with
                    | VInst id => setStackFrame id fn
                    | _ => fn
                    end in
                  fn ← ofoldl (rewriteObject llvmFrame stackFrame) fn
                              (allObjects llvmFrame);
                  Done (true, fn)
              | _, _ => Stopped InvalidPointer
              end
          end
      end
  end.

End IdentifyLocals.

(** * Vocabulary of the statements *)

(** ** Padding ([pad]) *)

(** The bytes a sequence of padding fields stores under [dl]. *)
Definition storeSizes (dl : DataLayout) (fields : list Ty) : Z :=
  fold_right (fun t n => getTypeStoreSize dl t + n) 0 fields.

(** The shape of a padding sequence for a gap of [d] bytes: at most one
    [int64[d/8]] array, only when [d > 16], then integer fields of sizes
    taken in order from 8, 4, 2, 1, each at most once. *)
Definition PaddingShape (d : Z) (fields : list Ty) : Prop :=
  exists (array : list Ty) (sizes : list Z),
    fields = array ++ map (fun i => IntegerTy (i * 8)) sizes
    /\ (array = [] \/ (16 < d /\ array = [ArrayTy (IntegerTy 64) (d / 8)]))
    /\ sublist sizes [8; 4; 2; 1].

(** ** Overlap windows ([OverlappingTypedAccesses::insert]) *)

(** The windows [insert] can build. *)
Inductive Window (dl : DataLayout)
    : list OverlappingTypedAccesses.TypedAccess -> Prop :=
| Window_empty : Window dl []
| Window_insert accesses offset object type accesses' :
    Window dl accesses ->
    OverlappingTypedAccesses.insert dl accesses offset object type = Some accesses' ->
    Window dl accesses'.

(** The largest end offset among the records of a window that has some. *)
Definition runningMaxEnd (dl : DataLayout)
    (accesses : list OverlappingTypedAccesses.TypedAccess) : option Z :=
  match accesses with
  | [] => None
  | first :: rest =>
      Some (fold_left
              (fun m a => Z.max m (OverlappingTypedAccesses.accessEndOffset dl a))
              rest (OverlappingTypedAccesses.accessEndOffset dl first))
  end.

(** ** Users the classifier looks at ([analyzeObject]) *)

(** The operand of a binary operator that [analyzeObject] calls [right]. *)
Definition rightOperand (base : Value) (user : Instruction) : option Value :=
  operands user
    !! (if decide (operands user !! 0%nat = Some base) then 1 else 0)%nat.

(** A user that is an [add] of [base] and a constant read as [c]. *)
Definition addsConstant (base : Value) (c : Z) (user : Instruction) : Prop :=
  opcode user = BinaryOperator Add
  /\ exists constant, rightOperand base user = Some (VConst constant)
                      /\ sint64 (getLimitedValue constant) = c.

(** A user on which [analyzeObject] returns [false]: a binary operator that
    is not the addition of a constant integer. *)
Definition rejected (base : Value) (user : Instruction) : Prop :=
  exists op, opcode user = BinaryOperator op
             /\ (op <> Add \/ forall constant,
                               rightOperand base user <> Some (VConst constant)).


(** ** The leaves of a stack object, in discovery order *)

Fixpoint leaves (object : StackObject) : list (nat * Value) :=
  match object with
  | ObjectStackObject self offset => [(self, offset)]
  | StructureStackObject _ fields =>
      flat_map (fun field => leaves field.2) fields
  end.

(** The numbers of the users of a value. *)
Definition userIds (fn : Function) (v : Value) : list nat :=
  map fst (users fn v).

(** ** Example inputs *)

Definition mkInst (o : Opcode) (ops : list Value) (t : Ty) : Instruction :=
  {| opcode := o; operands := ops; instType := t |}.

Definition int64 (v : Z) : Value := VConst {| bitWidth := 64; zextValue := v |}.

Definition mkFunction (insts : list Instruction) : Function :=
  {| stackPointerArgument := Some {| bitWidth := 32; zextValue := 0 |};
     args := [IntegerTy 64];
     instructions := insts;
     blocks := [seq 0 (length insts)];
     stackFrameMarks := [] |}.


(** ** Where a value comes from, relative to a table of [n] instructions *)

(** An argument or one of the first [n] instructions. *)
Definition original (n : nat) (v : Value) : Prop :=
  match v with
  | VArg _ => True
  | VInst id => (id < n)%nat
  | _ => False
  end.

(** A constant integer or an instruction numbered [n] or later. *)
Definition fresh (n : nat) (v : Value) : Prop :=
  match v with
  | VInst id => (n <= id)%nat
  | VConst _ => True
  | _ => False
  end.

Definition isConstantInt (v : Value) : Prop :=
  match v with VConst _ => True | _ => False end.

(** [fn'] is [fn] with instructions added at the end of the table, all of
    whose operands are [fresh n]. *)
Definition Extends (n : nat) (fn fn' : Function) : Prop :=
  exists new,
    instructions fn' = instructions fn ++ new
    /\ Forall (fun i => Forall (fresh n) (operands i)) new
    /\ args fn' = args fn
    /\ stackPointerArgument fn' = stackPointerArgument fn.

(** What the rewriting loop has established, after some leaves, on a
    function that had [n] instructions: the processed values have no user
    left, and every other original value is used and classified as before. *)
Record Rewritten (n : nat) (fn0 fn : Function) (processed : list Value)
    : Prop := {
  rw_length : (n <= length (instructions fn))%nat;
  rw_args : args fn = args fn0;
  rw_stackPointer : stackPointerArgument fn = stackPointerArgument fn0;
  rw_original : forall v, In v processed -> original n v;
  rw_processed : forall v, In v processed -> users fn v = [];
  rw_userIds : forall b, original n b -> ~ In b processed ->
                         userIds fn b = userIds fn0 b;
  rw_analysis : forall b, original n b -> ~ In b processed ->
                          analyzeObject fn b = analyzeObject fn0 b
}.

(** ** The ordered map *)

(** Keys in strictly ascending order. *)
Definition ascending (m : list (Z * nat)) : Prop :=
  StronglySorted (fun a b => a.1 < b.1) m.

(** ** Induction over a stack object that also reaches its fields *)

Section StackObject_nested_ind.
Variable P : StackObject -> Prop.
Hypothesis HObject : forall self offset, P (ObjectStackObject self offset).
Hypothesis HStructure :
  forall self fields,
    Forall (fun field => P field.2) fields ->
    P (StructureStackObject self fields).

Fixpoint StackObject_nested_ind (object : StackObject) : P object :=
  match object with
  | ObjectStackObject self offset => HObject self offset
  | StructureStackObject self fields =>
      HStructure self fields
        ((fix all (l : list (Z * StackObject))
              : Forall (fun field => P field.2) l :=
            match l with
            | [] => List.Forall_nil _
            | field :: l' =>
                @List.Forall_cons _ (fun field => P field.2) field l'
                  (StackObject_nested_ind field.2) (all l')
            end) fields)
  end.
End StackObject_nested_ind.

(** Every instruction that stands in a block is in the table. *)
Definition wellPlaced (fn : Function) : Prop :=
  Forall (Forall (fun id => (id < length (instructions fn))%nat)) (blocks fn).

(** The function of a successful run, or the function itself. *)
Definition rewritten (dl : DataLayout) (fn : Function) : Function :=
  match runOnFunction dl fn with
  | Done (_, fn') => fn'
  | Stopped _ => fn
  end.

(** [sp + 0] is loaded as [i32] and [sp + 2] is stored an [i16]. *)
Definition fn_overlap : Function :=
  mkFunction
    [ mkInst (BinaryOperator Add) [VArg 0; int64 0] (IntegerTy 64);
      mkInst (CastInst IntToPtr) [VInst 0] (PointerTy (IntegerTy 32));
      mkInst LoadInst [VInst 1] (IntegerTy 32);
      mkInst (BinaryOperator Add) [VArg 0; int64 2] (IntegerTy 64);
      mkInst (CastInst IntToPtr) [VInst 3] (PointerTy (IntegerTy 16));
      mkInst StoreInst [VConst {| bitWidth := 16; zextValue := 7 |}; VInst 4]
             VoidTy;
      mkInst ReturnInst [] VoidTy ].

Definition fn_overlap_rewritten : Function :=
  Eval vm_compute in rewritten dl64 fn_overlap.

(** The stack pointer is not used. *)
Definition fn_unused : Function := mkFunction [ mkInst ReturnInst [] VoidTy ].

(** [sp] itself is loaded as [i32], and [sp + 8] is stored an [i64]: the
    structure read from [sp] has the implicit leaf whose offset value is
    the argument. *)
Definition fn_implicit : Function :=
  mkFunction
    [ mkInst (CastInst IntToPtr) [VArg 0] (PointerTy (IntegerTy 32));
      mkInst LoadInst [VInst 0] (IntegerTy 32);
      mkInst (BinaryOperator Add) [VArg 0; int64 8] (IntegerTy 64);
      mkInst (CastInst IntToPtr) [VInst 2] (PointerTy (IntegerTy 64));
      mkInst StoreInst [int64 1; VInst 3] VoidTy;
      mkInst ReturnInst [] VoidTy ].

(** [fn_implicit] once the allocation is in place, and the frame that
    describes it. *)
Definition fn_implicit_allocated : Function :=
  Eval vm_compute in
    match readObject fn_implicit 7 (VArg 0) None 0 with
    | Done (Some root, _) =>
        match representRoot fn_implicit dl64 root with
        | Done (Some frame) =>
            match getNaiveType frame root with
            | Some naiveType =>
                match createInst (mkInst AllocaInst [VConst (i32 1)]
                                         (PointerTy naiveType))
                                 (Some 0%nat) fn_implicit with
                | Done (_, fn) => setStackFrame 6 fn
                | _ => fn_implicit
                end
            | None => fn_implicit
            end
        | _ => fn_implicit
        end
    | _ => fn_implicit
    end.

Definition frame_implicit : LlvmStackFrame :=
  match readObject fn_implicit 7 (VArg 0) None 0 with
  | Done (Some root, _) =>
      match representRoot fn_implicit dl64 root with
      | Done (Some frame) => frame
      | _ => emptyFrame
      end
  | _ => emptyFrame
  end.

Definition fn_implicit_first_leaf : Function :=
  Eval vm_compute in
    match rewriteObject frame_implicit (VInst 6) fn_implicit_allocated
                        (1%nat, VArg 0) with
    | Done fn => fn
    | _ => fn_implicit_allocated
    end.

(** Instructions were added to the table and no block changed. *)
Definition Unplaced (fn fn' : Function) : Prop :=
  blocks fn' = blocks fn
  /\ exists new, instructions fn' = instructions fn ++ new.





(** A tree with a leaf whose offset value has no user in [fn]. *)
Definition hasUnusedLeaf (fn : Function) (T : StackObject) : Prop :=
  Exists (fun leaf => users fn leaf.2 = []) (leaves T).

(** A read that cannot lead to a successful run: it stops, or returns a
    tree with a leaf whose offset value has no user. *)
Definition blocked (fn : Function) (r : Outcome (option StackObject * nat))
    : Prop :=
  match r with
  | Stopped _ => True
  | Done (None, _) => False
  | Done (Some T, _) => hasUnusedLeaf fn T
  end.

(** ** The scenario of two overlapping locals *)

Definition access (offset : Z) (object : nat) (type : Ty)
    : OverlappingTypedAccesses.TypedAccess :=
  OverlappingTypedAccesses.Build_TypedAccess offset object type.

(** The tree read when [sp + 0] and [sp + 2] are the two uses of [sp]. *)
Definition overlap_root (add0 add2 : nat) : StackObject :=
  StructureStackObject 0
    [ (0, ObjectStackObject 1 (VInst add0));
      (2, ObjectStackObject 2 (VInst add2)) ].

(** The window of the two leaves: an [i32] at 0 and an [i16] at 2. *)
Definition overlap_window : list OverlappingTypedAccesses.TypedAccess :=
  [ access 0 1 (IntegerTy 32); access 2 2 (IntegerTy 16) ].

Definition overlap_struct : Ty := StructTy true [IntegerTy 16; IntegerTy 16].

(** The frame that describes the tree: the links of the root (0), of the
    struct that wraps the window (1) and of the two leaves (2 and 3). *)
Definition overlap_frame (add0 add2 : nat) : LlvmStackFrame :=
  {| links :=
       [ Build_GepLink None (Some (i64 0)) (Some (StructTy true [overlap_struct]));
         Build_GepLink (Some 0%nat) (Some (i32 0)) (Some overlap_struct);
         Build_GepLink (Some 1%nat) (Some (i32 0)) (Some (IntegerTy 32));
         Build_GepLink (Some 1%nat) (Some (i32 1)) (Some (IntegerTy 16)) ];
     linkMap := {[ 0%nat := 0%nat; 1%nat := 2%nat; 2%nat := 3%nat ]};
     typeMap := {[ 0%nat := StructTy true [overlap_struct];
                   1%nat := IntegerTy 32; 2%nat := IntegerTy 16 ]};
     allObjects := [ (1%nat, VInst add0); (2%nat, VInst add2) ] |}.

(** ** Proof steps that are repeated *)

(** Replaces a closed subterm by its value. *)
Ltac eval_at t := let t' := eval vm_compute in t in change t with t'.

(** Opens one round of [getPointerToObject] on a link of a known frame. *)
Ltac follow_link frame n :=
  unfold followLink at 1;
  eval_at (links frame !! n); cbv beta iota;
  cbn [index expectedType app].

(** Every binary operator of the table has its two operands. *)
Definition binaryArity (fn : Function) : Prop :=
  List.Forall (fun i => forall op, opcode i = BinaryOperator op ->
                                   length (operands i) = 2%nat)
              (instructions fn).

(** The calls of [readObject] that are open at once: [Chain fn root path
    base] holds when [base] is being read, [path] listing, innermost first,
    the instructions on the way down from [root]. *)
Inductive Chain (fn : Function) (root : Value) : list nat -> Value -> Prop :=
| Chain_root : Chain fn root [] root
| Chain_step path base hasCast cs vs k id :
    Chain fn root path base ->
    analyzeObject fn base = Some (hasCast, cs, vs) ->
    In (k, id) cs ->
    Chain fn root (id :: path) (VInst id).

(** ** Further example inputs *)

(** [sp + v] for a value [v] that is not a constant. *)
Definition fn_variable : Function :=
  mkFunction
    [ mkInst (BinaryOperator Mul) [VArg 0; int64 4] (IntegerTy 64);
      mkInst (BinaryOperator Add) [VArg 0; VInst 0] (IntegerTy 64);
      mkInst ReturnInst [] VoidTy ].

(** [sp + 8] is only passed to a call. *)
Definition fn_call : Function :=
  mkFunction
    [ mkInst (BinaryOperator Add) [VArg 0; int64 8] (IntegerTy 64);
      mkInst CallInst [VInst 0] VoidTy;
      mkInst ReturnInst [] VoidTy ].

(** ** Uses of an offset value ([getUnionTypes]) *)

(** A user that passes the offset on as a value: a store or a call. *)
Definition passesValue (user : Instruction) : Prop :=
  opcode user = StoreInst \/ opcode user = CallInst.

(** A user from which [getUnionTypes] reads no type and which its assertion
    accepts. *)
Definition givesNoType (user : Instruction) : Prop :=
  match opcode user with
  | StoreInst | CallInst | BinaryOperator _ | PHINode => True
  | _ => False
  end.

(** The window a leaf offers its witnessed types in: all at offset 0. *)
Definition leafWindow (self : nat) (types : list Ty)
    : list OverlappingTypedAccesses.TypedAccess :=
  map (OverlappingTypedAccesses.Build_TypedAccess 0 self) types.

(** [sp + 8] is loaded as [i32] and as [i64]. *)
Definition fn_two_types : Function :=
  mkFunction
    [ mkInst (BinaryOperator Add) [VArg 0; int64 8] (IntegerTy 64);
      mkInst (CastInst IntToPtr) [VInst 0] (PointerTy (IntegerTy 32));
      mkInst LoadInst [VInst 1] (IntegerTy 32);
      mkInst (CastInst IntToPtr) [VInst 0] (PointerTy (IntegerTy 64));
      mkInst LoadInst [VInst 3] (IntegerTy 64);
      mkInst ReturnInst [] VoidTy ].

(** ** What a run leaves of the function it was given *)

(** An operand after the run: as it was, or, in place of one of the values
    [replaced], an instruction numbered [n] or later. *)
Definition rewiredOperand (n : nat) (replaced : list Value) (o o' : Value) : Prop :=
  o' = o \/ (In o replaced /\ exists p, o' = VInst p /\ (n <= p)%nat).

(** An instruction after the run: the same opcode and type, the operands
    rewired one by one. *)
Definition rewired (n : nat) (replaced : list Value) (i i' : Instruction) : Prop :=
  opcode i' = opcode i
  /\ instType i' = instType i
  /\ Forall2 (rewiredOperand n replaced) (operands i) (operands i').

(** The instructions of [fn0] are the first of [fn], rewired. *)
Definition Rewired (replaced : list Value) (fn0 fn : Function) : Prop :=
  Forall2 (rewired (length (instructions fn0)) replaced)
          (instructions fn0)
          (take (length (instructions fn0)) (instructions fn)).

(** A block without the instructions numbered [n] or later. *)
Definition firstInstructions (n : nat) (block : list nat) : list nat :=
  List.filter (fun id => id <? n)%nat block.

(** From [fn] to [fn'] no stack-frame marker changed, the table did not
    shrink, and the blocks differ only in instructions numbered [n] or
    later. *)
Definition Placement (n : nat) (fn fn' : Function) : Prop :=
  stackFrameMarks fn' = stackFrameMarks fn
  /\ map (firstInstructions n) (blocks fn') = map (firstInstructions n) (blocks fn)
  /\ (length (instructions fn) <= length (instructions fn'))%nat.

(** ** Values of a function *)

(** A value that exists in [fn]: an instruction is in the table. *)
Definition definedIn (fn : Function) (v : Value) : Prop :=
  match v with
  | VInst id => (id < length (instructions fn))%nat
  | _ => True
  end.

(** Where the loop of [getPointerToObject] stands after a link whose
    expected type is [T]: a pointer to [T] with one pending index, or
    pending indices that lead to [T]. *)
Definition leadsTo (T : Ty) (state : Value * list Value * Function) : Prop :=
  let '(result, gepIndices, fn) := state in
  (exists idx, gepIndices = [idx] /\ getType fn result = PointerTy T)
  \/ (gepIndices <> [] /\ getIndexedType (getType fn result) gepIndices = Some T).

(** ** The order of the fields of a structure *)

(** In every structure of the tree the fields stand in the order of their
    offsets, and no offset is negative. *)
Fixpoint orderedFields (object : StackObject) : Prop :=
  match object with
  | ObjectStackObject _ _ => True
  | StructureStackObject _ fields =>
      StronglySorted Z.le (map fst fields)
      /\ List.Forall (fun d => 0 <= d) (map fst fields)
      /\ (fix all (l : list (Z * StackObject)) : Prop :=
            match l with
            | [] => True
            | field :: l' => orderedFields field.2 /\ all l'
            end) fields
  end.

(** No constant operand of the function reads as the least [int64_t]. *)
Definition noLeastConstant (fn : Function) : Prop :=
  forall id i c,
    getInst fn id = Some i -> In (VConst c) (operands i) ->
    sint64 (getLimitedValue c) <> -9223372036854775808.

(** ** Links and types of a frame *)

(** The object has a link that is set up: the link expects the type
    recorded for the object, and has an index and a parent. *)
Definition Linked (frame : LlvmStackFrame) (object : nat) : Prop :=
  exists link g T,
    linkMap frame !! object = Some link
    /\ links frame !! link = Some g
    /\ typeMap frame !! object = Some T
    /\ expectedType g = Some T
    /\ is_Some (index g)
    /\ is_Some (parent g).

(** Every link of the map exists, and no two objects share one. *)
Definition linksWellFormed (frame : LlvmStackFrame) : Prop :=
  (forall o l, linkMap frame !! o = Some l -> (l < length (links frame))%nat)
  /\ (forall o o' l, linkMap frame !! o = Some l ->
                     linkMap frame !! o' = Some l -> o = o').

(** The object has a link under [parentLink] with the index [idx], and the
    link expects the type [T] recorded for the object. *)
Definition LinkedAt (frame : LlvmStackFrame) (object parentLink : nat)
    (idx : ConstantInt) (T : Ty) : Prop :=
  exists link,
    linkMap frame !! object = Some link
    /\ links frame !! link
       = Some {| parent := Some parentLink; index := Some idx;
                 expectedType := Some T |}
    /\ typeMap frame !! object = Some T.

(** From [frame] to [frame'] nothing that was set up is lost: every object
    keeps its link and its type, and a link that has its parent is left as
    it is. *)
Definition Grows (frame frame' : LlvmStackFrame) : Prop :=
  linksWellFormed frame'
  /\ (forall o l, linkMap frame !! o = Some l -> linkMap frame' !! o = Some l)
  /\ (forall o l g, linkMap frame !! o = Some l -> links frame !! l = Some g ->
        is_Some (parent g) -> links frame' !! l = Some g)
  /\ (forall o T, typeMap frame !! o = Some T -> typeMap frame' !! o = Some T).

(** The type recorded for each object of a window is the type of its
    access. *)
Definition windowTyped (frame : LlvmStackFrame)
    (typedAccesses : list OverlappingTypedAccesses.TypedAccess) : Prop :=
  forall a, In a typedAccesses ->
    typeMap frame !! OverlappingTypedAccesses.object a
    = Some (OverlappingTypedAccesses.type a).

(** ** Layout of a reduced window *)

(** Integers of 8, 16, 32 and 64 bits are stored in 1, 2, 4 and 8 bytes,
    and an array of [n] 64-bit integers in [8 * n]. *)
Definition standardIntegers (dl : DataLayout) : Prop :=
  getTypeStoreSize dl (IntegerTy 8) = 1
  /\ getTypeStoreSize dl (IntegerTy 16) = 2
  /\ getTypeStoreSize dl (IntegerTy 32) = 4
  /\ getTypeStoreSize dl (IntegerTy 64) = 8
  /\ forall n, getTypeStoreSize dl (ArrayTy (IntegerTy 64) n) = 8 * n.

(** The byte after the last one of an access, without wrap-around. *)
Definition endOf (dl : DataLayout) (a : OverlappingTypedAccesses.TypedAccess) : Z :=
  OverlappingTypedAccesses.offset a
  + getTypeStoreSize dl (OverlappingTypedAccesses.type a).

(** Offsets and sizes far from the limits of [int64_t]. *)
Definition moderate (dl : DataLayout) (a : OverlappingTypedAccesses.TypedAccess)
    : Prop :=
  isSized (OverlappingTypedAccesses.type a) = true
  /\ -2305843009213693952 <= OverlappingTypedAccesses.offset a <= 2305843009213693952
  /\ 0 <= getTypeStoreSize dl (OverlappingTypedAccesses.type a) <= 2305843009213693952.

(** [y] does not go before [x] in the order [reduce] sorts by. *)
Definition notAfter (dl : DataLayout) (x y : OverlappingTypedAccesses.TypedAccess)
    : Prop :=
  OverlappingTypedAccesses.before dl y x = false.

(** In the state of the loop of [reduce], the access has an index counted
    from the end of the body, and the fields before the one it names store
    the distance of the access from the start of the window. *)
Definition placedAt (dl : DataLayout) (st : OverlappingTypedAccesses.ReduceState)
    (a : OverlappingTypedAccesses.TypedAccess) : Prop :=
  exists k : nat,
    OverlappingTypedAccesses.gepIndices st !! OverlappingTypedAccesses.object a
      = Some (- Z.of_nat k)
    /\ (1 <= k <= length (OverlappingTypedAccesses.structBody st))%nat
    /\ storeSizes dl (take (length (OverlappingTypedAccesses.structBody st) - k)
                           (OverlappingTypedAccesses.structBody st))
       = OverlappingTypedAccesses.offset a - OverlappingTypedAccesses.startOffset st.

(** The window drawn in the comment of [reduce]: A, four bytes at 0; B,
    four bytes at 4; C, two bytes at 3. *)
Definition comment_window : list OverlappingTypedAccesses.TypedAccess :=
  [ access 0 1 (IntegerTy 32); access 4 2 (IntegerTy 32); access 3 3 (IntegerTy 16) ].

(** ** Layout of a structure whose fields do not overlap *)


(** [DataLayout::getTypeAllocSize]: the store size rounded up to the
    alignment of the type, the alignment being the natural one of
    [abiAlignment]. *)
Definition getTypeAllocSize (dl : DataLayout) (t : Ty) : Z :=
  alignTo (getTypeStoreSize dl t) (abiAlignment t).

(** Where the element after [fields] starts in a packed struct: each
    element takes its alloc size. *)
Definition allocSizes (dl : DataLayout) (fields : list Ty) : Z :=
  fold_right (fun t n => getTypeAllocSize dl t + n) 0 fields.






(** ** Where created instructions stand *)

(** [p] stands in a block of [fn], before [pos] in the same block. *)
Definition placedBefore (fn : Function) (p pos : nat) : Prop :=
  exists block pre mid post,
    In block (blocks fn) /\ block = pre ++ p :: mid ++ pos :: post.

(** Every instruction numbered [n] or later stands before [pos]. *)
Definition newBefore (n pos : nat) (fn : Function) : Prop :=
  forall p, (n <= p < length (instructions fn))%nat -> placedBefore fn p pos.

(** ** A record inside the window and behind its last record *)

(** [sp + 8] is stored an [i64], [sp + 9] an [i8] and [sp + 12] an [i32]:
    the [i8] and the [i32] both lie inside the [i64]. *)
Definition fn_running_max : Function :=
  mkFunction
    [ mkInst (BinaryOperator Add) [VArg 0; int64 8] (IntegerTy 64);
      mkInst (CastInst IntToPtr) [VInst 0] (PointerTy (IntegerTy 64));
      mkInst StoreInst [int64 1; VInst 1] VoidTy;
      mkInst (BinaryOperator Add) [VArg 0; int64 9] (IntegerTy 64);
      mkInst (CastInst IntToPtr) [VInst 3] (PointerTy (IntegerTy 8));
      mkInst StoreInst [VConst {| bitWidth := 8; zextValue := 2 |}; VInst 4] VoidTy;
      mkInst (BinaryOperator Add) [VArg 0; int64 12] (IntegerTy 64);
      mkInst (CastInst IntToPtr) [VInst 6] (PointerTy (IntegerTy 32));
      mkInst StoreInst [VConst {| bitWidth := 32; zextValue := 3 |}; VInst 7] VoidTy;
      mkInst ReturnInst [] VoidTy ].

(** The tree read from [fn_running_max], the window its first two fields
    make, and the body of the struct the frame gets. *)
Definition running_max_root : StackObject :=
  StructureStackObject 0
    [ (0, ObjectStackObject 1 (VInst 0));
      (1, ObjectStackObject 2 (VInst 3));
      (4, ObjectStackObject 3 (VInst 6)) ].

Definition running_max_window : list OverlappingTypedAccesses.TypedAccess :=
  [ access 0 1 (IntegerTy 64); access 1 2 (IntegerTy 8) ].

Definition running_max_body : list Ty :=
  [ StructTy true [IntegerTy 8; IntegerTy 8; IntegerTy 32; IntegerTy 16];
    ArrayTy (IntegerTy 8) 2;
    IntegerTy 32 ].

(** ** The order in which the set of witnessed types is walked *)

(** [LlvmStackFrame::representObject] for a leaf, from the loop over the set
    on: [types] is the sequence in which the set hands out its elements. *)
Definition representWitnessed (dl : DataLayout) (self : nat) (offset : Value)
    (types : list Ty) (frame : LlvmStackFrame) : Outcome (bool * LlvmStackFrame) :=
  match insertTypes dl self types [] with
  | None => Done (false, frame)
  | Some typedAccesses =>
      '(count, resultType, gep) ← OverlappingTypedAccesses.reduce dl typedAccesses;
      if negb (count =? 1) then Done (false, frame)
      else
        match typeMap frame !! self with
        | Some _ => Stopped AssertionFailure
        | None =>
            Done (true,
                  {| links := links frame; linkMap := linkMap frame;
                     typeMap := <[self := resultType]> (typeMap frame);
                     allObjects := allObjects frame ++ [(self, offset)] |})
        end
  end.

(** [sp + 8] is loaded as [i8], [i16], [i32], [i8*] and [i32*]: five
    types, one more than the set of a leaf holds in line. *)
Definition fn_five_types : Function :=
  mkFunction
    [ mkInst (BinaryOperator Add) [VArg 0; int64 8] (IntegerTy 64);
      mkInst (CastInst IntToPtr) [VInst 0] (PointerTy (IntegerTy 8));
      mkInst LoadInst [VInst 1] (IntegerTy 8);
      mkInst (CastInst IntToPtr) [VInst 0] (PointerTy (IntegerTy 16));
      mkInst LoadInst [VInst 3] (IntegerTy 16);
      mkInst (CastInst IntToPtr) [VInst 0] (PointerTy (IntegerTy 32));
      mkInst LoadInst [VInst 5] (IntegerTy 32);
      mkInst (CastInst IntToPtr) [VInst 0] (PointerTy (PointerTy (IntegerTy 8)));
      mkInst LoadInst [VInst 7] (PointerTy (IntegerTy 8));
      mkInst (CastInst IntToPtr) [VInst 0] (PointerTy (PointerTy (IntegerTy 32)));
      mkInst LoadInst [VInst 9] (PointerTy (IntegerTy 32));
      mkInst ReturnInst [] VoidTy ].

Definition five_types : list Ty :=
  [ PointerTy (IntegerTy 32); PointerTy (IntegerTy 8);
    IntegerTy 32; IntegerTy 16; IntegerTy 8 ].

(** The same five types with the two pointer types the other way round. *)
Definition five_types_swapped : list Ty :=
  [ PointerTy (IntegerTy 8); PointerTy (IntegerTy 32);
    IntegerTy 32; IntegerTy 16; IntegerTy 8 ].

(** ** The tree a second run reads *)

(** Field by field, up to the first field of [fields2] that has a leaf: the
    offsets are the same and the objects are related by [R]. *)
Fixpoint cutFields (R : StackObject -> StackObject -> Prop)
    (fields1 fields2 : list (Z * StackObject)) {struct fields2} : Prop :=
  match fields2, fields1 with
  | [], [] => True
  | f2 :: rest2, f1 :: rest1 =>
      f1.1 = f2.1 /\ R f1.2 f2.2
      /\ (leaves f2.2 = [] -> cutFields R rest1 rest2)
  | _, _ => False
  end.

(** [T2] is [T1] cut off at values without a user in [fn]: a leaf of [T2]
    has no user; a structure of [T2] has the number of the structure of [T1]
    in its place, and fields that are those of [T1] up to the first that has
    a leaf. *)
Fixpoint cutAt (fn : Function) (T1 T2 : StackObject) {struct T2} : Prop :=
  match T2 with
  | ObjectStackObject _ offset => users fn offset = []
  | StructureStackObject self fields2 =>
      match T1 with
      | StructureStackObject self1 fields1 =>
          self1 = self /\ cutFields (cutAt fn) fields1 fields2
      | ObjectStackObject _ _ => False
      end
  end.

(** What the read of a value gives in the function a run has rewritten,
    against what it gave before: nothing as before, or a tree cut off;
    while no leaf has been met the numbering goes on as before. *)
Definition readAgain (fn : Function) (r1 : option StackObject) (next1 : nat)
    (r2 : option StackObject) (next2 : nat) : Prop :=
  match r1, r2 with
  | None, None => next2 = next1
  | Some T1, Some T2 => cutAt fn T1 T2 /\ (leaves T2 = [] -> next2 = next1)
  | _, _ => False
  end.

(** All leaves of the tree are among the values [LV]. *)
Definition leavesAmong (LV : list Value) (T : StackObject) : Prop :=
  forall leaf, In leaf (leaves T) -> In leaf.2 LV.

(** * Properties *)

(** ** Padding *)

Lemma storeSizes_app dl a b :
  storeSizes dl (a ++ b) = storeSizes dl a + storeSizes dl b.
Proof. induction a as [|t a IH]; simpl; [reflexivity | rewrite IH; lia]. Qed.

Lemma pad_ints_sublist sizes difference :
  exists used, OverlappingTypedAccesses.pad_ints sizes difference
               = map (fun i => IntegerTy (i * 8)) used
               /\ sublist used sizes.
Proof.
  revert difference.
  induction sizes as [|i sizes IH]; intros difference; simpl.
  - exists []. split; [reflexivity | constructor].
  - destruct ((0 <? i) && (0 <? difference)).
    + destruct (i <=? difference).
      * destruct (IH (difference - i)) as (used & -> & Hsub).
        exists (i :: used). split; [reflexivity | by constructor].
      * destruct (IH difference) as (used & -> & Hsub).
        exists used. split; [reflexivity | by apply sublist_cons].
    + exists []. split; [reflexivity | apply sublist_nil_l].
Qed.

(** X2.  For every gap, [pad] writes at most one [int64] array, and that
    only for a gap above 16, followed by integer fields of 8, 4, 2 and 1
    bytes, in that order and each at most once. *)
Lemma pad_shape (d : Z) : PaddingShape d (OverlappingTypedAccesses.pad d).
Proof.
  unfold PaddingShape, OverlappingTypedAccesses.pad.
  destruct (16 <? d) eqn:Hd.
  - apply Z.ltb_lt in Hd.
    destruct (pad_ints_sublist [8; 4; 2; 1] (uint64 (d - d / 8 * 8)))
      as (used & -> & Hsub).
    exists [ArrayTy (IntegerTy 64) (d / 8)], used.
    split; [reflexivity | split; [right; split; [lia | reflexivity] | exact Hsub]].
  - destruct (pad_ints_sublist [8; 4; 2; 1] d) as (used & -> & Hsub).
    exists [], used. split; [reflexivity | split; [by left | exact Hsub]].
Qed.

(** X1.  For every gap representable as a [size_t] other than 16, the
    fields that [pad] writes store exactly the gap (8-byte pointers). *)
Lemma pad_sum (d : Z) :
  0 < d < 18446744073709551616 -> d <> 16 ->
  storeSizes dl64 (OverlappingTypedAccesses.pad d) = d.
Proof.
  intros Hd H16. unfold OverlappingTypedAccesses.pad.
  destruct (16 <? d) eqn:Hcmp.
  - apply Z.ltb_lt in Hcmp.
    assert (Hr : uint64 (d - d / 8 * 8) = d mod 8).
    { replace (d - d / 8 * 8) with (d mod 8) by (rewrite Z.mod_eq; lia).
      pose proof (Z.mod_pos_bound d 8 ltac:(lia)) as Hb.
      unfold uint64. apply Z.mod_small. lia. }
    rewrite Hr.
    pose proof (Z.mod_pos_bound d 8 ltac:(lia)) as Hb.
    pose proof (Z.div_mod d 8 ltac:(lia)) as Hdm.
    assert (Harr : forall rest,
      storeSizes dl64 (ArrayTy (IntegerTy 64) (d / 8) :: rest)
      = d / 8 * 8 + storeSizes dl64 rest).
    { intros rest. reflexivity. }
    rewrite Harr.
    assert (Hcases : d mod 8 = 0 \/ d mod 8 = 1 \/ d mod 8 = 2 \/ d mod 8 = 3
                     \/ d mod 8 = 4 \/ d mod 8 = 5 \/ d mod 8 = 6 \/ d mod 8 = 7)
      by lia.
    destruct Hcases as [E|[E|[E|[E|[E|[E|[E|E]]]]]]]; rewrite E in *;
      match goal with
      | |- _ + ?x = _ => let y := eval vm_compute in x in change x with y
      end; lia.
  - apply Z.ltb_ge in Hcmp.
    assert (Hcases : d = 1 \/ d = 2 \/ d = 3 \/ d = 4 \/ d = 5 \/ d = 6 \/ d = 7
                     \/ d = 8 \/ d = 9 \/ d = 10 \/ d = 11 \/ d = 12 \/ d = 13
                     \/ d = 14 \/ d = 15) by lia.
    repeat (destruct Hcases as [->|Hcases]; [reflexivity|]).
    subst d. reflexivity.
Qed.

Lemma pad_sum_witness :
  (0 < 13 < 18446744073709551616) /\ 13 <> 16
  /\ storeSizes dl64 (OverlappingTypedAccesses.pad 13) = 13.
Proof. split; [lia|]. split; [lia|]. apply (pad_sum 13); lia. Defined.

(** C4.  At a gap of 16 bytes [pad] takes the loop rather than the array
    (the test is [difference > 16]) and the loop has each of 8, 4, 2, 1 only
    once: it writes [i64, i32, i16, i8], which store 15 bytes, not 16. *)
Theorem pad_sixteen_one_byte_short :
  OverlappingTypedAccesses.pad 16
    = [IntegerTy 64; IntegerTy 32; IntegerTy 16; IntegerTy 8]
  /\ storeSizes dl64 (OverlappingTypedAccesses.pad 16) = 15
  /\ ~ (forall d, 0 < d ->
          PaddingShape d (OverlappingTypedAccesses.pad d)
          /\ storeSizes dl64 (OverlappingTypedAccesses.pad d) = d).
Proof.
  split; [reflexivity | split; [reflexivity |]].
  intros H. destruct (H 16 ltac:(lia)) as [_ Hsum].
  vm_compute in Hsum. discriminate.
Qed.

(** ** Overlap windows *)

(** What [insert] tests: a record is accepted if and only if the window is
    empty or the record starts strictly before the end offset of the record
    inserted last. *)
Lemma insert_accepts_iff (dl : DataLayout)
    (accesses : list OverlappingTypedAccesses.TypedAccess)
    (offset : Z) (object : nat) (type : Ty) :
  is_Some (OverlappingTypedAccesses.insert dl accesses offset object type)
  <-> match last accesses with
      | None => True
      | Some back => offset < OverlappingTypedAccesses.accessEndOffset dl back
      end.
Proof.
  unfold OverlappingTypedAccesses.insert.
  destruct (last accesses) as [back|]; [|split; [trivial | eauto]].
  destruct (Z.leb_spec (OverlappingTypedAccesses.accessEndOffset dl back) offset).
  - split; [intros [w Hw]; discriminate | lia].
  - split; [trivial | eauto].
Qed.

Lemma running_max_window_built : Window dl64 running_max_window.
Proof.
  apply (Window_insert dl64 [access 0 1 (IntegerTy 64)] 1 2%nat (IntegerTy 8));
    [|reflexivity].
  apply (Window_insert dl64 [] 0 1%nat (IntegerTy 64));
    [apply Window_empty | reflexivity].
Qed.

(** C5.  [insert] compares a record with the end of the record inserted
    last, not with the largest end in the window.  With an [i64] at 0 and an
    [i8] at 1 in the window the largest end is 8, and an [i32] at 4, which
    lies inside the [i64], is refused as not overlapping.  In the frame of
    [fn_running_max] the [i32] is then given an element of its own behind
    the window and two bytes of padding: it stands ten bytes from the start
    of the frame, where its offset is four. *)
Theorem overlapping_record_is_refused :
  Window dl64 running_max_window
  /\ runningMaxEnd dl64 running_max_window = Some 8
  /\ OverlappingTypedAccesses.insert dl64 running_max_window 4 3 (IntegerTy 32) = None
  /\ ~ (forall accesses offset object type m,
          Window dl64 accesses ->
          runningMaxEnd dl64 accesses = Some m ->
          (is_Some (OverlappingTypedAccesses.insert dl64 accesses offset object type)
           <-> offset < m))
  /\ exists next frame,
       readObject fn_running_max (S (length (instructions fn_running_max)))
                  (VArg 0) None 0
         = Done (Some running_max_root, next)
       /\ representRoot fn_running_max dl64 running_max_root = Done (Some frame)
       /\ typeMap frame !! 0%nat = Some (StructTy true running_max_body)
       /\ LinkedAt frame 3 0 (i32 2) (IntegerTy 32)
       /\ allocSizes dl64 (take 2 running_max_body) = 10.
Proof.
  split; [exact running_max_window_built|].
  split; [reflexivity|]. split; [reflexivity|]. split.
  - intros H.
    destruct (H _ 4 3%nat (IntegerTy 32) 8 running_max_window_built eq_refl)
      as [_ Hin].
    destruct (Hin ltac:(lia)) as [w Hw]. vm_compute in Hw. discriminate.
  - eexists. eexists. split; [vm_compute; reflexivity|].
    split; [vm_compute; reflexivity|]. split; [vm_compute; reflexivity|].
    split; [|vm_compute; reflexivity].
    eexists. split; [vm_compute; reflexivity|].
    split; vm_compute; reflexivity.
Qed.

(** ** The offset classifier *)

Lemma analyzeUser_None base state user :
  analyzeUser base state user = None <-> rejected base user.2.
Proof.
  destruct state as [[hasCast cs] vs]. unfold analyzeUser, rejected, rightOperand.
  destruct (opcode user.2) as [op| | | | | | | | | | |] eqn:Hop;
    try (split; [discriminate | intros (op' & Hop' & _); discriminate]).
  destruct (decide (op = Add)) as [->|Hne].
  - destruct (operands user.2 !! _) as [[| |constant|]|] eqn:Hright;
      try (split; [intros _; exists Add; split;
                     [reflexivity | right; intros c; congruence]
                  | reflexivity]).
    split; [discriminate|].
    intros (op' & Hop' & [Hne | Hconst]); [congruence|].
    exfalso. by eapply Hconst.
  - split; [intros _; exists op; split; [reflexivity | by left] | reflexivity].
Qed.

Lemma analyzeUsers_None base us state :
  analyzeUsers base us state = None <-> Exists (fun u => rejected base u.2) us.
Proof.
  revert state. induction us as [|user us IH]; intros state; simpl.
  - split; [discriminate | intros H; inversion H].
  - destruct (analyzeUser base state user) as [state'|] eqn:Huser.
    + rewrite IH. split; [by apply Exists_cons_tl|].
      intros H. apply Exists_cons in H as [H|H]; [|exact H].
      apply (proj2 (analyzeUser_None base state user)) in H. congruence.
    + split; [|reflexivity]. intros _. apply List.Exists_cons_hd.
      exact (proj1 (analyzeUser_None base state user) Huser).
Qed.



Arguments analyzeUser : simpl never.
Arguments followLink : simpl never.
Arguments rewriteObject : simpl never.
Arguments readField : simpl never.
Arguments createInst : simpl never.
Arguments createGEP : simpl never.
Arguments getPointerToObject : simpl never.
Arguments replaceAllUsesWith : simpl never.
Arguments representLeaf : simpl never.
Arguments placeField : simpl never.
Arguments closeStructure : simpl never.
Arguments reduceStructField : simpl never.
Arguments linkFor : simpl never.
Arguments setIndex : simpl never.
Arguments setParent : simpl never.
Arguments getUnionTypes : simpl never.
Arguments OverlappingTypedAccesses.reduce : simpl never.

(** ** Outcomes and loops *)

Lemma obind_Done {A B} (m : Outcome A) (k : A -> Outcome B) (b : B) :
  obind m k = Done b -> exists a, m = Done a /\ k a = Done b.
Proof. destruct m as [a|w]; simpl; [eauto | discriminate]. Qed.

Lemma ofoldl_cons {A B} (f : A -> B -> Outcome A) (a : A) (x : B) (l : list B) :
  ofoldl f a (x :: l) = obind (f a x) (fun a' => ofoldl f a' l).
Proof. reflexivity. Qed.

Lemma ofoldl_app {A B} (f : A -> B -> Outcome A) (a : A) (l1 l2 : list B) :
  ofoldl f a (l1 ++ l2) = obind (ofoldl f a l1) (fun a' => ofoldl f a' l2).
Proof.
  revert a. induction l1 as [|x l1 IH]; intros a; simpl; [reflexivity|].
  destruct (f a x); simpl; [apply IH | reflexivity].
Qed.

(** ** Use-lists under instruction creation and replacement *)

Lemma users_from_app k l1 l2 v :
  users_from k (l1 ++ l2) v
  = users_from k l1 v ++ users_from (k + length l1) l2 v.
Proof.
  revert k. induction l1 as [|i l1 IH]; intros k; simpl.
  - by rewrite Nat.add_0_r.
  - rewrite IH, <- app_assoc. do 3 f_equal. lia.
Qed.

Lemma users_from_In k l v id i :
  In (id, i) (users_from k l v) ->
  (k <= id)%nat /\ l !! (id - k)%nat = Some i /\ In v (operands i).
Proof.
  revert k. induction l as [|j l IH]; intros k; simpl; [tauto|].
  rewrite in_app_iff. intros [Hhere|Hlater].
  - destruct (count_occ Value_eq_dec (operands j) v) eqn:Hcount; [inversion Hhere|].
    apply list_elem_of_In, elem_of_replicate in Hhere as [Heq _].
    injection Heq as -> ->. rewrite Nat.sub_diag.
    split; [lia | split; [reflexivity|]].
    apply (count_occ_In Value_eq_dec). lia.
  - destruct (IH _ Hlater) as (Hle & Hlook & Hin).
    split; [lia | split; [|exact Hin]].
    replace (id - k)%nat with (S (id - S k)) by lia. exact Hlook.
Qed.

Lemma users_In fn v id i :
  In (id, i) (users fn v) ->
  getInst fn id = Some i /\ In v (operands i)
  /\ (id < length (instructions fn))%nat.
Proof.
  intros H. apply in_rev in H. apply users_from_In in H as (_ & Hlook & Hin).
  rewrite Nat.sub_0_r in Hlook. split; [exact Hlook | split; [exact Hin|]].
  by eapply lookup_lt_Some.
Qed.

Lemma users_from_unused k l v :
  Forall (fun i => ~ In v (operands i)) l -> users_from k l v = [].
Proof.
  revert k. induction l as [|i l IH]; intros k Hall; simpl; [reflexivity|].
  apply Forall_cons in Hall as [Hi Hl].
  apply (count_occ_not_In Value_eq_dec) in Hi. rewrite Hi, IH; auto.
Qed.

Lemma users_from_map (f : Instruction -> Instruction) k l v :
  (forall i, count_occ Value_eq_dec (operands (f i)) v
             = count_occ Value_eq_dec (operands i) v) ->
  users_from k (map f l) v = map (fun u => (u.1, f u.2)) (users_from k l v).
Proof.
  intros Hf. revert k. induction l as [|i l IH]; intros k; simpl; [reflexivity|].
  rewrite Hf, IH, map_app. f_equal.
  induction (count_occ Value_eq_dec (operands i) v) as [|n IHn]; simpl;
    [reflexivity | by rewrite IHn].
Qed.

Lemma count_occ_replace_other old new v ops :
  v <> old -> v <> new ->
  count_occ Value_eq_dec (map (fun o => if decide (o = old) then new else o) ops) v
  = count_occ Value_eq_dec ops v.
Proof.
  intros Hold Hnew. induction ops as [|o ops IH]; simpl; [reflexivity|].
  rewrite IH. destruct (decide (o = old)) as [->|Hne].
  - destruct (Value_eq_dec new v), (Value_eq_dec old v); congruence.
  - reflexivity.
Qed.

Lemma count_occ_replace_self old new ops :
  old <> new ->
  count_occ Value_eq_dec (map (fun o => if decide (o = old) then new else o) ops) old
  = 0%nat.
Proof.
  intros Hne. induction ops as [|o ops IH]; simpl; [reflexivity|].
  rewrite IH. destruct (decide (o = old)) as [->|Ho].
  - destruct (Value_eq_dec new old); congruence.
  - destruct (Value_eq_dec o old); congruence.
Qed.

(** After [replaceAllUsesWith] the old value has no user left. *)
Lemma users_replaced old new fn :
  old <> new -> users (replaceAllUsesWith old new fn) old = [].
Proof.
  intros Hne. unfold users. simpl. rewrite users_from_unused; [reflexivity|].
  apply List.Forall_forall. intros i Hi. apply in_map_iff in Hi as (j & <- & _).
  apply (count_occ_not_In Value_eq_dec). simpl.
  by apply count_occ_replace_self.
Qed.

(** A value that is neither side of the replacement keeps its users, each
    with its operands replaced. *)
Lemma users_replace_other old new fn v :
  v <> old -> v <> new ->
  users (replaceAllUsesWith old new fn) v
  = map (fun u => (u.1, replaceOperand old new u.2)) (users fn v).
Proof.
  intros Hold Hnew. unfold users. simpl. rewrite List.map_rev. f_equal.
  apply users_from_map.
  intros i. simpl. by apply count_occ_replace_other.
Qed.

(** New instructions that do not use a value leave its users alone. *)
Lemma users_extended fn fn' new v :
  instructions fn' = instructions fn ++ new ->
  Forall (fun i => ~ In v (operands i)) new ->
  users fn' v = users fn v.
Proof.
  intros Hext Hnew. unfold users. rewrite Hext, users_from_app.
  rewrite (users_from_unused _ new) by exact Hnew. by rewrite app_nil_r.
Qed.

Lemma original_not_fresh n v : original n v -> ~ fresh n v.
Proof. destruct v; simpl; try tauto; lia. Qed.

(** ** The classifier under instruction creation and replacement *)

Lemma analyzeUser_replace base old new state u :
  base <> old -> base <> new -> ~ isConstantInt old -> ~ isConstantInt new ->
  analyzeUser base state (u.1, replaceOperand old new u.2)
  = analyzeUser base state u.
Proof.
  intros Hold Hnew Hcold Hcnew. destruct state as [[hasCast cs] vs].
  destruct u as [id i]. unfold analyzeUser. simpl.
  destruct (opcode i) as [op| | | | | | | | | | |]; try reflexivity.
  destruct (decide (op = Add)); [|reflexivity].
  set (g := fun o : Value => if decide (o = old) then new else o).
  assert (Hfirst : (map g (operands i) !! 0%nat = Some base)
                   <-> (operands i !! 0%nat = Some base)).
  { rewrite list_lookup_fmap. destruct (operands i !! 0%nat) as [o|]; simpl;
      [|tauto].
    unfold g. destruct (decide (o = old)) as [->|Ho]; [|tauto].
    split; intros E; injection E; congruence. }
  assert (Hright : forall n,
    match map g (operands i) !! n with
    | Some (VConst c) => Some c | _ => None end
    = match operands i !! n with
      | Some (VConst c) => Some c | _ => None end).
  { intros n. rewrite list_lookup_fmap.
    destruct (operands i !! n) as [o|]; simpl; [|reflexivity].
    unfold g. destruct (decide (o = old)) as [->|Ho]; [|reflexivity].
    destruct old, new; simpl in *; tauto. }
  destruct (decide (map g (operands i) !! 0%nat = Some base)) as [E|E];
    destruct (decide (operands i !! 0%nat = Some base)) as [E'|E'];
    try tauto.
  - specialize (Hright 1%nat).
    destruct (map g (operands i) !! 1%nat) as [[| |c|]|];
      destruct (operands i !! 1%nat) as [[| |c'|]|]; congruence.
  - specialize (Hright 0%nat).
    destruct (map g (operands i) !! 0%nat) as [[| |c|]|];
      destruct (operands i !! 0%nat) as [[| |c'|]|]; congruence.
Qed.

Lemma analyzeUsers_replace base old new us state :
  base <> old -> base <> new -> ~ isConstantInt old -> ~ isConstantInt new ->
  analyzeUsers base (map (fun u => (u.1, replaceOperand old new u.2)) us) state
  = analyzeUsers base us state.
Proof.
  intros Hold Hnew Hcold Hcnew. revert state.
  induction us as [|u us IH]; intros state; simpl; [reflexivity|].
  rewrite analyzeUser_replace by assumption.
  destruct (analyzeUser base state u); [apply IH | reflexivity].
Qed.

Lemma analyzeObject_replace old new fn base :
  base <> old -> base <> new -> ~ isConstantInt old -> ~ isConstantInt new ->
  analyzeObject (replaceAllUsesWith old new fn) base = analyzeObject fn base.
Proof.
  intros. unfold analyzeObject.
  rewrite users_replace_other by assumption. by apply analyzeUsers_replace.
Qed.

Lemma analyzeObject_extended fn fn' new base :
  instructions fn' = instructions fn ++ new ->
  Forall (fun i => ~ In base (operands i)) new ->
  analyzeObject fn' base = analyzeObject fn base.
Proof.
  intros Hext Hnew. unfold analyzeObject.
  by rewrite (users_extended fn fn' new).
Qed.

(** ** The ordered map of constant offsets *)

Lemma StdMap_insert_In_inv key value m x :
  In x (StdMap.insert key value m) -> x = (key, value) \/ In x m.
Proof.
  induction m as [|[k v] m IH]; simpl; [intuition congruence|].
  destruct (key <? k); [simpl; intuition congruence|].
  destruct (key =? k); [simpl; tauto|].
  simpl. intros [<-|H]; [tauto|]. destruct (IH H); tauto.
Qed.

Lemma StdMap_insert_keeps key value m x :
  In x m -> In x (StdMap.insert key value m).
Proof.
  induction m as [|[k v] m IH]; simpl; [tauto|].
  destruct (key <? k); [simpl; tauto|].
  destruct (key =? k); [simpl; tauto|].
  simpl. intros [<-|H]; [tauto | right; auto].
Qed.

Lemma StdMap_insert_ascending key value m :
  ascending m -> ascending (StdMap.insert key value m).
Proof.
  unfold ascending. induction m as [|[k v] m IH]; simpl; intros Hm.
  - repeat constructor.
  - apply StronglySorted_inv in Hm as [Hm Hk].
    destruct (Z.ltb_spec key k).
    + constructor; [by constructor|]. constructor; [simpl; lia|].
      eapply Forall_impl; [exact Hk|]. simpl. intros; lia.
    + destruct (Z.eqb_spec key k); [by constructor|].
      constructor; [auto|]. apply List.Forall_forall. intros x Hx.
      apply StdMap_insert_In_inv in Hx as [->|Hx]; [simpl; lia|].
      rewrite List.Forall_forall in Hk. by apply Hk.
Qed.

(** [insert] leaves a map alone that already has the key. *)
Lemma StdMap_insert_present key value m :
  ascending m -> In key (map fst m) -> StdMap.insert key value m = m.
Proof.
  unfold ascending. induction m as [|[k v] m IH]; simpl; intros Hm Hin; [tauto|].
  apply StronglySorted_inv in Hm as [Hm Hk].
  destruct (Z.eqb_spec key k) as [->|Hne].
  - rewrite Z.ltb_irrefl. reflexivity.
  - destruct Hin as [->|Hin]; [tauto|].
    apply in_map_iff in Hin as (x & <- & Hx).
    rewrite List.Forall_forall in Hk. specialize (Hk x Hx). simpl in Hk.
    destruct (Z.ltb_spec x.1 k); [lia|].
    f_equal. apply IH; [exact Hm|]. by apply in_map.
Qed.


(** ** What the classifier records *)

Lemma analyzeUser_Some base hasCast cs vs user hasCast' cs' vs' :
  analyzeUser base (hasCast, cs, vs) user = Some (hasCast', cs', vs') ->
  vs' = vs
  /\ ((cs' = cs /\ forall c, ~ addsConstant base c user.2)
      \/ exists c, addsConstant base c user.2
                   /\ cs' = StdMap.insert c user.1 cs).
Proof.
  unfold analyzeUser, addsConstant, rightOperand.
  destruct (opcode user.2) as [op| | | | | | | | | | |] eqn:Hop;
    try (intros [= <- <- <-]; split; [reflexivity | left; split; [reflexivity|]];
         intros c [Hc _]; discriminate).
  destruct (decide (op = Add)) as [->|]; [|discriminate].
  destruct (operands user.2 !! _) as [[| |constant|]|] eqn:Hright;
    try discriminate.
  intros [= <- <- <-]. split; [reflexivity | right].
  exists (sint64 (getLimitedValue constant)). eauto.
Qed.

Lemma addsConstant_unique base c c' user :
  addsConstant base c user -> addsConstant base c' user -> c = c'.
Proof.
  intros (_ & k & Hk & <-) (_ & k' & Hk' & <-). congruence.
Qed.

(** The constant offsets after the loop of [analyzeObject]: still in
    ascending order, nothing lost, and every new entry is an [add] of the
    base and a constant. *)
Lemma analyzeUsers_Some base us :
  forall hasCast cs vs hasCast' cs' vs',
  analyzeUsers base us (hasCast, cs, vs) = Some (hasCast', cs', vs') ->
  vs' = vs
  /\ (ascending cs -> ascending cs')
  /\ (forall x, In x cs -> In x cs')
  /\ (forall k id, In (k, id) cs' ->
        In (k, id) cs \/ exists i, In (id, i) us /\ addsConstant base k i).
Proof.
  induction us as [|user us IH]; intros hasCast cs vs hasCast' cs' vs' H.
  - injection H as <- <- <-. repeat split; auto.
  - simpl in H.
    destruct (analyzeUser base (hasCast, cs, vs) user) as [[[h1 cs1] vs1]|]
      eqn:Huser; [|discriminate].
    apply analyzeUser_Some in Huser as [-> Hcs1].
    destruct (IH _ _ _ _ _ _ H) as (-> & Hasc & Hkeep & Hfrom).
    split; [reflexivity|].
    destruct Hcs1 as [[-> _]|(c & Hc & ->)].
    + repeat split; auto. intros k id Hin.
      destruct (Hfrom k id Hin) as [?|(i & Hi & Hadd)]; [tauto|].
      right. exists i. simpl. tauto.
    + split; [intros Hcs; by apply Hasc, StdMap_insert_ascending|].
      split; [intros x Hx; by apply Hkeep, StdMap_insert_keeps|].
      intros k id Hin.
      destruct (Hfrom k id Hin) as [Hin1|(i & Hi & Hadd)].
      * apply StdMap_insert_In_inv in Hin1 as [[= -> ->]|?]; [|tauto].
        right. exists user.2. split; [left; by destruct user | exact Hc].
      * right. exists i. simpl. tauto.
Qed.

Lemma analyzeObject_Some fn base hasCast cs vs :
  analyzeObject fn base = Some (hasCast, cs, vs) ->
  vs = [] /\ ascending cs
  /\ forall k id, In (k, id) cs ->
       exists i, In (id, i) (users fn base) /\ addsConstant base k i.
Proof.
  intros H. apply analyzeUsers_Some in H as (-> & Hasc & _ & Hfrom).
  split; [reflexivity|]. split; [apply Hasc; constructor|].
  intros k id Hin. destruct (Hfrom k id Hin) as [[]|?]; assumption.
Qed.

(** ** The tree that [readObject] builds *)

(** The loop over [constantOffsets] only appends fields, each the result of
    reading one recorded instruction. *)
Lemma readFields_inv read structure front cs :
  forall fields next fields' next',
  ofoldl (readField read structure front) (fields, next) cs
    = Done (fields', next') ->
  exists added,
    fields' = fields ++ added
    /\ Forall (fun field => exists k id nx nx',
                 In (k, id) cs
                 /\ read (VInst id) (Some structure) nx = Done (Some field.2, nx'))
              added.
Proof.
  induction cs as [|[k id] cs IH]; intros fields next fields' next' H.
  - injection H as <- <-. exists []. by rewrite app_nil_r.
  - rewrite ofoldl_cons in H. apply obind_Done in H as ([fields1 next1] & Hstep & H).
    unfold readField in Hstep.
    apply obind_Done in Hstep as ([type nx] & Hread & Hstep). simpl in Hread.
    destruct (IH _ _ _ _ H) as (added & -> & Hadded).
    assert (Hadded' : Forall (fun field => exists k0 id0 nx0 nx',
                 In (k0, id0) ((k, id) :: cs)
                 /\ read (VInst id0) (Some structure) nx0
                    = Done (Some field.2, nx')) added).
    { eapply Forall_impl; [exact Hadded|]. simpl.
      intros field (k0 & id0 & nx0 & nx' & Hin & Hr). exists k0, id0, nx0, nx'.
      tauto. }
    destruct type as [type|]; injection Hstep as <- <-.
    + exists ((sint64 (k - front), type) :: added).
      rewrite <- app_assoc. split; [reflexivity|].
      constructor; [|exact Hadded']. exists k, id, next, nx. simpl. tauto.
    + exists added. tauto.
Qed.

(** What a successful [readObject] did. *)
Lemma readObject_inv fn fuel base parent next T next' :
  readObject fn fuel base parent next = Done (Some T, next') ->
  exists fuel' hasCast cs,
    fuel = S fuel'
    /\ analyzeObject fn base = Some (hasCast, cs, [])
    /\ ((cs = [] /\ T = ObjectStackObject next base)
        \/ (cs <> []
            /\ exists fields,
                 T = StructureStackObject next
                       ((if hasCast then [(0, ObjectStackObject (S next) base)]
                         else []) ++ fields)
                 /\ Forall (fun field => exists k id nx nx',
                              In (k, id) cs
                              /\ readObject fn fuel' (VInst id) (Some next) nx
                                 = Done (Some field.2, nx'))
                           fields)).
Proof.
  destruct fuel as [|fuel']; [discriminate|]. simpl. intros H.
  destruct (analyzeObject fn base) as [[[hasCast cs] vs]|] eqn:Han;
    [|discriminate].
  destruct (analyzeObject_Some _ _ _ _ _ Han) as (-> & _ & _).
  simpl in H. exists fuel', hasCast, cs. split; [reflexivity|].
  split; [reflexivity|].
  destruct cs as [|[front first] cs]; [left; split; [reflexivity|]; congruence|].
  right. split; [discriminate|].
  destruct (last ((front, first) :: cs)) as [[back lastInst]|] eqn:Hlast;
    [|by apply last_None in Hlast].
  destruct (negb _); [discriminate|].
  apply obind_Done in H as ([fields nx] & Hfold & H). injection H as <- <-.
  destruct hasCast; apply readFields_inv in Hfold as (added & -> & Hadded);
    by exists added.
Qed.

Lemma recorded_original fn base hasCast cs vs k id :
  analyzeObject fn base = Some (hasCast, cs, vs) -> In (k, id) cs ->
  original (length (instructions fn)) (VInst id).
Proof.
  intros Han Hin. apply analyzeObject_Some in Han as (_ & _ & Hfrom).
  destruct (Hfrom k id Hin) as (i & Hi & _).
  apply users_In in Hi as (_ & _ & Hlt). exact Hlt.
Qed.

(** The offset value of every leaf is the base read or an instruction of
    the function. *)
Lemma readObject_leaves_original fn fuel :
  forall base parent next T next',
  readObject fn fuel base parent next = Done (Some T, next') ->
  original (length (instructions fn)) base ->
  Forall (fun leaf => original (length (instructions fn)) leaf.2) (leaves T).
Proof.
  induction fuel as [|fuel IH]; intros base parent next T next' H Hbase;
    [discriminate|].
  apply readObject_inv in H as (fuel' & hasCast & cs & [= <-] & Han & Hshape).
  destruct Hshape as [[_ ->]|(_ & fields & -> & Hfields)].
  - by repeat constructor.
  - simpl. rewrite flat_map_app. apply Forall_app. split.
    + destruct hasCast; simpl; by repeat constructor.
    + induction Hfields as [|field fields Hfield _ IHf]; simpl; [constructor|].
      apply Forall_app. split; [|exact IHf].
      destruct Hfield as (k & id & nx & nx' & Hin & Hread).
      eapply IH; [exact Hread|]. by eapply recorded_original.
Qed.

(** ** The leaves that [representObject] records *)

Lemma linkFor_allObjects value frame :
  allObjects (linkFor value frame).2 = allObjects frame.
Proof. unfold linkFor. by destruct (linkMap frame !! value). Qed.

Lemma setParent_allObjects link newParent frame frame' :
  setParent link newParent frame = Done frame' ->
  allObjects frame' = allObjects frame.
Proof.
  unfold setParent. destruct (links frame !! link) as [g|]; [|discriminate].
  destruct (parent g); [discriminate|]. by intros [= <-].
Qed.

Lemma ofoldl_preserves {A B C} (f : A -> B -> Outcome A) (g : A -> C) l :
  (forall a x a', f a x = Done a' -> g a' = g a) ->
  forall a a', ofoldl f a l = Done a' -> g a' = g a.
Proof.
  intros Hf. induction l as [|x l IH]; intros a a' H.
  - by injection H as <-.
  - rewrite ofoldl_cons in H. apply obind_Done in H as (a1 & Hstep & H).
    rewrite (IH _ _ H). by eapply Hf.
Qed.

Lemma reduceStructField_allObjects dl typedAccesses parentLink index frame
    result frame' :
  reduceStructField dl typedAccesses parentLink index frame
    = Done (result, frame') ->
  allObjects frame' = allObjects frame.
Proof.
  unfold reduceStructField. intros H.
  apply obind_Done in H as ([[count resultType] gep] & _ & H).
  destruct (count =? 0); [discriminate|].
  destruct (count =? 1).
  - apply obind_Done in H as (frame1 & Hfold & H). injection H as _ <-.
    eapply (ofoldl_preserves _ allObjects); [|exact Hfold].
    intros a x a' Hstep. cbv beta in Hstep.
    pose proof (linkFor_allObjects (OverlappingTypedAccesses.object x) a) as Hl.
    destruct (linkFor (OverlappingTypedAccesses.object x) a) as [fieldLink a1].
    apply setParent_allObjects in Hstep. rewrite Hstep. exact Hl.
  - unfold createLink in H. simpl in H.
    apply obind_Done in H as (frame1 & Hparent & H).
    apply obind_Done in H as (frame2 & Hfold & H). injection H as _ <-.
    apply setParent_allObjects in Hparent. simpl in Hparent. rewrite <- Hparent.
    eapply (ofoldl_preserves _ allObjects) in Hfold; [exact Hfold|].
    intros a x a' Hstep. cbv beta in Hstep.
    destruct (gep !! _); [|discriminate].
    pose proof (linkFor_allObjects (OverlappingTypedAccesses.object x) a) as Hl.
    destruct (linkFor (OverlappingTypedAccesses.object x) a) as [fieldLink a1].
    apply setParent_allObjects in Hstep. rewrite Hstep. exact Hl.
Qed.

Lemma placeField_allObjects dl thisLink offset fieldObject fieldTypes
    typedAccesses frame state frame' :
  placeField dl thisLink offset fieldObject fieldTypes typedAccesses frame
    = Done (state, frame') ->
  allObjects frame' = allObjects frame.
Proof.
  unfold placeField. intros H.
  destruct (typeMap frame !! fieldObject); [|discriminate].
  destruct (OverlappingTypedAccesses.insert _ _ _ _ _); [by injection H as _ <-|].
  apply obind_Done in H as ([result frame1] & Hreduce & H).
  apply reduceStructField_allObjects in Hreduce.
  destruct result; by injection H as _ <-.
Qed.

Lemma closeStructure_allObjects dl self thisLink fieldTypes typedAccesses
    frame ok frame' :
  closeStructure dl self thisLink fieldTypes typedAccesses frame
    = Done (ok, frame') ->
  allObjects frame' = allObjects frame.
Proof.
  unfold closeStructure. intros H.
  apply obind_Done in H as ([types frame1] & Hlast & H).
  assert (Hframe1 : allObjects frame1 = allObjects frame).
  { destruct typedAccesses; [by injection Hlast as _ <-|].
    apply obind_Done in Hlast as ([result frame2] & Hreduce & Hlast).
    apply reduceStructField_allObjects in Hreduce. by injection Hlast as _ <-. }
  destruct types; [|by injection H as _ <-].
  destruct (typeMap frame1 !! self); [discriminate|]. by injection H as _ <-.
Qed.

(** A leaf is represented only if its offset value has a user, and it is
    then recorded behind the leaves recorded before. *)
Lemma representLeaf_true fn dl self offset frame frame' :
  representLeaf fn dl self offset frame = Done (true, frame') ->
  allObjects frame' = allObjects frame ++ [(self, offset)]
  /\ users fn offset <> [].
Proof.
  intros H. split.
  - unfold representLeaf in H. apply obind_Done in H as (types & _ & H).
    destruct (insertTypes dl self types []); [|discriminate].
    apply obind_Done in H as ([[count resultType] gep] & _ & H).
    destruct (negb (count =? 1)); [discriminate|].
    destruct (typeMap frame !! self); [discriminate|]. by injection H as <-.
  - intros Hnone. unfold representLeaf, getUnionTypes in H.
    rewrite Hnone in H. simpl in H. discriminate.
Qed.

Lemma representFields_true fn dl
    (represent : StackObject -> LlvmStackFrame -> Outcome (bool * LlvmStackFrame))
    thisLink fields :
  Forall (fun field => forall frame frame',
            represent field.2 frame = Done (true, frame') ->
            allObjects frame' = allObjects frame ++ leaves field.2
            /\ Forall (fun leaf => users fn leaf.2 <> []) (leaves field.2))
         fields ->
  forall fieldTypes typedAccesses frame state frame',
  representFields dl represent thisLink fields fieldTypes typedAccesses frame
    = Done (Some state, frame') ->
  allObjects frame' = allObjects frame ++ flat_map (fun field => leaves field.2) fields
  /\ Forall (fun leaf => users fn leaf.2 <> [])
            (flat_map (fun field => leaves field.2) fields).
Proof.
  induction 1 as [|field fields Hfield _ IH];
    intros fieldTypes typedAccesses frame state frame' H.
  - injection H as _ <-. simpl. rewrite app_nil_r. by split.
  - simpl in H. apply obind_Done in H as ([represented frame1] & Hrep & H).
    destruct represented; simpl in H; [|discriminate].
    apply obind_Done in H as ([placed frame2] & Hplace & H).
    destruct placed as [[fieldTypes' typedAccesses']|]; [|discriminate].
    destruct (Hfield _ _ Hrep) as [Hall1 Husers1].
    apply placeField_allObjects in Hplace.
    destruct (IH _ _ _ _ _ H) as [Hall2 Husers2].
    simpl. split; [|by apply Forall_app].
    by rewrite Hall2, Hplace, Hall1, <- app_assoc.
Qed.

Lemma representObject_true fn dl object :
  forall frame frame',
  representObject fn dl object frame = Done (true, frame') ->
  allObjects frame' = allObjects frame ++ leaves object
  /\ Forall (fun leaf => users fn leaf.2 <> []) (leaves object).
Proof.
  induction object as [self offset|self fields IH] using StackObject_nested_ind;
    intros frame frame' H.
  - simpl in H. apply representLeaf_true in H as [Hall Husers].
    split; [exact Hall | by repeat constructor].
  - simpl in H.
    pose proof (linkFor_allObjects self frame) as Hlink.
    destruct (linkFor self frame) as [thisLink frame0]. simpl in Hlink.
    apply obind_Done in H as ([state frame1] & Hfields & H).
    destruct state as [[fieldTypes typedAccesses]|]; [|discriminate].
    apply closeStructure_allObjects in H.
    destruct (representFields_true fn dl _ _ _ IH _ _ _ _ _ Hfields)
      as [Hall Husers].
    split; [|exact Husers]. simpl. by rewrite H, Hall, Hlink.
Qed.

(** On success the frame lists the leaves of the root, in order, and each
    of them has a user. *)
Lemma representRoot_Some fn dl root frame :
  representRoot fn dl root = Done (Some frame) ->
  allObjects frame = leaves root
  /\ Forall (fun leaf => users fn leaf.2 <> []) (leaves root).
Proof.
  unfold representRoot. intros H.
  apply obind_Done in H as ([represented frame1] & Hrep & H).
  destruct represented; [|discriminate].
  destruct (getNaiveType frame1 root); [|discriminate].
  pose proof (linkFor_allObjects (addressOf root) frame1) as Hlink.
  destruct (linkFor (addressOf root) frame1) as [link frame2]. simpl in Hlink.
  injection H as <-. apply representObject_true in Hrep as [Hall Husers].
  split; [|exact Husers]. simpl. by rewrite Hlink, Hall.
Qed.

(** ** What the rewriting loop emits *)

Lemma Extends_refl n fn : Extends n fn fn.
Proof.
  exists []. rewrite app_nil_r. repeat split; auto.
Qed.

Lemma Extends_trans n fn1 fn2 fn3 :
  Extends n fn1 fn2 -> Extends n fn2 fn3 -> Extends n fn1 fn3.
Proof.
  intros (new1 & H1 & F1 & A1 & S1) (new2 & H2 & F2 & A2 & S2).
  exists (new1 ++ new2). rewrite H2, H1, <- app_assoc.
  repeat split; [|congruence|congruence]. apply Forall_app. by split.
Qed.

Lemma Extends_length n fn fn' :
  Extends n fn fn' ->
  (length (instructions fn) <= length (instructions fn'))%nat.
Proof. intros (new & -> & _). rewrite length_app. lia. Qed.

Lemma createInst_Extends n i insertBefore fn v fn' :
  createInst i insertBefore fn = Done (v, fn') ->
  Forall (fresh n) (operands i) ->
  Extends n fn fn' /\ v = VInst (length (instructions fn)).
Proof.
  unfold createInst. intros H Hops.
  destruct insertBefore as [pos|]; [destruct (isPlaced fn pos); [|discriminate]|];
    injection H as <- <-; (split; [|reflexivity]);
    exists [i]; simpl; repeat split; auto.
Qed.

Lemma createGEP_Extends n pointer idxList insertBefore fn v fn' :
  createGEP pointer idxList insertBefore fn = Done (v, fn') ->
  fresh n pointer -> Forall (fresh n) idxList ->
  Extends n fn fn' /\ v = VInst (length (instructions fn)).
Proof.
  unfold createGEP. intros H Hp Hidx.
  destruct (getIndexedType _ _); [|discriminate].
  eapply createInst_Extends; [exact H|]. simpl. by constructor.
Qed.

Lemma followLink_Extends n frame insertionPoint result gepIndices fn link
    result' gepIndices' fn' :
  followLink frame insertionPoint (result, gepIndices, fn) link
    = Done (result', gepIndices', fn') ->
  (n <= length (instructions fn))%nat ->
  fresh n result -> Forall (fresh n) gepIndices ->
  Extends n fn fn' /\ fresh n result' /\ Forall (fresh n) gepIndices'.
Proof.
  unfold followLink. intros H Hlen Hres Hidx.
  destruct (links frame !! link) as [g|]; [|discriminate].
  destruct (index g) as [idx|]; [|discriminate].
  assert (Hidx' : Forall (fresh n) (gepIndices ++ [VConst idx])).
  { apply Forall_app. split; [exact Hidx | by repeat constructor]. }
  destruct (decide (expectedType g = _)) as [_|_].
  - injection H as <- <- <-. split; [apply Extends_refl | by split].
  - destruct (createGEP result _ insertionPoint fn) as [[gep fn1]|] eqn:Hgep;
      simpl in H; [|discriminate].
    destruct (createGEP_Extends n _ _ _ _ _ _ Hgep Hres Hidx') as [Hext1 ->].
    destruct (expectedType g) as [expected|]; [|discriminate].
    destruct (createInst _ insertionPoint fn1) as [[cast fn2]|] eqn:Hcast;
      simpl in H; [|discriminate]. injection H as <- <- <-.
    assert (Hops : Forall (fresh n) [VInst (length (instructions fn))]).
    { repeat constructor. simpl. exact Hlen. }
    destruct (createInst_Extends n _ _ _ _ _ Hcast Hops) as [Hext2 ->].
    split; [by eapply Extends_trans|]. split.
    + simpl. apply Extends_length in Hext1. lia.
    + by repeat constructor.
Qed.

Lemma followLinks_Extends n frame insertionPoint path :
  forall result gepIndices fn result' gepIndices' fn',
  ofoldl (followLink frame insertionPoint) (result, gepIndices, fn) path
    = Done (result', gepIndices', fn') ->
  (n <= length (instructions fn))%nat ->
  fresh n result -> Forall (fresh n) gepIndices ->
  Extends n fn fn' /\ fresh n result' /\ Forall (fresh n) gepIndices'.
Proof.
  induction path as [|link path IH];
    intros result gepIndices fn r' g' fn' H Hlen Hres Hidx.
  - injection H as <- <- <-. split; [apply Extends_refl | by split].
  - rewrite ofoldl_cons in H.
    apply obind_Done in H as ([[r1 g1] fn1] & Hstep & H).
    destruct (followLink_Extends n _ _ _ _ _ _ _ _ _ Hstep Hlen Hres Hidx)
      as (Hext1 & Hr1 & Hg1).
    assert (Hlen1 : (n <= length (instructions fn1))%nat).
    { apply Extends_length in Hext1. lia. }
    destruct (IH _ _ _ _ _ _ H Hlen1 Hr1 Hg1) as (Hext2 & Hr' & Hg').
    split; [by eapply Extends_trans | by split].
Qed.

Lemma getPointerToObject_Extends n frame object basePointer insertionPoint fn
    pointer fn' :
  getPointerToObject frame object basePointer insertionPoint fn
    = Done (pointer, fn') ->
  (n <= length (instructions fn))%nat -> fresh n basePointer ->
  Extends n fn fn' /\ forall p, pointer = Some p -> fresh n p.
Proof.
  unfold getPointerToObject. intros H Hlen Hbase.
  destruct (linkMap frame !! object) as [link|].
  - destruct (toVector _ _ link []) as [path|]; simpl in H; [|discriminate].
    destruct (ofoldl _ _ path) as [[[result gepIndices] fn1]|] eqn:Hfold;
      simpl in H; [|discriminate].
    destruct (followLinks_Extends n _ _ _ _ _ _ _ _ _ Hfold Hlen Hbase
                ltac:(constructor)) as (Hext1 & Hres & Hidx).
    destruct (1 <? length gepIndices)%nat.
    + destruct (createGEP result gepIndices insertionPoint fn1)
        as [[gep fn2]|] eqn:Hgep; simpl in H; [|discriminate].
      injection H as <- <-.
      destruct (createGEP_Extends n _ _ _ _ _ _ Hgep Hres Hidx) as [Hext2 ->].
      split; [by eapply Extends_trans|].
      intros p [= <-]. simpl. apply Extends_length in Hext1. lia.
    + injection H as <- <-. split; [exact Hext1|]. by intros p [= <-].
  - injection H as <- <-. split; [apply Extends_refl | discriminate].
Qed.

(** One round of the loop: instructions are added, then every use of the
    leaf's offset value is replaced by the last of them. *)
Lemma rewriteObject_inv n frame stackFrame fn object fn' :
  rewriteObject frame stackFrame fn object = Done fn' ->
  (n <= length (instructions fn))%nat -> fresh n stackFrame ->
  exists fn1 p,
    Extends n fn fn1 /\ (n <= p)%nat
    /\ fn' = replaceAllUsesWith object.2 (VInst p) fn1.
Proof.
  unfold rewriteObject. intros H Hlen Hsf.
  destruct (getPointerToObject frame object.1 stackFrame _ fn)
    as [[pointer fn1]|] eqn:Hptr; simpl in H; [|discriminate].
  destruct (getPointerToObject_Extends n _ _ _ _ _ _ _ Hptr Hlen Hsf)
    as [Hext1 Hfresh].
  destruct pointer as [pointer|]; [|discriminate].
  destruct (createInst _ _ fn1) as [[ptr2int fn2]|] eqn:Hcast; [|discriminate].
  simpl in H. injection H as <-.
  assert (Hops : Forall (fresh n) [pointer]) by (repeat constructor; auto).
  destruct (createInst_Extends n _ _ _ _ _ Hcast Hops) as [Hext2 ->].
  exists fn2, (length (instructions fn1)).
  split; [by eapply Extends_trans|]. split; [|reflexivity].
  apply Extends_length in Hext1. lia.
Qed.

(** ** The invariant of the rewriting loop *)

Lemma original_not_operand n v (new : list Instruction) :
  original n v ->
  Forall (fun i => Forall (fresh n) (operands i)) new ->
  Forall (fun i => ~ In v (operands i)) new.
Proof.
  intros Hv Hnew. eapply Forall_impl; [exact Hnew|].
  intros i Hi Hin. simpl in Hi. rewrite List.Forall_forall in Hi.
  by apply (original_not_fresh n v Hv), Hi.
Qed.

Lemma Rewritten_init fn :
  Rewritten (length (instructions fn)) fn fn [].
Proof. split; auto; intros v []. Qed.

Lemma Rewritten_extends n fn0 fn fn1 processed :
  Rewritten n fn0 fn processed -> Extends n fn fn1 ->
  Rewritten n fn0 fn1 processed.
Proof.
  intros [Hlen Hargs Hsp Horig Hproc Hids Han] Hext.
  pose proof (Extends_length _ _ _ Hext) as Hlen1.
  destruct Hext as (new & Hnew & Hfresh & Hargs1 & Hsp1).
  split; try congruence; try lia; try exact Horig.
  - intros v Hv. rewrite <- (Hproc v Hv).
    apply (users_extended fn fn1 new); [exact Hnew|].
    by apply (original_not_operand n), Hfresh; apply Horig.
  - intros b Hb Hnot. rewrite <- (Hids b Hb Hnot). unfold userIds. f_equal.
    apply (users_extended fn fn1 new); [exact Hnew|].
    by apply (original_not_operand n).
  - intros b Hb Hnot. rewrite <- (Han b Hb Hnot).
    apply (analyzeObject_extended fn fn1 new); [exact Hnew|].
    by apply (original_not_operand n).
Qed.

Lemma original_ne_fresh_inst n v p : original n v -> (n <= p)%nat -> v <> VInst p.
Proof. intros Hv Hp ->. simpl in Hv. lia. Qed.

Lemma original_not_constant n v : original n v -> ~ isConstantInt v.
Proof. destruct v; simpl; tauto. Qed.

Lemma Rewritten_replace n fn0 fn processed v p :
  Rewritten n fn0 fn processed -> original n v -> (n <= p)%nat ->
  Rewritten n fn0 (replaceAllUsesWith v (VInst p) fn) (v :: processed).
Proof.
  intros [Hlen Hargs Hsp Horig Hproc Hids Han] Hv Hp.
  pose proof (original_ne_fresh_inst n v p Hv Hp) as Hne.
  split; simpl; auto.
  - by rewrite length_map.
  - intros w [<-|Hw]; auto.
  - intros w [<-|Hw]; [by apply users_replaced|].
    destruct (decide (w = v)) as [->|Hwv]; [by apply users_replaced|].
    rewrite users_replace_other, (Hproc w Hw); auto.
    apply (original_ne_fresh_inst n); auto.
  - intros b Hb Hnot. rewrite <- (Hids b Hb) by tauto. unfold userIds.
    rewrite users_replace_other; [|intros ->; tauto
                                   |by apply (original_ne_fresh_inst n)].
    rewrite map_map. reflexivity.
  - intros b Hb Hnot. rewrite <- (Han b Hb) by tauto.
    apply analyzeObject_replace; [intros ->; tauto | | |].
    + by apply (original_ne_fresh_inst n).
    + by apply (original_not_constant n).
    + simpl. tauto.
Qed.

(** The loop of [runOnFunction] keeps the invariant and processes the
    offset value of every object it is given. *)
Lemma Rewritten_loop n fn0 frame stackFrame objects :
  fresh n stackFrame ->
  forall fn processed fn',
  Rewritten n fn0 fn processed ->
  Forall (fun object => original n object.2) objects ->
  ofoldl (rewriteObject frame stackFrame) fn objects = Done fn' ->
  Rewritten n fn0 fn' (rev (map snd objects) ++ processed).
Proof.
  intros Hsf. induction objects as [|object objects IH];
    intros fn processed fn' Hinv Horig H.
  - injection H as <-. exact Hinv.
  - rewrite ofoldl_cons in H. apply obind_Done in H as (fn1 & Hstep & H).
    apply Forall_cons in Horig as [Ho Horig].
    destruct (rewriteObject_inv n _ _ _ _ _ Hstep (rw_length _ _ _ _ Hinv) Hsf)
      as (fn2 & p & Hext & Hp & ->).
    simpl. rewrite <- app_assoc. simpl.
    apply (IH _ _ _ ltac:(eapply Rewritten_replace;
                          [eapply Rewritten_extends|..]; eassumption)
              Horig H).
Qed.

(** ** A successful run of the pass *)

Lemma getStackPointer_original fn sp n :
  getStackPointer fn = Done (Some sp) -> original n sp.
Proof.
  unfold getStackPointer, getStackPointerArgument.
  destruct (stackPointerArgument fn); [|discriminate].
  destruct (_ <? _)%nat; [|discriminate]. by intros [= <-].
Qed.

(** What [runOnFunction] did when it reports a change. *)
Lemma runOnFunction_true dl fn fn' :
  runOnFunction dl fn = Done (true, fn') ->
  exists sp root next frame fnA,
    getStackPointer fn = Done (Some sp)
    /\ readObject fn (S (length (instructions fn))) sp None 0
       = Done (Some root, next)
    /\ (exists self fields, root = StructureStackObject self fields)
    /\ representRoot fn dl root = Done (Some frame)
    /\ Extends (length (instructions fn)) fn fnA
    /\ ofoldl (rewriteObject frame (VInst (length (instructions fn)))) fnA
              (allObjects frame) = Done fn'.
Proof.
  unfold runOnFunction. intros H.
  apply obind_Done in H as (sp & Hsp & H). destruct sp as [sp|]; [|discriminate].
  apply obind_Done in H as ([root next] & Hread & H).
  destruct root as [[self offset|self fields]|]; [discriminate| |discriminate].
  apply obind_Done in H as (frame & Hrep & H).
  destruct frame as [frame|]; [|discriminate].
  destruct (getFirstInsertionPt fn) as [allocaInsert|]; [|discriminate].
  destruct (getNaiveType frame _) as [naiveType|]; [|discriminate].
  apply obind_Done in H as ([stackFrame fnA] & Halloca & H).
  apply obind_Done in H as (fnZ & Hloop & H). injection H as <-.
  apply (createInst_Extends (length (instructions fn))) in Halloca as [Hext ->];
    [|by repeat constructor].
  exists sp, (StructureStackObject self fields), next, frame,
         (setStackFrame (length (instructions fn)) fnA).
  repeat split; eauto.
Qed.

(** A run that reports no change returns the function it was given. *)
Lemma runOnFunction_false dl fn fn' :
  runOnFunction dl fn = Done (false, fn') -> fn' = fn.
Proof.
  unfold runOnFunction. intros H.
  apply obind_Done in H as (sp & Hsp & H).
  destruct sp as [sp|]; [|by injection H as <-].
  apply obind_Done in H as ([root next] & Hread & H).
  destruct root as [[self offset|self fields]|];
    [discriminate| |by injection H as <-].
  apply obind_Done in H as (frame & Hrep & H).
  destruct frame as [frame|]; [|by injection H as <-].
  destruct (getFirstInsertionPt fn) as [allocaInsert|]; [|discriminate].
  destruct (getNaiveType frame _) as [naiveType|]; [|discriminate].
  apply obind_Done in H as ([stackFrame fnA] & Halloca & H).
  apply obind_Done in H as (fnZ & Hloop & H). discriminate.
Qed.

(** A successful run leaves the function in the state the rewriting loop
    establishes for the leaves of the tree it read. *)
Lemma runOnFunction_Rewritten dl fn fn' :
  runOnFunction dl fn = Done (true, fn') ->
  exists sp root next,
    getStackPointer fn = Done (Some sp)
    /\ readObject fn (S (length (instructions fn))) sp None 0
       = Done (Some root, next)
    /\ Rewritten (length (instructions fn)) fn fn' (rev (map snd (leaves root))).
Proof.
  intros H.
  apply runOnFunction_true in H
    as (sp & root & next & frame & fnA & Hsp & Hread & _ & Hrep & Hext & Hloop).
  exists sp, root, next. split; [exact Hsp | split; [exact Hread|]].
  apply representRoot_Some in Hrep as [Hall _]. rewrite Hall in Hloop.
  rewrite <- (app_nil_r (rev _)).
  eapply Rewritten_loop; [| |  | exact Hloop].
  - simpl. lia.
  - eapply Rewritten_extends; [apply Rewritten_init | exact Hext].
  - eapply readObject_leaves_original; [exact Hread|].
    by eapply getStackPointer_original.
Qed.

(** C8.  After a successful run, the offset value of every leaf of the tree
    read from the stack pointer has no user left at all. *)
Theorem replaced_offsets_have_no_users dl fn fn' :
  runOnFunction dl fn = Done (true, fn') ->
  exists sp root next,
    getStackPointer fn = Done (Some sp)
    /\ readObject fn (S (length (instructions fn))) sp None 0
       = Done (Some root, next)
    /\ forall leaf, In leaf (leaves root) -> users fn' leaf.2 = [].
Proof.
  intros H.
  apply runOnFunction_Rewritten in H as (sp & root & next & Hsp & Hread & Hinv).
  exists sp, root, next. split; [exact Hsp | split; [exact Hread|]].
  intros leaf Hleaf. apply (rw_processed _ _ _ _ Hinv).
  apply in_rev. rewrite rev_involutive. by apply in_map.
Qed.

Lemma replaced_offsets_witness :
  exists sp root next,
    getStackPointer fn_overlap = Done (Some sp)
    /\ readObject fn_overlap (S (length (instructions fn_overlap))) sp None 0
       = Done (Some root, next)
    /\ forall leaf, In leaf (leaves root) ->
                    users fn_overlap_rewritten leaf.2 = [].
Proof.
  apply (replaced_offsets_have_no_users dl64 fn_overlap fn_overlap_rewritten).
  vm_compute. reflexivity.
Defined.

(** ** A stack pointer without uses *)

(** C2.  When the stack-pointer argument has no user, [readObject] returns
    a leaf for it, not a structure, and the checked cast to
    [StructureStackObject] in [runOnFunction] fails: the pass stops there
    instead of returning [false]. *)
Theorem unused_stack_pointer_fails_cast dl fn sp :
  getStackPointer fn = Done (Some sp) ->
  users fn sp = [] ->
  readObject fn (S (length (instructions fn))) sp None 0
    = Done (Some (ObjectStackObject 0 sp), 1%nat)
  /\ runOnFunction dl fn = Stopped AssertionFailure.
Proof.
  intros Hsp Hunused.
  assert (Hread : readObject fn (S (length (instructions fn))) sp None 0
                  = Done (Some (ObjectStackObject 0 sp), 1%nat)).
  { simpl. unfold analyzeObject. rewrite Hunused. reflexivity. }
  split; [exact Hread|].
  unfold runOnFunction. rewrite Hsp. cbn [obind]. rewrite Hread. reflexivity.
Qed.

Lemma unused_stack_pointer_witness :
  readObject fn_unused (S (length (instructions fn_unused))) (VArg 0) None 0
    = Done (Some (ObjectStackObject 0 (VArg 0)), 1%nat)
  /\ runOnFunction dl64 fn_unused = Stopped AssertionFailure.
Proof.
  apply (unused_stack_pointer_fails_cast dl64 fn_unused (VArg 0));
    reflexivity.
Defined.

(** ** A leaf whose offset value is not an instruction *)

Lemma Unplaced_refl fn : Unplaced fn fn.
Proof. split; [reflexivity | exists []; by rewrite app_nil_r]. Qed.

Lemma Unplaced_trans fn1 fn2 fn3 :
  Unplaced fn1 fn2 -> Unplaced fn2 fn3 -> Unplaced fn1 fn3.
Proof.
  intros [B1 (new1 & H1)] [B2 (new2 & H2)]. split; [congruence|].
  exists (new1 ++ new2). by rewrite H2, H1, <- app_assoc.
Qed.

Lemma createInst_unplaced i fn v fn' :
  createInst i None fn = Done (v, fn') ->
  Unplaced fn fn' /\ v = VInst (length (instructions fn))
  /\ instructions fn' = instructions fn ++ [i].
Proof.
  unfold createInst. intros [= <- <-]. repeat split. by exists [i].
Qed.

Lemma createGEP_unplaced pointer idxList fn v fn' :
  createGEP pointer idxList None fn = Done (v, fn') -> Unplaced fn fn'.
Proof.
  unfold createGEP. destruct (getIndexedType _ _); [|discriminate].
  intros H. by apply createInst_unplaced in H as [H _].
Qed.

Lemma followLinks_unplaced frame path :
  forall result gepIndices fn result' gepIndices' fn',
  ofoldl (followLink frame None) (result, gepIndices, fn) path
    = Done (result', gepIndices', fn') ->
  Unplaced fn fn'.
Proof.
  induction path as [|link path IH]; intros result gepIndices fn r' g' fn' H.
  - injection H as _ _ <-. apply Unplaced_refl.
  - rewrite ofoldl_cons in H.
    apply obind_Done in H as ([[r1 g1] fn1] & Hstep & H).
    eapply Unplaced_trans; [|by eapply IH]. clear H IH.
    unfold followLink in Hstep.
    destruct (links frame !! link) as [g|]; [|discriminate].
    destruct (index g); [|discriminate].
    destruct (decide _); [injection Hstep as _ _ <-; apply Unplaced_refl|].
    apply obind_Done in Hstep as ([gep fn2] & Hgep & H).
    destruct (expectedType g); [|discriminate].
    apply obind_Done in H as ([cast fn3] & Hcast & H). injection H as _ _ <-.
    apply createGEP_unplaced in Hgep. apply createInst_unplaced in Hcast as [Hcast _].
    by eapply Unplaced_trans.
Qed.

Lemma getPointerToObject_unplaced frame object basePointer fn pointer fn' :
  getPointerToObject frame object basePointer None fn = Done (pointer, fn') ->
  Unplaced fn fn'.
Proof.
  unfold getPointerToObject. intros H.
  destruct (linkMap frame !! object);
    [|injection H as _ <-; apply Unplaced_refl].
  apply obind_Done in H as (path & _ & H).
  apply obind_Done in H as ([[result gepIndices] fn1] & Hfold & H).
  apply followLinks_unplaced in Hfold.
  destruct (1 <? length gepIndices)%nat; [|by injection H as _ <-].
  apply obind_Done in H as ([gep fn2] & Hgep & H). injection H as _ <-.
  apply createGEP_unplaced in Hgep. by eapply Unplaced_trans.
Qed.

Lemma isPlaced_false fn id :
  wellPlaced fn -> (length (instructions fn) <= id)%nat -> isPlaced fn id = false.
Proof.
  unfold wellPlaced, isPlaced. intros Hwell Hid.
  apply not_true_iff_false. intros Hin.
  apply existsb_exists in Hin as (block & Hblock & Hin).
  apply existsb_exists in Hin as (id' & Hid' & Heq).
  apply Nat.eqb_eq in Heq as <-.
  rewrite List.Forall_forall in Hwell. specialize (Hwell block Hblock).
  rewrite List.Forall_forall in Hwell. specialize (Hwell id Hid'). lia.
Qed.

(** C6.  For a leaf whose offset value is not an instruction the insertion
    point is null: the round of the loop adds the pointer path and the
    pointer-to-integer cast to the function's instructions, puts none of
    them in a block (no block changes, so none is before the allocation),
    and still makes every user of the offset value use the cast. *)
Theorem non_instruction_leaf_is_unplaced frame stackFrame fn object fn' :
  (forall id, object.2 <> VInst id) ->
  wellPlaced fn ->
  rewriteObject frame stackFrame fn object = Done fn' ->
  blocks fn' = blocks fn
  /\ (length (instructions fn) < length (instructions fn'))%nat
  /\ (forall id, (length (instructions fn) <= id)%nat -> isPlaced fn' id = false)
  /\ exists ptr2int,
       (length (instructions fn) <= ptr2int)%nat
       /\ (opcode <$> getInst fn' ptr2int) = Some (CastInst PtrToInt)
       /\ users fn' object.2 = []
       /\ forall id i, In (id, i) (users fn object.2) ->
            exists i', getInst fn' id = Some i'
                       /\ In (VInst ptr2int) (operands i').
Proof.
  intros Hnot Hwell H. unfold rewriteObject in H.
  assert (Hip : match object.2 with VInst id => Some id | _ => None end = None).
  { destruct object.2; try reflexivity. by destruct (Hnot id). }
  rewrite Hip in H. clear Hip.
  apply obind_Done in H as ([pointer fn1] & Hptr & H).
  destruct pointer as [pointer|]; [|discriminate].
  apply obind_Done in H as ([ptr2int fn2] & Hcast & H). injection H as <-.
  apply getPointerToObject_unplaced in Hptr as [Hb1 (new & Hnew)].
  apply createInst_unplaced in Hcast as ([Hb2 _] & -> & Hinsts2).
  assert (Hlen1 : (length (instructions fn) <= length (instructions fn1))%nat).
  { rewrite Hnew, length_app. lia. }
  split; [simpl; congruence|]. split.
  { simpl. rewrite length_map, Hinsts2, length_app. simpl. lia. }
  split.
  { intros id Hid. unfold isPlaced. simpl. rewrite Hb2, Hb1.
    by apply isPlaced_false. }
  exists (length (instructions fn1)). split; [exact Hlen1|]. split.
  { unfold getInst. simpl. rewrite list_lookup_fmap, Hinsts2.
    rewrite lookup_app_r, Nat.sub_diag by lia. reflexivity. }
  split; [apply users_replaced, Hnot|].
  intros id i Hin. apply users_In in Hin as (Hget & Hop & Hlt).
  exists (replaceOperand object.2 (VInst (length (instructions fn1))) i).
  split.
  - unfold getInst in *. simpl. rewrite list_lookup_fmap, Hinsts2, Hnew.
    rewrite <- app_assoc, lookup_app_l by exact Hlt. by rewrite Hget.
  - simpl. apply in_map_iff. exists object.2. split; [|exact Hop].
    by destruct (decide (object.2 = object.2)).
Qed.

Lemma non_instruction_leaf_witness :
  blocks fn_implicit_first_leaf = blocks fn_implicit_allocated
  /\ (length (instructions fn_implicit_allocated)
      < length (instructions fn_implicit_first_leaf))%nat
  /\ (forall id, (length (instructions fn_implicit_allocated) <= id)%nat ->
                 isPlaced fn_implicit_first_leaf id = false)
  /\ exists ptr2int,
       (length (instructions fn_implicit_allocated) <= ptr2int)%nat
       /\ (opcode <$> getInst fn_implicit_first_leaf ptr2int)
          = Some (CastInst PtrToInt)
       /\ users fn_implicit_first_leaf (VArg 0) = []
       /\ forall id i, In (id, i) (users fn_implicit_allocated (VArg 0)) ->
            exists i', getInst fn_implicit_first_leaf id = Some i'
                       /\ In (VInst ptr2int) (operands i').
Proof.
  apply (non_instruction_leaf_is_unplaced frame_implicit (VInst 6)
           fn_implicit_allocated (1%nat, VArg 0) fn_implicit_first_leaf).
  - intros id. discriminate.
  - repeat constructor.
  - vm_compute. reflexivity.
Defined.

(** ** Two additions of the same constant *)




Lemma users_same_instruction fn v w id i j :
  In (id, i) (users fn v) -> In (id, j) (users fn w) -> i = j.
Proof.
  intros Hi Hj. apply users_In in Hi as (Hi & _). apply users_In in Hj as (Hj & _).
  congruence.
Qed.

(** An addition of two operands adds a constant to one base only. *)
Lemma add_base_unique i b1 b2 c1 c2 :
  length (operands i) = 2%nat ->
  In b1 (operands i) -> In b2 (operands i) ->
  addsConstant b1 c1 i -> addsConstant b2 c2 i ->
  ~ isConstantInt b2 -> b1 = b2.
Proof.
  intros Hlen H1 H2 (_ & k1 & Hr1 & _) (_ & k2 & Hr2 & _) Hnc.
  unfold rightOperand in *.
  destruct (operands i) as [|o0 [|o1 [|]]]; try discriminate.
  simpl in *.
  destruct (decide (Some o0 = Some b1)) as [E1|E1];
    destruct (decide (Some o0 = Some b2)) as [E2|E2]; simpl in *;
    simplify_eq; try reflexivity;
    destruct H1 as [?|[?|[]]]; destruct H2 as [?|[?|[]]]; simplify_eq;
    try reflexivity; try (by destruct Hnc); congruence.
Qed.





(** ** A second run *)

Lemma readFields_blocked fn read structure front cs k0 id0 :
  In (k0, id0) cs ->
  (forall parent next, blocked fn (read (VInst id0) parent next)) ->
  forall fields next,
  match ofoldl (readField read structure front) (fields, next) cs with
  | Stopped _ => True
  | Done (fields', _) => Exists (fun field => hasUnusedLeaf fn field.2) fields'
  end.
Proof.
  intros Hin Hblocked. induction cs as [|[k id] cs IH]; [destruct Hin|].
  intros fields next. rewrite ofoldl_cons. unfold readField at 1. simpl.
  destruct Hin as [[= -> ->]|Hin].
  - specialize (Hblocked (Some structure) next).
    destruct (read (VInst id0) (Some structure) next) as [[[T|] nx]|]; simpl;
      [|destruct Hblocked|exact I].
    destruct (ofoldl _ _ cs) as [[fields' nx']|] eqn:Hfold; [|exact I].
    apply readFields_inv in Hfold as (added & -> & _).
    apply Exists_app. left. apply Exists_app. right. by constructor.
  - destruct (read (VInst id) (Some structure) next) as [[[T|] nx]|]; simpl;
      [apply IH | apply IH | exact I]; exact Hin.
Qed.

Lemma flat_map_leaves_nonempty (fields : list (Z * StackObject)) :
  flat_map (fun field => leaves field.2) fields <> [] ->
  exists field, In field fields /\ leaves field.2 <> [].
Proof.
  induction fields as [|field fields IH]; simpl; [congruence|].
  destruct (leaves field.2) as [|leaf rest] eqn:Hleaves.
  - intros H. destruct (IH H) as (f & Hf & Hne). exists f. tauto.
  - intros _. exists field. split; [by left | congruence].
Qed.

(** Where the first run found a leaf below [base], a read of [base] in the
    rewritten function is blocked. *)
Lemma readObject_blocked fn fn' (LV : list Value) :
  (forall v, In v LV -> users fn' v = []) ->
  (forall b, original (length (instructions fn)) b -> ~ In b LV ->
             analyzeObject fn' b = analyzeObject fn b) ->
  forall fuel base parent next T next',
  readObject fn fuel base parent next = Done (Some T, next') ->
  original (length (instructions fn)) base ->
  leaves T <> [] ->
  (forall leaf, In leaf (leaves T) -> In leaf.2 LV) ->
  forall fuel2 parent2 next2,
  blocked fn' (readObject fn' fuel2 base parent2 next2).
Proof.
  intros Hunused Hsame.
  induction fuel as [|fuel IH];
    intros base parent next T next' Hread Hbase Hleaves HLV fuel2 parent2 next2;
    [discriminate|].
  destruct fuel2 as [|fuel2]; [exact I|].
  destruct (in_dec Value_eq_dec base LV) as [Hin|Hnot].
  - simpl. unfold analyzeObject. rewrite (Hunused base Hin). simpl.
    constructor. simpl. by apply Hunused.
  - pose proof (Hsame base Hbase Hnot) as Han'.
    apply readObject_inv in Hread
      as (fuel' & hasCast & cs & [= <-] & Han & Hshape).
    destruct Hshape as [[_ ->]|(Hcs & fields & -> & Hfields)].
    { destruct Hnot. apply (HLV (next, base)). by left. }
    destruct hasCast.
    { destruct Hnot. apply (HLV (S next, base)). simpl. by left. }
    simpl in Hleaves, HLV.
    destruct (flat_map_leaves_nonempty _ Hleaves) as (field & Hfield & Hne).
    rewrite List.Forall_forall in Hfields.
    destruct (Hfields field Hfield) as (k & id & nx & nx' & Hk & Hchild).
    assert (Hblocked : forall parent next,
              blocked fn' (readObject fn' fuel2 (VInst id) parent next)).
    { intros p n. eapply IH; [exact Hchild | | exact Hne |].
      - by eapply recorded_original.
      - intros leaf Hleaf. apply HLV. apply in_flat_map. by exists field. }
    simpl. rewrite Han', Han. simpl.
    destruct cs as [|[front first] cs]; [congruence|].
    destruct (last ((front, first) :: cs)) as [[back lastInst]|] eqn:Hlast;
      [|by apply last_None in Hlast].
    destruct (negb _); [exact I|].
    pose proof (readFields_blocked fn' (readObject fn' fuel2) next2 front
                  _ k id Hk Hblocked [] (S next2)) as Hfold.
    destruct (ofoldl _ _ _) as [[fields2 nx2]|]; [|exact I]. simpl.
    unfold hasUnusedLeaf. simpl. apply List.Exists_exists in Hfold
      as (field2 & Hfield2 & Hbad).
    unfold hasUnusedLeaf in Hbad. apply List.Exists_exists in Hbad as (leaf & Hleaf & Hu).
    apply List.Exists_exists. exists leaf. split; [|exact Hu].
    apply in_flat_map. by exists field2.
Qed.

Lemma getStackPointer_same fn fn' :
  args fn' = args fn -> stackPointerArgument fn' = stackPointerArgument fn ->
  getStackPointer fn' = getStackPointer fn.
Proof. unfold getStackPointer, getStackPointerArgument. by intros -> ->. Qed.

(** ** The frame of a tree cut off *)

Lemma representLeaf_unused fn dl self offset frame :
  users fn offset = [] ->
  representLeaf fn dl self offset frame = Stopped AssertionFailure.
Proof.
  intros Hnone. unfold representLeaf, getUnionTypes. rewrite Hnone. reflexivity.
Qed.

(** The loop over the fields of a tree cut off: as before while the fields
    have no leaf, and stopped at the first leaf. *)
Lemma representFields_cut fn fn' dl thisLink fields2 :
  Forall (fun field =>
            forall T1 frame frame1,
              cutAt fn' T1 field.2 ->
              representObject fn dl T1 frame = Done (true, frame1) ->
              representObject fn' dl field.2 frame
              = match leaves field.2 with
                | [] => Done (true, frame1)
                | _ => Stopped AssertionFailure
                end) fields2 ->
  forall fields1 fieldTypes typedAccesses frame state frame1,
  cutFields (cutAt fn') fields1 fields2 ->
  representFields dl (representObject fn dl) thisLink fields1 fieldTypes
                  typedAccesses frame = Done (Some state, frame1) ->
  representFields dl (representObject fn' dl) thisLink fields2 fieldTypes
                  typedAccesses frame
  = match flat_map (fun field => leaves field.2) fields2 with
    | [] => Done (Some state, frame1)
    | _ => Stopped AssertionFailure
    end.
Proof.
  induction 1 as [|f2 rest2 Hf2 _ IH];
    intros fields1 fieldTypes typedAccesses frame state frame1 Hcut H.
  - destruct fields1; [exact H | destruct Hcut].
  - destruct fields1 as [|f1 rest1]; [destruct Hcut|].
    destruct Hcut as (Hk & HR & Hrest). simpl in H.
    apply obind_Done in H as ([represented frameA] & Hrep & H).
    destruct represented; simpl in H; [|discriminate].
    apply obind_Done in H as ([placed frameB] & Hplace & H).
    destruct placed as [[fieldTypes2 typedAccesses2]|]; [|discriminate].
    simpl. rewrite (Hf2 _ _ _ HR Hrep).
    destruct (leaves f2.2) as [|leaf more] eqn:Hleaves; [|reflexivity].
    simpl.
    assert (Haddr : addressOf f2.2 = addressOf f1.2).
    { destruct f2 as [k2 [s2 o2|s2 fs2]]; [discriminate|].
      destruct f1 as [k1 [s1 o1|s1 fs1]]; [destruct HR|]. simpl in *.
      by destruct HR as [-> _]. }
    rewrite <- Hk, Haddr, Hplace. simpl.
    exact (IH rest1 _ _ _ _ _ (Hrest eq_refl) H).
Qed.

(** [representObject] on a tree cut off: as before when the tree has no
    leaf, and stopped at its first leaf otherwise. *)
Lemma representObject_cut fn fn' dl T2 :
  forall T1 frame frame1,
  cutAt fn' T1 T2 ->
  representObject fn dl T1 frame = Done (true, frame1) ->
  representObject fn' dl T2 frame
  = match leaves T2 with
    | [] => Done (true, frame1)
    | _ => Stopped AssertionFailure
    end.
Proof.
  induction T2 as [self offset|self fields2 IH] using StackObject_nested_ind;
    intros T1 frame frame1 Hcut H.
  - simpl in *. by apply representLeaf_unused.
  - destruct T1 as [self1 offset1|self1 fields1]; [destruct Hcut|].
    destruct Hcut as [-> Hcut]. simpl in *.
    destruct (linkFor self frame) as [thisLink frame0].
    apply obind_Done in H as ([state frameF] & Hfields & H).
    destruct state as [[fieldTypes typedAccesses]|]; [|discriminate].
    rewrite (representFields_cut fn fn' dl thisLink fields2 IH _ _ _ _ _ _
               Hcut Hfields).
    destruct (flat_map _ fields2); [exact H | reflexivity].
Qed.

Lemma cutFields_snoc R A B a b :
  cutFields R A B ->
  flat_map (fun field => leaves field.2) B = [] ->
  a.1 = b.1 -> R a.2 b.2 ->
  cutFields R (A ++ [a]) (B ++ [b]).
Proof.
  revert A. induction B as [|f2 rest IH]; intros A Hcut Hnone Hk HR.
  - destruct A; [|destruct Hcut]. simpl. by repeat split.
  - destruct A as [|f1 rest1]; [destruct Hcut|].
    destruct Hcut as (Hk1 & HR1 & Hrest). simpl in Hnone.
    apply app_eq_nil in Hnone as [Hf2 Hnone]. simpl.
    split; [exact Hk1|]. split; [exact HR1|]. intros _. by apply IH; [apply Hrest| | |].
Qed.

Lemma cutFields_leafy R A B X Y :
  cutFields R A B ->
  flat_map (fun field => leaves field.2) B <> [] ->
  cutFields R (A ++ X) (B ++ Y).
Proof.
  revert A. induction B as [|f2 rest IH]; intros A Hcut Hsome.
  - by destruct Hsome.
  - destruct A as [|f1 rest1]; [destruct Hcut|].
    destruct Hcut as (Hk1 & HR1 & Hrest). simpl.
    split; [exact Hk1|]. split; [exact HR1|]. intros Hf2.
    apply IH; [by apply Hrest|]. simpl in Hsome. by rewrite Hf2 in Hsome.
Qed.

(** The loop of [readObject] over the recorded offsets, run again: it
    returns, and while the surroundings are as before ([same]) the fields
    are those of the first run, cut off. *)
Lemma readFields_again fn' LV read1 read2 s1 s2 front (same : Prop) cs :
  (forall k id, In (k, id) cs ->
     forall p n r1 n1,
       read1 (VInst id) p n = Done (r1, n1) ->
       (forall T, r1 = Some T -> leavesAmong LV T) ->
       forall p2 n2, exists r2 n2',
         read2 (VInst id) p2 n2 = Done (r2, n2')
         /\ (n2 = n -> readAgain fn' r1 n1 r2 n2')) ->
  forall fieldsA nA fieldsB nB fieldsA' nA',
  ofoldl (readField read1 s1 front) (fieldsA, nA) cs = Done (fieldsA', nA') ->
  Forall (fun field => leavesAmong LV field.2) fieldsA' ->
  (same -> cutFields (cutAt fn') fieldsA fieldsB
           /\ (flat_map (fun field => leaves field.2) fieldsB = [] -> nB = nA)) ->
  exists fieldsB' nB',
    ofoldl (readField read2 s2 front) (fieldsB, nB) cs = Done (fieldsB', nB')
    /\ (same -> cutFields (cutAt fn') fieldsA' fieldsB'
                /\ (flat_map (fun field => leaves field.2) fieldsB' = []
                    -> nB' = nA')).
Proof.
  induction cs as [|[k id] cs IH];
    intros Hchild fieldsA nA fieldsB nB fieldsA' nA' H Hamong Hinv.
  - injection H as <- <-. by exists fieldsB, nB.
  - rewrite ofoldl_cons in H.
    apply obind_Done in H as ([fields1 next1] & Hstep & H).
    unfold readField in Hstep.
    apply obind_Done in Hstep as ([type nx] & Hread & Hstep).
    cbn [fst snd] in Hread, Hstep.
    pose proof (readFields_inv _ _ _ _ _ _ _ _ H) as (added & Eadded & _).
    assert (Hamong1 : Forall (fun field => leavesAmong LV field.2) fields1).
    { rewrite Eadded in Hamong. by apply Forall_app in Hamong as [? _]. }
    destruct (Hchild k id ltac:(by left) _ _ _ _ Hread
                ltac:(intros T ->; injection Hstep as <- _;
                      apply Forall_app in Hamong1 as [_ Hlast];
                      by apply Forall_cons in Hlast as [? _])
                (Some s2) nB) as (r2 & n2' & Hread2 & Hrel).
    rewrite ofoldl_cons. unfold readField at 1. cbn [fst snd]. rewrite Hread2.
    cbn [obind].
    assert (Hnext :
      same ->
      let stateB := match r2 with
                    | Some T2 => (fieldsB ++ [(sint64 (k - front), T2)], n2')
                    | None => (fieldsB, n2')
                    end in
      cutFields (cutAt fn') fields1 stateB.1
      /\ (flat_map (fun field => leaves field.2) stateB.1 = [] -> stateB.2 = next1)).
    { intros Hsame. destruct (Hinv Hsame) as [Hcut Hsync].
      destruct (flat_map (fun field => leaves field.2) fieldsB) as [|leaf more]
        eqn:Hleafy.
      - specialize (Hrel (Hsync eq_refl)).
        destruct type as [T1|], r2 as [T2|]; simpl in Hrel; try contradiction;
          injection Hstep as <- <-; simpl.
        + destruct Hrel as [HR Hn]. split.
          * by apply cutFields_snoc.
          * rewrite flat_map_app, Hleafy. simpl. rewrite app_nil_r. exact Hn.
        + split; [exact Hcut|]. by intros _.
      - assert (Hsome : flat_map (fun field => leaves field.2) fieldsB <> [])
          by (by rewrite Hleafy).
        destruct type as [T1|], r2 as [T2|]; injection Hstep as <- <-; simpl.
        + split; [by apply cutFields_leafy|].
          rewrite flat_map_app, Hleafy. discriminate.
        + rewrite <- (app_nil_r fieldsB). split; [by apply cutFields_leafy|].
          rewrite app_nil_r, Hleafy. discriminate.
        + rewrite <- (app_nil_r fieldsA). split; [by apply cutFields_leafy|].
          rewrite flat_map_app, Hleafy. discriminate.
        + split; [exact Hcut|]. rewrite Hleafy. discriminate. }
    destruct r2 as [T2|]; simpl in Hnext;
      (eapply IH; [intros k' id' Hin; apply (Hchild k' id'); by right
                  | exact H | exact Hamong | exact Hnext]).
Qed.

(** Every leaf of a tree read stands for a value the classifier accepts. *)
Lemma readObject_leaves_classified fn fuel :
  forall base parent next T next',
  readObject fn fuel base parent next = Done (Some T, next') ->
  forall leaf, In leaf (leaves T) -> analyzeObject fn leaf.2 <> None.
Proof.
  induction fuel as [|fuel IH]; intros base parent next T next' H; [discriminate|].
  apply readObject_inv in H as (fuel' & hasCast & cs & [= <-] & Han & Hshape).
  destruct Hshape as [[_ ->]|(_ & fields & -> & Hfields)].
  - intros leaf [<-|[]]. simpl. congruence.
  - simpl. intros leaf Hleaf. rewrite flat_map_app in Hleaf.
    apply in_app_or in Hleaf as [Hleaf|Hleaf].
    + destruct hasCast; simpl in Hleaf; [|destruct Hleaf].
      destruct Hleaf as [<-|[]]. simpl. congruence.
    + apply in_flat_map in Hleaf as (field & Hfield & Hleaf).
      rewrite List.Forall_forall in Hfields.
      destruct (Hfields field Hfield) as (k & id & nx & nx' & _ & Hread).
      by eapply IH.
Qed.

(** The read of a value in the rewritten function: it returns, and from the
    same number on it gives the tree of the first run cut off at the leaves
    of the first run. *)
Lemma readObject_again fn fn' (LV : list Value) :
  (forall v, In v LV -> users fn' v = []) ->
  (forall b, original (length (instructions fn)) b -> ~ In b LV ->
             analyzeObject fn' b = analyzeObject fn b) ->
  (forall v, In v LV -> analyzeObject fn v <> None) ->
  forall fuel base parent next r1 next1,
  readObject fn fuel base parent next = Done (r1, next1) ->
  original (length (instructions fn)) base ->
  (forall T, r1 = Some T -> leavesAmong LV T) ->
  forall fuel2, (fuel <= fuel2)%nat ->
  forall parent2 next2, exists r2 next2',
    readObject fn' fuel2 base parent2 next2 = Done (r2, next2')
    /\ (next2 = next -> readAgain fn' r1 next1 r2 next2').
Proof.
  intros Hunused Hsame Hclassified.
  induction fuel as [|fuel IH];
    intros base parent next r1 next1 H Hbase Hamong fuel2 Hfuel parent2 next2;
    [discriminate|].
  destruct fuel2 as [|fuel2]; [lia|].
  destruct (in_dec Value_eq_dec base LV) as [Hin|Hnot].
  - exists (Some (ObjectStackObject next2 base)), (S next2). split.
    + simpl. unfold analyzeObject. by rewrite (Hunused base Hin).
    + intros _. destruct r1 as [T1|].
      * simpl. split; [by apply Hunused | discriminate].
      * exfalso. simpl in H.
        destruct (analyzeObject fn base) as [[[hasCast cs] vs]|] eqn:Han;
          [|by apply (Hclassified base Hin)].
        destruct (analyzeObject_Some _ _ _ _ _ Han) as (-> & _ & _). simpl in H.
        destruct cs as [|[front first] cs]; [discriminate|].
        destruct (last ((front, first) :: cs)) as [[back lastInst]|];
          [|discriminate].
        destruct (negb _); [discriminate|].
        apply obind_Done in H as ([fields nx] & _ & H). discriminate.
  - pose proof (Hsame base Hbase Hnot) as Han'. simpl in H |- *. rewrite Han'.
    destruct (analyzeObject fn base) as [[[hasCast cs] vs]|] eqn:Han.
    2:{ injection H as <- <-. exists None, next2. split; [reflexivity|].
        by intros ->. }
    destruct (analyzeObject_Some _ _ _ _ _ Han) as (-> & _ & _). simpl in H |- *.
    destruct cs as [|[front first] cs].
    { injection H as <- <-. destruct Hnot.
      apply (Hamong _ eq_refl (next, base)). by left. }
    destruct (last ((front, first) :: cs)) as [[back lastInst]|] eqn:Hlast;
      [|by apply last_None in Hlast].
    destruct (negb _); [discriminate|].
    apply obind_Done in H as ([fields1 nx] & Hfold & H). injection H as <- <-.
    specialize (Hamong _ eq_refl).
    destruct hasCast.
    { destruct Hnot. apply readFields_inv in Hfold as (added & -> & _).
      apply (Hamong (S next, base)). simpl. by left. }
    destruct (readFields_again fn' LV (readObject fn fuel) (readObject fn' fuel2)
                next next2 front (next2 = next) ((front, first) :: cs)
                ltac:(intros k id Hin p n r1 n1 Hr Hr1 p2 n2;
                      apply (IH _ _ _ _ _ Hr
                               (recorded_original _ _ _ _ _ _ _ Han Hin) Hr1);
                      lia)
                [] (S next) [] (S next2) fields1 nx Hfold
                ltac:(apply List.Forall_forall; intros field Hfield leaf Hleaf;
                      apply Hamong; simpl; apply in_flat_map; by exists field)
                ltac:(intros ->; by split))
      as (fields2 & nx2 & Hfold2 & Hrel).
    rewrite Hfold2. cbn [obind].
    exists (Some (StructureStackObject next2 fields2)), nx2.
    split; [reflexivity|]. intros Heq. destruct (Hrel Heq) as [Hcut Hsync].
    simpl. split; [by split | exact Hsync].
Qed.

(** C7.  After a run that has recovered a leaf, a second run does not
    return: the offset values of the leaves have no user left, so the
    second run reads a tree that ends in a leaf without a witnessed type,
    and [reduce] is called on an empty window, where it asserts (or the
    root itself is such a leaf, and the checked cast of the root asserts). *)
Theorem second_run_stops_on_assertion dl fn fn' sp root next :
  getStackPointer fn = Done (Some sp) ->
  readObject fn (S (length (instructions fn))) sp None 0
    = Done (Some root, next) ->
  leaves root <> [] ->
  runOnFunction dl fn = Done (true, fn') ->
  runOnFunction dl fn' = Stopped AssertionFailure.
Proof.
  intros Hsp Hread Hleaves Hrun.
  pose proof Hrun as Hrun'.
  apply runOnFunction_true in Hrun'
    as (sp1 & root1 & next1 & frame & _ & Hsp1 & Hread1 & _ & Hrep & _).
  rewrite Hsp in Hsp1. injection Hsp1 as <-.
  rewrite Hread in Hread1. injection Hread1 as <- <-.
  apply runOnFunction_Rewritten in Hrun
    as (sp' & root' & next' & Hsp' & Hread' & Hinv).
  rewrite Hsp in Hsp'. injection Hsp' as <-.
  rewrite Hread in Hread'. injection Hread' as <- <-.
  set (LV := map snd (leaves root)).
  assert (Hunused : forall v, In v LV -> users fn' v = []).
  { intros v Hv. apply (rw_processed _ _ _ _ Hinv). by apply in_rev in Hv. }
  assert (Hsame : forall b, original (length (instructions fn)) b -> ~ In b LV ->
                            analyzeObject fn' b = analyzeObject fn b).
  { intros b Hb Hnot. apply (rw_analysis _ _ _ _ Hinv); [exact Hb|].
    intros Hin. apply Hnot. by apply in_rev. }
  assert (Hclassified : forall v, In v LV -> analyzeObject fn v <> None).
  { intros v Hv. apply in_map_iff in Hv as (leaf & <- & Hleaf).
    by eapply readObject_leaves_classified. }
  assert (Hbase : original (length (instructions fn)) sp)
    by (by eapply getStackPointer_original).
  destruct (readObject_again fn fn' LV Hunused Hsame Hclassified _ _ _ _ _ _ Hread
              Hbase ltac:(intros T [= <-] leaf Hleaf; by apply in_map)
              (S (length (instructions fn')))
              ltac:(pose proof (rw_length _ _ _ _ Hinv); lia) None 0%nat)
    as (r2 & next2 & Hread2 & Hrel).
  specialize (Hrel eq_refl). destruct r2 as [T2|]; [|destruct Hrel].
  destruct Hrel as [Hcut _].
  pose proof (readObject_blocked fn fn' LV Hunused Hsame _ _ _ _ _ _ Hread Hbase
                Hleaves ltac:(intros leaf Hleaf; by apply in_map)
                (S (length (instructions fn'))) None 0%nat) as Hblocked.
  rewrite Hread2 in Hblocked. simpl in Hblocked.
  assert (Hleafy : leaves T2 <> []).
  { unfold hasUnusedLeaf in Hblocked. intros Hnone. rewrite Hnone in Hblocked.
    inversion Hblocked. }
  unfold runOnFunction.
  rewrite (getStackPointer_same fn fn' (rw_args _ _ _ _ Hinv)
             (rw_stackPointer _ _ _ _ Hinv)), Hsp.
  cbn [obind]. rewrite Hread2. cbn [obind].
  destruct T2 as [self2 offset2|self2 fields2]; [reflexivity|].
  unfold representRoot in Hrep |- *.
  apply obind_Done in Hrep as ([represented frame1] & Hrep & Hroot).
  destruct represented; [|discriminate].
  rewrite (representObject_cut fn fn' dl _ _ _ _ Hcut Hrep).
  destruct (leaves (StructureStackObject self2 fields2)); [by destruct Hleafy|].
  reflexivity.
Qed.

Lemma second_run_witness :
  runOnFunction dl64 fn_overlap = Done (true, fn_overlap_rewritten)
  /\ leaves (StructureStackObject 0
               [(0, ObjectStackObject 1 (VInst 0));
                (2, ObjectStackObject 2 (VInst 3))]) <> []
  /\ runOnFunction dl64 fn_overlap_rewritten = Stopped AssertionFailure.
Proof.
  assert (Hrun : runOnFunction dl64 fn_overlap = Done (true, fn_overlap_rewritten))
    by (vm_compute; reflexivity).
  split; [exact Hrun|]. split; [discriminate|].
  apply (second_run_stops_on_assertion dl64 fn_overlap fn_overlap_rewritten (VArg 0)
           (StructureStackObject 0
              [(0, ObjectStackObject 1 (VInst 0));
               (2, ObjectStackObject 2 (VInst 3))]) 3%nat).
  - reflexivity.
  - reflexivity.
  - discriminate.
  - exact Hrun.
Defined.

(** ** Two overlapping locals *)

Lemma analyzeUser_adds base c hasCast cs vs id i :
  addsConstant base c i ->
  analyzeUser base (hasCast, cs, vs) (id, i)
  = Some (hasCast, StdMap.insert c id cs, vs).
Proof.
  intros (Hop & constant & Hright & <-). unfold analyzeUser, rightOperand in *.
  simpl. rewrite Hop. simpl. by rewrite Hright.
Qed.

Lemma analyzeUser_cast base state id i :
  opcode i = CastInst IntToPtr ->
  analyzeUser base state (id, i) = Some (true, state.1.2, state.2).
Proof.
  intros Hop. destruct state as [[hasCast cs] vs]. unfold analyzeUser. simpl.
  rewrite Hop. simpl. by rewrite orb_true_r.
Qed.

(** A load whose value is never cast to a pointer adds its own type only. *)
Lemma loadUsers_no_cast fn fuel types (loadUsers : list (nat * Instruction)) :
  Forall (fun u => opcode u.2 <> CastInst IntToPtr) loadUsers ->
  ofoldl (fun types loadUser =>
            match opcode loadUser.2 with
            | CastInst IntToPtr =>
                obind (getCastTypes fn fuel loadUser.1 [])
                  (fun castTypes =>
                     Done (foldl (fun ts t => set_insert (PointerTy t) ts)
                                 types castTypes))
            | _ => Done types
            end) types loadUsers
  = Done types.
Proof.
  induction 1 as [|u us Hu _ IH]; [reflexivity|].
  rewrite ofoldl_cons.
  destruct (opcode u.2) as [|[]| | | | | | | | | |]; try exact IH.
  by destruct Hu.
Qed.

Section OverlapScenario.
Variables (dl : DataLayout) (fn : Function) (sp : Value).
Variables (add0 add2 cast0 cast2 load0 store2 : nat).
Variables (iadd0 iadd2 icast0 icast2 iload0 istore2 : Instruction).
Variable stored : Value.

Hypothesis Hi32 : getTypeStoreSize dl (IntegerTy 32) = 4.
Hypothesis Hi16 : getTypeStoreSize dl (IntegerTy 16) = 2.
Hypothesis Hsp_users :
  users fn sp = [(add0, iadd0); (add2, iadd2)]
  \/ users fn sp = [(add2, iadd2); (add0, iadd0)].
Hypothesis Hadd0 : addsConstant sp 0 iadd0.
Hypothesis Hadd2 : addsConstant sp 2 iadd2.
Hypothesis Hadd0_users : users fn (VInst add0) = [(cast0, icast0)].
Hypothesis Hcast0 : opcode icast0 = CastInst IntToPtr.
Hypothesis Hcast0_users : users fn (VInst cast0) = [(load0, iload0)].
Hypothesis Hload0 : opcode iload0 = LoadInst /\ instType iload0 = IntegerTy 32.
Hypothesis Hload0_users :
  Forall (fun u => opcode u.2 <> CastInst IntToPtr) (users fn (VInst load0)).
Hypothesis Hadd2_users : users fn (VInst add2) = [(cast2, icast2)].
Hypothesis Hcast2 : opcode icast2 = CastInst IntToPtr.
Hypothesis Hcast2_users : users fn (VInst cast2) = [(store2, istore2)].
Hypothesis Hstore2 :
  opcode istore2 = StoreInst /\ operands istore2 !! 0%nat = Some stored
  /\ getType fn stored = IntegerTy 16.

Lemma overlap_analyze_sp :
  analyzeObject fn sp = Some (false, [(0, add0); (2, add2)], []).
Proof.
  unfold analyzeObject.
  destruct Hsp_users as [-> | ->]; simpl;
    rewrite ?(analyzeUser_adds sp 0), ?(analyzeUser_adds sp 2) by assumption;
    simpl;
    rewrite ?(analyzeUser_adds sp 0), ?(analyzeUser_adds sp 2) by assumption;
    reflexivity.
Qed.

Lemma overlap_analyze_leaf add cast icast :
  users fn (VInst add) = [(cast, icast)] -> opcode icast = CastInst IntToPtr ->
  analyzeObject fn (VInst add) = Some (true, [], []).
Proof.
  intros Hu Hop. unfold analyzeObject. rewrite Hu. simpl.
  by rewrite analyzeUser_cast.
Qed.

Lemma overlap_fuel : exists m, length (instructions fn) = S m.
Proof.
  assert (Hin : In (add0, iadd0) (users fn sp))
    by (destruct Hsp_users as [-> | ->]; simpl; tauto).
  apply users_In in Hin as (_ & _ & Hlt).
  destruct (length (instructions fn)); [lia | eauto].
Qed.

Lemma overlap_readObject :
  readObject fn (S (length (instructions fn))) sp None 0
  = Done (Some (overlap_root add0 add2), 3%nat).
Proof.
  destruct overlap_fuel as (m & ->). simpl.
  rewrite overlap_analyze_sp. simpl.
  unfold readField. simpl.
  rewrite (overlap_analyze_leaf add0 cast0 icast0),
          (overlap_analyze_leaf add2 cast2 icast2) by assumption.
  reflexivity.
Qed.

Lemma overlap_types0 fuel :
  getUnionTypes fn (S fuel) (VInst add0) [] = Done [IntegerTy 32].
Proof.
  destruct Hload0 as [Hop Hty].
  unfold getUnionTypes. rewrite Hadd0_users. simpl. rewrite Hcast0. simpl.
  rewrite Hcast0_users. simpl. rewrite Hop, Hty. simpl.
  rewrite loadUsers_no_cast by assumption. reflexivity.
Qed.

Lemma overlap_types2 fuel :
  getUnionTypes fn (S fuel) (VInst add2) [] = Done [IntegerTy 16].
Proof.
  destruct Hstore2 as (Hop & Hval & Hty).
  unfold getUnionTypes. rewrite Hadd2_users. simpl. rewrite Hcast2. simpl.
  rewrite Hcast2_users. simpl. rewrite Hop, Hval, Hty. reflexivity.
Qed.

Lemma overlap_insert :
  OverlappingTypedAccesses.insert dl [access 0 1 (IntegerTy 32)] 2 2
                                  (IntegerTy 16)
  = Some overlap_window.
Proof.
  unfold OverlappingTypedAccesses.insert, OverlappingTypedAccesses.accessEndOffset,
    OverlappingTypedAccesses.size. simpl. rewrite Hi32. reflexivity.
Qed.

(** The window of the two leaves reduces to [packed { i16, i16 }]: the
    [i16] at offset 2 is first after sorting and stays whole, the two bytes
    in front of it are padded with a single [i16]. *)
Lemma overlap_reduce :
  OverlappingTypedAccesses.reduce dl overlap_window
  = Done (2, overlap_struct, {[ 1%nat := 0; 2%nat := 1 ]}).
Proof.
  unfold OverlappingTypedAccesses.reduce, overlap_window. simpl.
  unfold OverlappingTypedAccesses.reduce_step,
    OverlappingTypedAccesses.accessEndOffset, OverlappingTypedAccesses.size.
  simpl. rewrite Hi32, Hi16. vm_compute. reflexivity.
Qed.

Lemma overlap_representLeaf self offset type frame fuel :
  getUnionTypes fn (S fuel) offset [] = Done [type] ->
  S fuel = S (length (instructions fn)) ->
  typeMap frame !! self = None ->
  representLeaf fn dl self offset frame
  = Done (true,
          {| links := links frame; linkMap := linkMap frame;
             typeMap := <[self := type]> (typeMap frame);
             allObjects := allObjects frame ++ [(self, offset)] |}).
Proof.
  intros Htypes Hfuel Hfree. unfold representLeaf.
  rewrite <- Hfuel, Htypes. simpl.
  unfold OverlappingTypedAccesses.reduce. simpl. by rewrite Hfree.
Qed.

Lemma overlap_representRoot :
  representRoot fn dl (overlap_root add0 add2)
  = Done (Some (overlap_frame add0 add2)).
Proof.
  unfold representRoot, overlap_root.
  cbn [representObject representFields fst snd addressOf].
  eval_at (linkFor 0 emptyFrame). cbv beta iota zeta.
  cbn [representObject representFields fst snd addressOf].
  rewrite (overlap_representLeaf 1 (VInst add0) (IntegerTy 32) _
             (length (instructions fn)))
    by (try apply overlap_types0; reflexivity).
  cbn [obind negb fst snd].
  match goal with |- context [placeField ?a ?b ?c ?d ?e ?f ?g] => eval_at (placeField a b c d e f g) end.
  cbn [obind negb fst snd].
  rewrite (overlap_representLeaf 2 (VInst add2) (IntegerTy 16) _
             (length (instructions fn)))
    by (try apply overlap_types2; reflexivity).
  cbn [obind negb fst snd].
  unfold placeField.
  match goal with |- context [typeMap ?f !! ?k] => eval_at (typeMap f !! k) end.
  cbv beta iota.
  change (OverlappingTypedAccesses.insert dl
            [ {| OverlappingTypedAccesses.offset := 0;
                 OverlappingTypedAccesses.object := 1;
                 OverlappingTypedAccesses.type := IntegerTy 32 |} ] 2 2
            (IntegerTy 16))
    with (OverlappingTypedAccesses.insert dl [access 0 1 (IntegerTy 32)] 2 2
            (IntegerTy 16)).
  rewrite overlap_insert. cbn [obind].
  unfold closeStructure, overlap_window, reduceStructField.
  change [access 0 1 (IntegerTy 32); access 2 2 (IntegerTy 16)]
    with overlap_window.
  rewrite overlap_reduce. vm_compute. reflexivity.
Qed.

Lemma overlap_pointer_i32 g p ip :
  getType g p = PointerTy (StructTy true [overlap_struct]) ->
  getPointerToObject (overlap_frame add0 add2) 1 p ip g
  = obind (createInst {| opcode := GetElementPtrInst;
                         operands := [p; VConst (i64 0); VConst (i32 0);
                                      VConst (i32 0)];
                         instType := PointerTy (IntegerTy 16) |} ip g)
      (fun '(gep, g1) =>
         obind (createInst {| opcode := CastInst BitCast;
                              operands := [gep];
                              instType := PointerTy (IntegerTy 32) |} ip g1)
           (fun '(cast, g2) => Done (Some cast, g2))).
Proof.
  intros Hty. unfold getPointerToObject.
  eval_at (linkMap (overlap_frame add0 add2) !! 1%nat). cbv beta iota.
  eval_at (toVector (links (overlap_frame add0 add2))
             (S (length (links (overlap_frame add0 add2)))) 2 []).
  cbn [obind ofoldl].
  follow_link (overlap_frame add0 add2) 0%nat. rewrite Hty.
  destruct (decide _) as [_|E]; [|exfalso; apply E; reflexivity]. cbn [obind].
  follow_link (overlap_frame add0 add2) 1%nat. rewrite Hty.
  destruct (decide _) as [_|E]; [|exfalso; apply E; reflexivity]. cbn [obind].
  follow_link (overlap_frame add0 add2) 2%nat. rewrite Hty.
  destruct (decide _) as [E|_]; [vm_compute in E; discriminate E|].
  unfold createGEP. rewrite Hty.
  match goal with |- context [getIndexedType ?t ?l] => eval_at (getIndexedType t l) end.
  cbv beta iota.
  destruct (createInst _ ip g) as [[gep g1]|]; cbn [obind]; [|reflexivity].
  destruct (createInst _ ip g1) as [[cast g2]|]; reflexivity.
Qed.

Lemma overlap_pointer_i16 g p ip :
  getType g p = PointerTy (StructTy true [overlap_struct]) ->
  getPointerToObject (overlap_frame add0 add2) 2 p ip g
  = obind (createInst {| opcode := GetElementPtrInst;
                         operands := [p; VConst (i64 0); VConst (i32 0);
                                      VConst (i32 1)];
                         instType := PointerTy (IntegerTy 16) |} ip g)
      (fun '(gep, g1) => Done (Some gep, g1)).
Proof.
  intros Hty. unfold getPointerToObject.
  eval_at (linkMap (overlap_frame add0 add2) !! 2%nat). cbv beta iota.
  eval_at (toVector (links (overlap_frame add0 add2))
             (S (length (links (overlap_frame add0 add2)))) 3 []).
  cbn [obind ofoldl].
  follow_link (overlap_frame add0 add2) 0%nat. rewrite Hty.
  destruct (decide _) as [_|E]; [|exfalso; apply E; reflexivity]. cbn [obind].
  follow_link (overlap_frame add0 add2) 1%nat. rewrite Hty.
  destruct (decide _) as [_|E]; [|exfalso; apply E; reflexivity]. cbn [obind].
  follow_link (overlap_frame add0 add2) 3%nat. rewrite Hty.
  destruct (decide _) as [_|E]; [|exfalso; apply E; reflexivity]. cbn [obind].
  cbn [length Nat.ltb Nat.leb]. unfold createGEP. rewrite Hty.
  match goal with |- context [getIndexedType ?t ?l] => eval_at (getIndexedType t l) end.
  cbv beta iota.
  destruct (createInst _ ip g) as [[gep g1]|]; reflexivity.
Qed.

(** C1, amended.  In the scenario of [sp + 0] loaded as [i32] and [sp + 2]
    stored an [i16], the two leaves share one window, which reduces to
    [packed { i16, i16 }] (two fields, the gap in front of the [i16] padded
    by one [i16]); the [i32] leaf is at index 0 of that struct and needs a
    bitcast to [i32*], the [i16] leaf is at index 1. *)
Theorem overlap_window_reduces_to_i16_i16 :
  readObject fn (S (length (instructions fn))) sp None 0
    = Done (Some (overlap_root add0 add2), 3%nat)
  /\ representRoot fn dl (overlap_root add0 add2)
     = Done (Some (overlap_frame add0 add2))
  /\ OverlappingTypedAccesses.reduce dl overlap_window
     = Done (2, overlap_struct, {[ 1%nat := 0; 2%nat := 1 ]})
  /\ forall g p ip,
       getType g p = PointerTy (StructTy true [overlap_struct]) ->
       getPointerToObject (overlap_frame add0 add2) 1 p ip g
       = obind (createInst {| opcode := GetElementPtrInst;
                              operands := [p; VConst (i64 0); VConst (i32 0);
                                           VConst (i32 0)];
                              instType := PointerTy (IntegerTy 16) |} ip g)
           (fun '(gep, g1) =>
              obind (createInst {| opcode := CastInst BitCast;
                                   operands := [gep];
                                   instType := PointerTy (IntegerTy 32) |}
                                ip g1)
                (fun '(cast, g2) => Done (Some cast, g2)))
       /\ getPointerToObject (overlap_frame add0 add2) 2 p ip g
          = obind (createInst {| opcode := GetElementPtrInst;
                                 operands := [p; VConst (i64 0); VConst (i32 0);
                                              VConst (i32 1)];
                                 instType := PointerTy (IntegerTy 16) |} ip g)
              (fun '(gep, g1) => Done (Some gep, g1)).
Proof.
  split; [apply overlap_readObject|].
  split; [apply overlap_representRoot|].
  split; [apply overlap_reduce|].
  intros g p ip Hty.
  split; [by apply overlap_pointer_i32 | by apply overlap_pointer_i16].
Qed.

End OverlapScenario.

(** C1, as stated, fails on [fn_overlap]: the struct that wraps the window
    is not [packed { i8, i8, i16 }]. *)
Lemma overlap_window_is_not_i8_i8_i16 :
  ~ exists root next frame,
      readObject fn_overlap (S (length (instructions fn_overlap))) (VArg 0)
                 None 0 = Done (Some root, next)
      /\ representRoot fn_overlap dl64 root = Done (Some frame)
      /\ getNaiveType frame root
         = Some (StructTy true
                   [StructTy true [IntegerTy 8; IntegerTy 8; IntegerTy 16]]).
Proof.
  intros (root & next & frame & Hread & Hrep & Hty).
  vm_compute in Hread. injection Hread as <- <-.
  vm_compute in Hrep. injection Hrep as <-.
  vm_compute in Hty. discriminate.
Qed.

Lemma overlap_window_witness :
  readObject fn_overlap (S (length (instructions fn_overlap))) (VArg 0) None 0
    = Done (Some (overlap_root 0 3), 3%nat)
  /\ representRoot fn_overlap dl64 (overlap_root 0 3)
     = Done (Some (overlap_frame 0 3))
  /\ OverlappingTypedAccesses.reduce dl64 overlap_window
     = Done (2, overlap_struct, {[ 1%nat := 0; 2%nat := 1 ]})
  /\ forall g p ip,
       getType g p = PointerTy (StructTy true [overlap_struct]) ->
       getPointerToObject (overlap_frame 0 3) 1 p ip g
       = obind (createInst {| opcode := GetElementPtrInst;
                              operands := [p; VConst (i64 0); VConst (i32 0);
                                           VConst (i32 0)];
                              instType := PointerTy (IntegerTy 16) |} ip g)
           (fun '(gep, g1) =>
              obind (createInst {| opcode := CastInst BitCast;
                                   operands := [gep];
                                   instType := PointerTy (IntegerTy 32) |}
                                ip g1)
                (fun '(cast, g2) => Done (Some cast, g2)))
       /\ getPointerToObject (overlap_frame 0 3) 2 p ip g
          = obind (createInst {| opcode := GetElementPtrInst;
                                 operands := [p; VConst (i64 0); VConst (i32 0);
                                              VConst (i32 1)];
                                 instType := PointerTy (IntegerTy 16) |} ip g)
              (fun '(gep, g1) => Done (Some gep, g1)).
Proof.
  apply (overlap_window_reduces_to_i16_i16 dl64 fn_overlap (VArg 0)
           0 3 1 4 2 5
           (mkInst (BinaryOperator Add) [VArg 0; int64 0] (IntegerTy 64))
           (mkInst (BinaryOperator Add) [VArg 0; int64 2] (IntegerTy 64))
           (mkInst (CastInst IntToPtr) [VInst 0] (PointerTy (IntegerTy 32)))
           (mkInst (CastInst IntToPtr) [VInst 3] (PointerTy (IntegerTy 16)))
           (mkInst LoadInst [VInst 1] (IntegerTy 32))
           (mkInst StoreInst
                   [VConst {| bitWidth := 16; zextValue := 7 |}; VInst 4] VoidTy)
           (VConst {| bitWidth := 16; zextValue := 7 |})).
  - reflexivity.
  - reflexivity.
  - right. reflexivity.
  - split; [reflexivity | eexists; split; reflexivity].
  - split; [reflexivity | eexists; split; reflexivity].
  - reflexivity.
  - reflexivity.
  - reflexivity.
  - split; reflexivity.
  - vm_compute. constructor.
  - reflexivity.
  - reflexivity.
  - reflexivity.
  - repeat split; reflexivity.
Defined.

(** * The recursion of [readObject] ends *)

(** An instruction is recorded under one base only. *)
Lemma recorded_unique fn b1 b2 h1 cs1 vs1 h2 cs2 vs2 k1 k2 id :
  binaryArity fn ->
  analyzeObject fn b1 = Some (h1, cs1, vs1) -> In (k1, id) cs1 ->
  analyzeObject fn b2 = Some (h2, cs2, vs2) -> In (k2, id) cs2 ->
  ~ isConstantInt b2 -> b1 = b2.
Proof.
  intros Harity H1 Hin1 H2 Hin2 Hnc.
  apply analyzeObject_Some in H1 as (_ & _ & H1).
  apply analyzeObject_Some in H2 as (_ & _ & H2).
  destruct (H1 _ _ Hin1) as (i & Hu1 & Hadd1).
  destruct (H2 _ _ Hin2) as (j & Hu2 & Hadd2).
  assert (j = i) as -> by (symmetry; eapply users_same_instruction; eassumption).
  apply users_In in Hu1 as (Hget & Hop1 & _). apply users_In in Hu2 as (_ & Hop2 & _).
  eapply (add_base_unique i); try eassumption.
  unfold binaryArity in Harity. rewrite List.Forall_forall in Harity.
  destruct Hadd1 as (Hop & _). eapply Harity; [|exact Hop].
  unfold getInst in Hget. apply list_elem_of_In. by eapply list_elem_of_lookup_2.
Qed.

Lemma Chain_base fn root path base :
  Chain fn root path base ->
  (path = [] /\ base = root)
  \/ exists id rest, path = id :: rest /\ base = VInst id.
Proof. intros []; [by left | right; eauto]. Qed.

Lemma Chain_bound fn root path base :
  Chain fn root path base ->
  List.Forall (fun id => (id < length (instructions fn))%nat) path.
Proof.
  induction 1 as [|path base h cs vs k id _ IH Han Hin]; constructor; [|exact IH].
  apply analyzeObject_Some in Han as (_ & _ & Han).
  destruct (Han _ _ Hin) as (i & Hu & _). by apply users_In in Hu as (_ & _ & ?).
Qed.

(** Below each instruction of the path is the chain it was recorded from. *)
Lemma Chain_split fn root path base :
  Chain fn root path base ->
  forall pre m post, path = pre ++ m :: post ->
  exists b h cs vs k,
    Chain fn root post b /\ analyzeObject fn b = Some (h, cs, vs) /\ In (k, m) cs.
Proof.
  induction 1 as [|path base h cs vs k id Hchain IH Han Hin]; intros pre m post E.
  - by destruct pre.
  - destruct pre as [|x pre]; simpl in E; injection E as -> ->.
    + exists base, h, cs, vs, k. auto.
    + by eapply IH.
Qed.

(** Starting from an argument, no instruction is met twice on the way down:
    each has one base, and the argument has none. *)
Lemma Chain_NoDup fn a path base :
  binaryArity fn -> Chain fn (VArg a) path base -> List.NoDup path.
Proof.
  intros Harity. induction 1 as [|path base h cs vs k id Hchain IH Han Hin].
  - constructor.
  - constructor; [|exact IH]. intros Hmem.
    apply in_split in Hmem as (pre & post & E).
    destruct (Chain_split _ _ _ _ Hchain _ _ _ E)
      as (b & h' & cs' & vs' & k' & Hpost & Han' & Hin').
    assert (Hnc : ~ isConstantInt base).
    { destruct (Chain_base _ _ _ _ Hchain) as [[_ ->]|(? & ? & _ & ->)]; simpl; tauto. }
    assert (b = base) as ->
      by (eapply (recorded_unique fn b base); eassumption).
    destruct (Chain_base _ _ _ _ Hchain) as [[-> _]|(x & rest & -> & ->)];
      [by destruct pre|].
    destruct (Chain_base _ _ _ _ Hpost) as [[_ Hroot]|(y & rest' & -> & Hy)];
      [discriminate|].
    injection Hy as <-.
    apply List.NoDup_cons_iff in IH as [Hfresh _]. apply Hfresh.
    destruct pre as [|z pre]; simpl in E; injection E as -> ->;
      [|apply in_or_app; right; right]; by left.
Qed.

Lemma Chain_length fn a path base :
  binaryArity fn -> Chain fn (VArg a) path base ->
  (length path <= length (instructions fn))%nat.
Proof.
  intros Harity Hchain.
  etransitivity;
    [apply (List.NoDup_incl_length (l' := seq 0 (length (instructions fn))))
    |by rewrite List.length_seq].
  { by eapply Chain_NoDup. }
  intros id Hid. apply in_seq. split; [lia|]. simpl.
  pose proof (Chain_bound _ _ _ _ Hchain) as Hb.
  rewrite List.Forall_forall in Hb. by apply Hb.
Qed.

(** The loop over the constant offsets stops only where a read does. *)
Lemma readFields_Stopped read structure front cs w :
  forall state,
  ofoldl (readField read structure front) state cs = Stopped w ->
  exists k id nx, In (k, id) cs /\ read (VInst id) (Some structure) nx = Stopped w.
Proof.
  induction cs as [|[k id] cs IH]; intros [fields next] H; [discriminate|].
  rewrite ofoldl_cons in H.
  destruct (readField read structure front (fields, next) (k, id)) as [state|w'] eqn:Hstep.
  - cbn [obind] in H. destruct (IH _ H) as (k0 & id0 & nx & Hin & Hr).
    exists k0, id0, nx. split; [by right | exact Hr].
  - cbn [obind] in H. injection H as ->. unfold readField in Hstep. simpl in Hstep.
    destruct (read (VInst id) (Some structure) next) as [[[type|] nx]|w'] eqn:Hr;
      cbn [obind] in Hstep; try discriminate.
    injection Hstep as ->. exists k, id, next. split; [by left | exact Hr].
Qed.

Lemma readObject_fuel fn a :
  binaryArity fn ->
  forall fuel path base, Chain fn (VArg a) path base ->
  (length (instructions fn) < fuel + length path)%nat ->
  forall parent next, readObject fn fuel base parent next <> Stopped OutOfFuel.
Proof.
  intros Harity. induction fuel as [|fuel IH]; intros path base Hchain Hfuel parent next.
  - pose proof (Chain_length _ _ _ _ Harity Hchain). lia.
  - simpl. destruct (analyzeObject fn base) as [[[h cs] vs]|] eqn:Han; [|discriminate].
    destruct (0 <? length vs)%nat; [discriminate|].
    destruct cs as [|[front id0] cs0] eqn:Ecs; [discriminate|]. rewrite <- Ecs in *.
    destruct (last cs) as [[back idn]|]; [|discriminate].
    destruct (negb _); [discriminate|].
    match goal with |- obind ?m _ <> _ => destruct m as [[fields nx]|w] eqn:Hfold end;
      cbn [obind]; [discriminate|].
    intros E. injection E as ->.
    apply readFields_Stopped in Hfold as (k & id & nx & Hin & Hr).
    revert Hr. apply (IH (id :: path)); [by econstructor|simpl; lia].
Qed.

(** X3.  In a function whose binary operators have their two operands,
    the recursion of [readObject] from an argument ends within the depth
    [runOnFunction] allows it, one more than the number of instructions:
    no instruction is met twice on the way down from the argument. *)
Theorem readObject_terminates fn a parent next :
  binaryArity fn ->
  readObject fn (S (length (instructions fn))) (VArg a) parent next
  <> Stopped OutOfFuel.
Proof.
  intros Harity. apply (readObject_fuel fn a Harity _ [] (VArg a)).
  - constructor.
  - simpl. lia.
Qed.

Lemma readObject_terminates_witness :
  binaryArity fn_overlap
  /\ readObject fn_overlap (S (length (instructions fn_overlap))) (VArg 0) None 0
     <> Stopped OutOfFuel.
Proof.
  assert (H : binaryArity fn_overlap).
  { unfold binaryArity, fn_overlap, mkFunction. simpl.
    repeat constructor; simpl; intros; (reflexivity || discriminate). }
  split; [exact H | apply (readObject_terminates fn_overlap 0 None 0 H)].
Defined.

(** * Further properties of the offset classifier *)

Lemma StdMap_insert_key key value m : In key (map fst (StdMap.insert key value m)).
Proof.
  induction m as [|[k v] m IH]; simpl; [tauto|].
  destruct (key <? k); [simpl; tauto|].
  destruct (Z.eqb_spec key k); [subst; simpl; tauto|]. simpl. tauto.
Qed.

(** Every addition of a constant among the users leaves its constant among
    the keys. *)
Lemma analyzeUsers_complete base us :
  forall hasCast cs vs hasCast' cs' vs',
  analyzeUsers base us (hasCast, cs, vs) = Some (hasCast', cs', vs') ->
  forall id i k, In (id, i) us -> addsConstant base k i -> In k (map fst cs').
Proof.
  induction us as [|user us IH]; intros hasCast cs vs hasCast' cs' vs' H id i k Hin Hadd.
  - destruct Hin.
  - simpl in H.
    destruct (analyzeUser base (hasCast, cs, vs) user) as [[[h1 cs1] vs1]|]
      eqn:Huser; [|discriminate].
    destruct Hin as [->|Hin]; [|by eapply IH].
    apply analyzeUser_Some in Huser as [_ [[_ Hnone]|(c & Hc & ->)]].
    + by destruct (Hnone k).
    + simpl in Hc. rewrite (addsConstant_unique _ _ _ _ Hadd Hc).
      destruct (analyzeUsers_Some _ _ _ _ _ _ _ _ H) as (_ & _ & Hkeep & _).
      pose proof (StdMap_insert_key c id cs) as Hkey.
      apply in_map_iff in Hkey as (x & <- & Hx). apply in_map. by apply Hkeep.
Qed.

(** [hasCastInst] after the loop: what it was, or an [inttoptr] among the
    users. *)
Lemma analyzeUsers_hasCast base us :
  forall hasCast cs vs hasCast' cs' vs',
  analyzeUsers base us (hasCast, cs, vs) = Some (hasCast', cs', vs') ->
  hasCast' = hasCast
             || existsb (fun u => bool_decide (opcode u.2 = CastInst IntToPtr)) us.
Proof.
  induction us as [|user us IH]; intros hasCast cs vs hasCast' cs' vs' H.
  - injection H as <- _ _. by rewrite orb_false_r.
  - simpl in H.
    destruct (analyzeUser base (hasCast, cs, vs) user) as [[[h1 cs1] vs1]|]
      eqn:Huser; [|discriminate].
    rewrite (IH _ _ _ _ _ _ H). simpl. rewrite orb_assoc. f_equal.
    unfold analyzeUser in Huser.
    destruct (opcode user.2) as [op|castOp| | | | | | | | | |] eqn:Hop;
      try (injection Huser as <- _ _; rewrite bool_decide_eq_false_2;
           [by rewrite orb_false_r | discriminate]).
    + destruct (decide (op = Add)); [|discriminate].
      destruct (operands user.2 !! _) as [[| |constant|]|]; try discriminate.
      injection Huser as <- _ _. rewrite bool_decide_eq_false_2;
        [by rewrite orb_false_r | discriminate].
    + injection Huser as <- _ _. f_equal.
      destruct (decide (castOp = IntToPtr)) as [->|Hne].
      * by rewrite !bool_decide_eq_true_2.
      * rewrite !bool_decide_eq_false_2; [reflexivity| |exact Hne]. congruence.
Qed.

(** X4.  When the classifier succeeds, it has recorded no variable offset;
    the constant offsets are in strictly ascending order; an offset is
    recorded exactly when some user adds it to the base, and the
    instruction recorded for it is such a user; and [hasCastInst] is set
    exactly when some user is an [inttoptr] cast. *)
Theorem classifier_records fn base hasCastInst constantOffsets variableOffsetStrides :
  analyzeObject fn base
    = Some (hasCastInst, constantOffsets, variableOffsetStrides) ->
  variableOffsetStrides = []
  /\ ascending constantOffsets
  /\ (forall k, In k (map fst constantOffsets)
                <-> exists id i, In (id, i) (users fn base) /\ addsConstant base k i)
  /\ (forall k id, In (k, id) constantOffsets ->
        exists i, In (id, i) (users fn base) /\ addsConstant base k i)
  /\ (hasCastInst = true
      <-> exists id i, In (id, i) (users fn base) /\ opcode i = CastInst IntToPtr).
Proof.
  intros H. pose proof (analyzeObject_Some _ _ _ _ _ H) as (Hvs & Hasc & Hsound).
  split; [exact Hvs|]. split; [exact Hasc|]. split; [|split; [exact Hsound|]].
  - intros k. split.
    + intros Hk. apply in_map_iff in Hk as ([k' id] & <- & Hin).
      destruct (Hsound _ _ Hin) as (i & Hu & Hadd). by exists id, i.
    + intros (id & i & Hu & Hadd).
      by eapply (analyzeUsers_complete base (users fn base)).
  - unfold analyzeObject in H. rewrite (analyzeUsers_hasCast _ _ _ _ _ _ _ _ H).
    simpl. rewrite existsb_exists. split.
    + intros ([id i] & Hin & Hop). apply bool_decide_eq_true_1 in Hop. by exists id, i.
    + intros (id & i & Hin & Hop). exists (id, i).
      split; [exact Hin | by apply bool_decide_eq_true_2].
Qed.

Lemma classifier_records_witness :
  analyzeObject fn_implicit (VArg 0) = Some (true, [(8, 2%nat)], [])
  /\ ascending [(8, 2%nat)]
  /\ (true = true
      <-> exists id i, In (id, i) (users fn_implicit (VArg 0))
                       /\ opcode i = CastInst IntToPtr).
Proof.
  split; [reflexivity|].
  pose proof (classifier_records fn_implicit (VArg 0) true [(8, 2%nat)] []
                eq_refl) as (_ & Hasc & _ & _ & Hcast).
  split; [exact Hasc | exact Hcast].
Defined.

(** X5.  When some user of the stack pointer is a binary operator other
    than the addition of a constant (for one, [sp + v] with [v] not a
    constant), the pass reports no change and returns the function as it
    was. *)
Theorem rejected_user_of_stack_pointer_bails_out dl fn sp :
  getStackPointer fn = Done (Some sp) ->
  Exists (fun u => rejected sp u.2) (users fn sp) ->
  runOnFunction dl fn = Done (false, fn).
Proof.
  intros Hsp Hrej. unfold runOnFunction. rewrite Hsp. cbn [obind].
  apply (proj2 (analyzeUsers_None sp (users fn sp) (false, [], []))) in Hrej.
  simpl. unfold analyzeObject. by rewrite Hrej.
Qed.

Lemma rejected_user_of_stack_pointer_witness :
  getStackPointer fn_variable = Done (Some (VArg 0))
  /\ Exists (fun u => rejected (VArg 0) u.2) (users fn_variable (VArg 0))
  /\ runOnFunction dl64 fn_variable = Done (false, fn_variable).
Proof.
  assert (Hrej : Exists (fun u => rejected (VArg 0) u.2)
                        (users fn_variable (VArg 0))).
  { apply List.Exists_cons_tl, List.Exists_cons_hd. exists Mul.
    split; [reflexivity | left; discriminate]. }
  split; [reflexivity|]. split; [exact Hrej|].
  apply (rejected_user_of_stack_pointer_bails_out dl64 fn_variable (VArg 0) eq_refl Hrej).
Defined.

(** * Witnessed types and the type of a leaf *)

(** ** [getUnionTypes] *)

Lemma unionTypes_flag fn fuel us :
  forall types flag types' flag',
  ofoldl (fun '(types, defaultsToVoid) offsetUser =>
      match opcode offsetUser.2 with
      | CastInst _ =>
          types ← getCastTypes fn fuel offsetUser.1 types;
          Done (types, defaultsToVoid)
      | StoreInst | CallInst => Done (types, true)
      | BinaryOperator _ | PHINode => Done (types, defaultsToVoid)
      | _ => Stopped AssertionFailure
      end) (types, flag) us = Done (types', flag') ->
  (flag = true -> flag' = true)
  /\ (Exists (fun u : nat * Instruction => passesValue u.2) us -> flag' = true).
Proof.
  induction us as [|user us IH]; intros types flag types' flag' H.
  - injection H as <- <-. split; [auto|]. intros Hex. inversion Hex.
  - rewrite ofoldl_cons in H. apply obind_Done in H as ([types1 flag1] & Hstep & H).
    destruct (IH _ _ _ _ H) as [Hkeep Hex].
    assert (Hflag : (flag = true -> flag1 = true)
                    /\ (passesValue user.2 -> flag1 = true)).
    { unfold passesValue.
      destruct (opcode user.2) as [op|castOp| | | | | | | | | |];
        try discriminate;
        try (injection Hstep as <- <-; split; [auto|intros [|]; discriminate]).
      - apply obind_Done in Hstep as (ts & _ & Hstep). injection Hstep as <- <-.
        split; [auto|intros [|]; discriminate].
      - injection Hstep as <- <-. tauto.
      - injection Hstep as <- <-. tauto. }
    split; [tauto|]. intros Hsome.
    apply Exists_cons in Hsome as [Hhere|Hlater]; [|tauto].
    apply Hkeep. by apply Hflag.
Qed.

(** X6.  An offset value that is stored or passed to a call never ends up
    without a type: when [getUnionTypes] returns, it returns at least one
    type. *)
Theorem stored_or_called_offset_has_a_type fn fuel offset types :
  Exists (fun u => passesValue u.2) (users fn offset) ->
  getUnionTypes fn fuel offset [] = Done types ->
  types <> [].
Proof.
  intros Hex H. unfold getUnionTypes in H.
  apply obind_Done in H as ([types' flag] & Hfold & H).
  apply unionTypes_flag in Hfold as [_ Hflag]. rewrite (Hflag Hex) in H.
  rewrite andb_true_r in H. simpl in H. destruct types' as [|t ts]; simpl in H.
  - injection H as <-. discriminate.
  - injection H as <-. discriminate.
Qed.

Lemma stored_or_called_offset_witness :
  Exists (fun u => passesValue u.2) (users fn_call (VInst 0))
  /\ getUnionTypes fn_call 4 (VInst 0) [] = Done [IntegerTy 8]
  /\ [IntegerTy 8] <> [].
Proof.
  assert (Hex : Exists (fun u => passesValue u.2) (users fn_call (VInst 0))).
  { apply List.Exists_cons_hd. by right. }
  split; [exact Hex|]. split; [reflexivity|].
  apply (stored_or_called_offset_has_a_type fn_call 4 (VInst 0) _ Hex eq_refl).
Defined.

Lemma unionTypes_none fn fuel us :
  Forall (fun u : nat * Instruction => givesNoType u.2) us ->
  forall flag, exists flag',
  ofoldl (fun '(types, defaultsToVoid) offsetUser =>
      match opcode offsetUser.2 with
      | CastInst _ =>
          types ← getCastTypes fn fuel offsetUser.1 types;
          Done (types, defaultsToVoid)
      | StoreInst | CallInst => Done (types, true)
      | BinaryOperator _ | PHINode => Done (types, defaultsToVoid)
      | _ => Stopped AssertionFailure
      end) ([], flag) us = Done ([], flag').
Proof.
  induction 1 as [|user us Hu _ IH]; intros flag; [by exists flag|].
  rewrite ofoldl_cons. unfold givesNoType in Hu.
  destruct (opcode user.2); try (by destruct Hu); cbn [obind]; apply IH.
Qed.

(** X7.  An offset value whose users are stores, calls, binary operators
    and phi nodes only, at least one of them a store or a call, gets the
    single type [i8]. *)
Theorem offset_only_passed_on_is_i8 fn fuel offset :
  Forall (fun u => givesNoType u.2) (users fn offset) ->
  Exists (fun u => passesValue u.2) (users fn offset) ->
  getUnionTypes fn fuel offset [] = Done [IntegerTy 8].
Proof.
  intros Hall Hex. unfold getUnionTypes.
  destruct (unionTypes_none fn fuel _ Hall false) as [flag Hfold].
  rewrite Hfold. cbn [obind].
  apply unionTypes_flag in Hfold as [_ Hflag]. by rewrite (Hflag Hex).
Qed.

Lemma offset_only_passed_on_witness :
  Forall (fun u => givesNoType u.2) (users fn_call (VInst 0))
  /\ Exists (fun u => passesValue u.2) (users fn_call (VInst 0))
  /\ getUnionTypes fn_call 4 (VInst 0) [] = Done [IntegerTy 8].
Proof.
  assert (Hall : Forall (fun u => givesNoType u.2) (users fn_call (VInst 0))).
  { repeat constructor. }
  assert (Hex : Exists (fun u => passesValue u.2) (users fn_call (VInst 0))).
  { apply List.Exists_cons_hd. by right. }
  split; [exact Hall|]. split; [exact Hex|].
  apply (offset_only_passed_on_is_i8 fn_call 4 (VInst 0) Hall Hex).
Defined.

(** ** The order [reduce] sorts by *)

Lemma before_spec dl (a b : OverlappingTypedAccesses.TypedAccess) :
  OverlappingTypedAccesses.before dl a b = true
  <-> OverlappingTypedAccesses.offset b < OverlappingTypedAccesses.offset a
      \/ (OverlappingTypedAccesses.offset a = OverlappingTypedAccesses.offset b
          /\ (getTypeStoreSize dl (OverlappingTypedAccesses.type b)
                < getTypeStoreSize dl (OverlappingTypedAccesses.type a)
              \/ (getTypeStoreSize dl (OverlappingTypedAccesses.type a)
                    = getTypeStoreSize dl (OverlappingTypedAccesses.type b)
                  /\ OverlappingTypedAccesses.getTypePriority
                       (OverlappingTypedAccesses.type b)
                     < OverlappingTypedAccesses.getTypePriority
                         (OverlappingTypedAccesses.type a)))).
Proof.
  unfold OverlappingTypedAccesses.before.
  repeat match goal with
         | |- context [?x <? ?y] => destruct (Z.ltb_spec x y)
         end; split; try discriminate; try reflexivity; try lia.
Qed.

Lemma sort_insert_In dl a sorted x :
  In x (OverlappingTypedAccesses.sort_insert dl a sorted) <-> x = a \/ In x sorted.
Proof.
  induction sorted as [|b rest IH]; simpl; [intuition congruence|].
  destruct (OverlappingTypedAccesses.before dl a b); simpl;
    [intuition congruence|]. rewrite IH. intuition congruence.
Qed.

Lemma sort_from_In dl accesses :
  forall sorted x,
  In x (fold_left (fun sorted a => OverlappingTypedAccesses.sort_insert dl a sorted)
                  accesses sorted)
  <-> In x accesses \/ In x sorted.
Proof.
  induction accesses as [|a accesses IH]; intros sorted x; simpl; [tauto|].
  rewrite IH, sort_insert_In. intuition congruence.
Qed.

Lemma sort_In dl accesses x :
  In x (OverlappingTypedAccesses.sort dl accesses) <-> In x accesses.
Proof.
  unfold OverlappingTypedAccesses.sort. rewrite sort_from_In. simpl. tauto.
Qed.

(** Nothing in a sorted vector goes before its first element. *)
Lemma sort_insert_first dl a sorted first rest :
  (forall h t, sorted = h :: t ->
     forall x, In x sorted -> OverlappingTypedAccesses.before dl x h = false) ->
  OverlappingTypedAccesses.sort_insert dl a sorted = first :: rest ->
  forall x, In x (first :: rest) -> OverlappingTypedAccesses.before dl x first = false.
Proof.
  intros Hhead E x Hx. rewrite <- E in Hx. apply sort_insert_In in Hx.
  destruct sorted as [|b tail]; simpl in E.
  - injection E as <- <-. destruct Hx as [->|[]].
    apply not_true_is_false. rewrite before_spec. lia.
  - specialize (Hhead b tail eq_refl).
    destruct (OverlappingTypedAccesses.before dl a b) eqn:Hab; injection E as <- <-.
    + apply before_spec in Hab. apply not_true_is_false. rewrite before_spec.
      destruct Hx as [->|Hx]; [lia|].
      specialize (Hhead x Hx). apply not_true_iff_false in Hhead.
      rewrite before_spec in Hhead. lia.
    + destruct Hx as [->|Hx]; [exact Hab | by apply Hhead].
Qed.

Lemma sort_from_first dl accesses :
  forall sorted first rest,
  (forall h t, sorted = h :: t ->
     forall x, In x sorted -> OverlappingTypedAccesses.before dl x h = false) ->
  fold_left (fun sorted a => OverlappingTypedAccesses.sort_insert dl a sorted)
            accesses sorted = first :: rest ->
  forall x, In x (first :: rest) -> OverlappingTypedAccesses.before dl x first = false.
Proof.
  induction accesses as [|a accesses IH]; intros sorted first rest Hhead E; simpl in E.
  - subst sorted. by apply (Hhead first rest).
  - eapply IH; [|exact E]. intros h t Eh x Hx. rewrite Eh in Hx.
    exact (sort_insert_first dl a sorted h t Hhead Eh x Hx).
Qed.

Lemma sort_first dl accesses first rest :
  OverlappingTypedAccesses.sort dl accesses = first :: rest ->
  In first accesses
  /\ forall x, In x accesses -> OverlappingTypedAccesses.before dl x first = false.
Proof.
  intros E. split.
  - apply (sort_In dl). rewrite E. by left.
  - intros x Hx. apply (sort_from_first dl accesses [] first rest);
      [discriminate | exact E |]. rewrite <- E. by apply sort_In.
Qed.

Lemma sort_nonempty dl accesses :
  accesses <> [] -> OverlappingTypedAccesses.sort dl accesses <> [].
Proof.
  destruct accesses as [|a accesses]; [congruence|]. intros _ E.
  assert (Hin : In a (OverlappingTypedAccesses.sort dl (a :: accesses)))
    by (apply sort_In; by left).
  rewrite E in Hin. destruct Hin.
Qed.

(** ** [reduce] on accesses that start together *)

(** While every access starts where the window does, the loop of [reduce]
    pads at the back only: it counts one field and keeps the first type in
    front. *)
Lemma reduce_steps_same_offset dl o first rest :
  Forall (fun a => OverlappingTypedAccesses.offset a = o) rest ->
  forall st,
  OverlappingTypedAccesses.fieldCount st = 1 ->
  OverlappingTypedAccesses.startOffset st = o ->
  (exists tail, OverlappingTypedAccesses.structBody st = first :: tail) ->
  let st' := fold_left (OverlappingTypedAccesses.reduce_step dl) rest st in
  OverlappingTypedAccesses.fieldCount st' = 1
  /\ exists tail, OverlappingTypedAccesses.structBody st' = first :: tail.
Proof.
  induction 1 as [|a rest Ha _ IH]; intros st Hcount Hstart Hbody; simpl;
    [by split|].
  apply IH; unfold OverlappingTypedAccesses.reduce_step;
    rewrite Hstart, Ha, Z.sub_diag; change (0 <? sint64 0) with false; cbn iota;
    destruct (0 <? sint64 _); simpl; auto.
  destruct Hbody as [tail ->]. by exists (tail ++ OverlappingTypedAccesses.pad
    (uint64 (sint64 (OverlappingTypedAccesses.accessEndOffset dl a
                     - OverlappingTypedAccesses.endOffsetSoFar st)))).
Qed.

Lemma reduce_same_offset dl o accesses :
  accesses <> [] ->
  Forall (fun a => OverlappingTypedAccesses.offset a = o) accesses ->
  exists first,
    In first accesses
    /\ (forall x, In x accesses -> OverlappingTypedAccesses.before dl x first = false)
    /\ OverlappingTypedAccesses.reduce dl accesses
       = Done (1, OverlappingTypedAccesses.type first, ∅).
Proof.
  intros Hne Hall. unfold OverlappingTypedAccesses.reduce.
  destruct accesses as [|a [|b accesses]]; [congruence| |].
  - exists a. split; [by left|]. split; [|reflexivity].
    intros x [<-|[]]. apply not_true_is_false. rewrite before_spec. lia.
  - destruct (OverlappingTypedAccesses.sort dl (a :: b :: accesses))
      as [|first rest] eqn:Hsort; [by apply sort_nonempty in Hsort|].
    destruct (sort_first dl _ _ _ Hsort) as [Hin Hmax].
    exists first. split; [exact Hin|]. split; [exact Hmax|].
    assert (Hrest : Forall (fun a => OverlappingTypedAccesses.offset a = o) rest).
    { apply List.Forall_forall. intros x Hx. rewrite List.Forall_forall in Hall.
      apply Hall, (sort_In dl). rewrite Hsort. by right. }
    assert (Hfirst : OverlappingTypedAccesses.offset first = o).
    { rewrite List.Forall_forall in Hall. by apply Hall. }
    match goal with
    | |- context [fold_left _ rest ?st0] =>
        destruct (reduce_steps_same_offset dl o
                    (OverlappingTypedAccesses.type first) rest Hrest st0
                    eq_refl Hfirst ltac:(by exists []))
          as [Hcount [tail Hbody]]
    end.
    rewrite Hcount, Hbody. reflexivity.
Qed.

(** ** The type of a leaf *)

Lemma insertTypes_window dl self types :
  forall typedAccesses window,
  insertTypes dl self types typedAccesses = Some window ->
  window = typedAccesses ++ leafWindow self types.
Proof.
  induction types as [|t types IH]; intros typedAccesses window H; simpl in H.
  - injection H as <-. by rewrite app_nil_r.
  - destruct (OverlappingTypedAccesses.insert dl typedAccesses 0 self t)
      as [inserted|] eqn:Hins; [|discriminate].
    rewrite (IH _ _ H). unfold OverlappingTypedAccesses.insert in Hins.
    destruct (last typedAccesses) as [back|];
      [destruct (_ <=? _); [discriminate|]|]; injection Hins as <-;
      by rewrite <- app_assoc.
Qed.

(** X8.  A leaf that is represented gets one of its witnessed types, and
    the widest of them: no witnessed type has a larger store size, and
    none of the same store size has a higher priority. *)
Theorem leaf_type_is_widest fn dl self offset frame frame' types :
  getUnionTypes fn (S (length (instructions fn))) offset [] = Done types ->
  representLeaf fn dl self offset frame = Done (true, frame') ->
  exists T,
    typeMap frame' !! self = Some T
    /\ In T types
    /\ forall t, In t types ->
         getTypeStoreSize dl t <= getTypeStoreSize dl T
         /\ (getTypeStoreSize dl t = getTypeStoreSize dl T ->
             OverlappingTypedAccesses.getTypePriority t
             <= OverlappingTypedAccesses.getTypePriority T).
Proof.
  intros Htypes H. unfold representLeaf in H. rewrite Htypes in H. cbn [obind] in H.
  destruct (insertTypes dl self types []) as [window|] eqn:Hwin; [|discriminate].
  apply insertTypes_window in Hwin. simpl in Hwin. subst window.
  destruct types as [|t0 types0] eqn:Etypes; [discriminate|]. rewrite <- Etypes in *.
  destruct (reduce_same_offset dl 0 (leafWindow self types))
    as (first & Hin & Hmax & Hreduce).
  { rewrite Etypes. discriminate. }
  { unfold leafWindow. apply List.Forall_forall. intros a Ha.
    apply in_map_iff in Ha as (t & <- & _). reflexivity. }
  rewrite Hreduce in H. cbn [obind] in H. simpl in H.
  destruct (typeMap frame !! self); [discriminate|]. injection H as <-. simpl.
  exists (OverlappingTypedAccesses.type first).
  split; [by rewrite lookup_insert_eq|].
  unfold leafWindow in Hin, Hmax. apply in_map_iff in Hin as (T & <- & HT). simpl.
  split; [exact HT|]. intros t Ht.
  specialize (Hmax (OverlappingTypedAccesses.Build_TypedAccess 0 self t)
                   (in_map _ _ _ Ht)).
  apply not_true_iff_false in Hmax. rewrite before_spec in Hmax. simpl in Hmax. lia.
Qed.

Lemma leaf_type_is_widest_witness :
  getUnionTypes fn_two_types (S (length (instructions fn_two_types))) (VInst 0) []
    = Done [IntegerTy 64; IntegerTy 32]
  /\ (exists frame',
        representLeaf fn_two_types dl64 1 (VInst 0) emptyFrame = Done (true, frame')
        /\ exists T,
             typeMap frame' !! 1%nat = Some T
             /\ In T [IntegerTy 64; IntegerTy 32]
             /\ forall t, In t [IntegerTy 64; IntegerTy 32] ->
                  getTypeStoreSize dl64 t <= getTypeStoreSize dl64 T
                  /\ (getTypeStoreSize dl64 t = getTypeStoreSize dl64 T ->
                      OverlappingTypedAccesses.getTypePriority t
                      <= OverlappingTypedAccesses.getTypePriority T)).
Proof.
  split; [reflexivity|].
  eexists. split; [vm_compute; reflexivity|].
  eapply (leaf_type_is_widest fn_two_types dl64 1 (VInst 0) emptyFrame);
    [reflexivity | vm_compute; reflexivity].
Defined.

(** ** No witnessed type is lost *)

Lemma set_insert_In t types x :
  In x (set_insert t types) <-> x = t \/ In x types.
Proof.
  unfold set_insert. destruct (decide (t ∈ types)) as [Hin|Hnot].
  - split; [tauto|]. intros [->|H]; [by apply list_elem_of_In | exact H].
  - rewrite in_app_iff. simpl. intuition congruence.
Qed.

Lemma set_inserts_keep (f : Ty -> Ty) castTypes :
  forall types x, In x types ->
  In x (foldl (fun ts t => set_insert (f t) ts) types castTypes).
Proof.
  induction castTypes as [|t castTypes IH]; intros types x Hx; simpl; [exact Hx|].
  apply IH, set_insert_In. by right.
Qed.

(** The loop of [getCastTypes] over the users of a load never drops a
    type. *)
Lemma loadUsers_keep fn fuel loadUsers :
  forall types types',
  ofoldl (fun types (loadUser : nat * Instruction) =>
      match opcode loadUser.2 with
      | CastInst IntToPtr =>
          castTypes ← getCastTypes fn fuel loadUser.1 [];
          Done (foldl (fun ts t => set_insert (PointerTy t) ts) types castTypes)
      | _ => Done types
      end) types loadUsers = Done types' ->
  forall x, In x types -> In x types'.
Proof.
  induction loadUsers as [|u loadUsers IH]; intros types types' H x Hx.
  - by injection H as <-.
  - rewrite ofoldl_cons in H. apply obind_Done in H as (types1 & Hstep & H).
    apply (IH _ _ H). clear H IH.
    destruct (opcode u.2) as [|[]| | | | | | | | | |];
      try (by injection Hstep as <-).
    apply obind_Done in Hstep as (castTypes & _ & Hstep). injection Hstep as <-.
    by apply set_inserts_keep.
Qed.

(** One round of the loop of [getCastTypes] over the users of the cast. *)
Lemma castUser_types fn fuel types user types' :
  match opcode user.2 with
  | LoadInst =>
      let loadType := instType user.2 in
      let types := set_insert loadType types in
      if isIntegerTy loadType then
        ofoldl (fun types (loadUser : nat * Instruction) =>
          match opcode loadUser.2 with
          | CastInst IntToPtr =>
              castTypes ← getCastTypes fn fuel loadUser.1 [];
              Done (foldl (fun ts t => set_insert (PointerTy t) ts)
                          types castTypes)
          | _ => Done types
          end) types (users fn (VInst user.1))
      else Done types
  | StoreInst =>
      match operands user.2 !! 0%nat with
      | Some valueOperand =>
          Done (set_insert (getType fn valueOperand) types)
      | None => Stopped InvalidPointer
      end
  | _ => Done types
  end = Done types' ->
  (forall x, In x types -> In x types')
  /\ (opcode user.2 = LoadInst -> In (instType user.2) types')
  /\ (opcode user.2 = StoreInst ->
      forall valueOperand, operands user.2 !! 0%nat = Some valueOperand ->
      In (getType fn valueOperand) types').
Proof.
  intros H. destruct (opcode user.2) eqn:Hop;
    try (injection H as <-; repeat split; auto; discriminate).
  - cbv zeta in H. destruct (isIntegerTy (instType user.2)).
    + pose proof (loadUsers_keep _ _ _ _ _ H) as Hkeep.
      split; [|split; [|discriminate]].
      * intros x Hx. apply Hkeep, set_insert_In. by right.
      * intros _. apply Hkeep, set_insert_In. by left.
    + injection H as <-. split; [|split; [|discriminate]].
      * intros x Hx. apply set_insert_In. by right.
      * intros _. apply set_insert_In. by left.
  - destruct (operands user.2 !! 0%nat) as [v|]; [|discriminate]. injection H as <-.
    split; [|split; [discriminate|]].
    + intros x Hx. apply set_insert_In. by right.
    + intros _ v' [= <-]. apply set_insert_In. by left.
Qed.

Lemma getCastTypes_complete fn fuel cast types types' :
  getCastTypes fn fuel cast types = Done types' ->
  (forall x, In x types -> In x types')
  /\ forall id i, In (id, i) (users fn (VInst cast)) ->
       (opcode i = LoadInst -> In (instType i) types')
       /\ (opcode i = StoreInst ->
           forall valueOperand, operands i !! 0%nat = Some valueOperand ->
           In (getType fn valueOperand) types').
Proof.
  destruct fuel as [|fuel]; [discriminate|]. simpl.
  generalize (users fn (VInst cast)). intros us. revert types.
  induction us as [|user us IH]; intros types H.
  - injection H as <-. split; [auto|]. intros id i [].
  - rewrite ofoldl_cons in H. apply obind_Done in H as (types1 & Hstep & H).
    apply castUser_types in Hstep as (Hkeep & Hload & Hstore).
    destruct (IH _ H) as [Hkeep' Hrest]. split; [auto|].
    intros id i [Heq|Hin]; [|by apply (Hrest id i)]. subst user. simpl in *. split.
    + intros Hop. by apply Hkeep', Hload.
    + intros Hop v Hv. by apply Hkeep', (Hstore Hop).
Qed.

Lemma unionTypes_complete fn fuel us :
  forall types flag types' flag',
  ofoldl (fun '(types, defaultsToVoid) offsetUser =>
      match opcode offsetUser.2 with
      | CastInst _ =>
          types ← getCastTypes fn fuel offsetUser.1 types;
          Done (types, defaultsToVoid)
      | StoreInst | CallInst => Done (types, true)
      | BinaryOperator _ | PHINode => Done (types, defaultsToVoid)
      | _ => Stopped AssertionFailure
      end) (types, flag) us = Done (types', flag') ->
  (forall x, In x types -> In x types')
  /\ forall castId cast id i,
       In (castId, cast) us -> (exists op, opcode cast = CastInst op) ->
       In (id, i) (users fn (VInst castId)) ->
       (opcode i = LoadInst -> In (instType i) types')
       /\ (opcode i = StoreInst ->
           forall valueOperand, operands i !! 0%nat = Some valueOperand ->
           In (getType fn valueOperand) types').
Proof.
  induction us as [|user us IH]; intros types flag types' flag' H.
  - injection H as <- <-. split; [auto|]. intros castId cast id i [].
  - rewrite ofoldl_cons in H. apply obind_Done in H as ([types1 flag1] & Hstep & H).
    destruct (IH _ _ _ _ H) as [Hkeep' Hrest].
    assert (Hkeep : forall x, In x types -> In x types1).
    { destruct (opcode user.2) as [op|castOp| | | | | | | | | |];
        try discriminate; try (by injection Hstep as <- <-).
      apply obind_Done in Hstep as (ts & Hcast & Hstep). injection Hstep as <- <-.
      by apply getCastTypes_complete in Hcast as [? _]. }
    split; [auto|]. intros castId cast id i [Heq|Hin] Hop Hu;
      [|by apply (Hrest castId cast id i)].
    subst user. destruct Hop as [op Hop]. simpl in Hstep. rewrite Hop in Hstep.
    apply obind_Done in Hstep as (ts & Hcast & Hstep). injection Hstep as <- <-.
    apply getCastTypes_complete in Hcast as [_ Hall].
    destruct (Hall id i Hu) as [Hload Hstore]. split.
    + intros Hl. by apply Hkeep', Hload.
    + intros Hs v Hv. by apply Hkeep', (Hstore Hs).
Qed.

(** X18.  No witnessed type is lost: when [getUnionTypes] returns, the
    set holds the type of every load through a cast of the offset value
    and the type of the value operand of every store that uses such a
    cast. *)
Theorem witnessed_types_are_kept fn fuel offset types castId cast id i :
  getUnionTypes fn fuel offset [] = Done types ->
  In (castId, cast) (users fn offset) ->
  (exists op, opcode cast = CastInst op) ->
  In (id, i) (users fn (VInst castId)) ->
  (opcode i = LoadInst -> In (instType i) types)
  /\ (opcode i = StoreInst ->
      forall valueOperand, operands i !! 0%nat = Some valueOperand ->
      In (getType fn valueOperand) types).
Proof.
  intros H Hcast Hop Hu. unfold getUnionTypes in H.
  apply obind_Done in H as ([types' flag] & Hfold & H).
  apply unionTypes_complete in Hfold as [_ Hall].
  destruct (Hall castId cast id i Hcast Hop Hu) as [Hload Hstore].
  assert (Hkeep : forall x, In x types' -> In x types).
  { intros x Hx. destruct (_ && _); injection H as <-; [|exact Hx].
    apply set_insert_In. by right. }
  split; [intros Hl; by apply Hkeep, Hload|].
  intros Hs v Hv. by apply Hkeep, (Hstore Hs).
Qed.

Lemma witnessed_types_are_kept_witness :
  getUnionTypes fn_two_types 7 (VInst 0) [] = Done [IntegerTy 64; IntegerTy 32]
  /\ In (3%nat, mkInst (CastInst IntToPtr) [VInst 0] (PointerTy (IntegerTy 64)))
        (users fn_two_types (VInst 0))
  /\ (exists op, CastInst IntToPtr = CastInst op)
  /\ In (4%nat, mkInst LoadInst [VInst 3] (IntegerTy 64))
        (users fn_two_types (VInst 3))
  /\ (LoadInst = LoadInst -> In (IntegerTy 64) [IntegerTy 64; IntegerTy 32]).
Proof.
  assert (H : getUnionTypes fn_two_types 7 (VInst 0) []
              = Done [IntegerTy 64; IntegerTy 32]) by reflexivity.
  assert (Hcast : In (3%nat, mkInst (CastInst IntToPtr) [VInst 0]
                               (PointerTy (IntegerTy 64)))
                     (users fn_two_types (VInst 0))) by (by left).
  assert (Hop : exists op, CastInst IntToPtr = CastInst op) by (by exists IntToPtr).
  assert (Hu : In (4%nat, mkInst LoadInst [VInst 3] (IntegerTy 64))
                  (users fn_two_types (VInst 3))) by (by left).
  split; [exact H|]. split; [exact Hcast|]. split; [exact Hop|]. split; [exact Hu|].
  exact (proj1 (witnessed_types_are_kept fn_two_types 7 (VInst 0) _ 3 _ 4 _
                  H Hcast Hop Hu)).
Defined.

(** * What a run changes and what it leaves alone *)

(** ** Blocks and markers *)

Lemma placeBefore_firstInstructions n pos new block :
  (n <= new)%nat ->
  firstInstructions n (placeBefore pos new block) = firstInstructions n block.
Proof.
  intros Hnew. unfold firstInstructions, placeBefore.
  induction block as [|i block IH]; [reflexivity|]. simpl.
  destruct (Nat.eqb i pos); simpl; rewrite IH; [|reflexivity].
  destruct (Nat.ltb_spec new n); [lia | reflexivity].
Qed.

Lemma Placement_refl n fn : Placement n fn fn.
Proof. by repeat split. Qed.

Lemma Placement_trans n fn1 fn2 fn3 :
  Placement n fn1 fn2 -> Placement n fn2 fn3 -> Placement n fn1 fn3.
Proof.
  intros (M1 & B1 & L1) (M2 & B2 & L2). repeat split; [congruence|congruence|lia].
Qed.

Lemma createInst_Placement n i insertBefore fn v fn' :
  createInst i insertBefore fn = Done (v, fn') ->
  (n <= length (instructions fn))%nat ->
  Placement n fn fn'.
Proof.
  unfold createInst. intros H Hlen.
  destruct insertBefore as [pos|]; [destruct (isPlaced fn pos); [|discriminate]|];
    injection H as <- <-; repeat split; simpl; rewrite ?length_app; simpl; try lia.
  rewrite map_map. apply map_ext. intros block.
  by apply placeBefore_firstInstructions.
Qed.

Lemma createGEP_Placement n pointer idxList insertBefore fn v fn' :
  createGEP pointer idxList insertBefore fn = Done (v, fn') ->
  (n <= length (instructions fn))%nat ->
  Placement n fn fn'.
Proof.
  unfold createGEP. destruct (getIndexedType _ _); [|discriminate].
  apply createInst_Placement.
Qed.

Lemma followLink_Placement n frame insertionPoint state link state' :
  followLink frame insertionPoint state link = Done state' ->
  (n <= length (instructions state.2))%nat ->
  Placement n state.2 state'.2.
Proof.
  destruct state as [[result gepIndices] fn]. unfold followLink. simpl.
  intros H Hlen.
  destruct (links frame !! link) as [g|]; [|discriminate].
  destruct (index g) as [idx|]; [|discriminate].
  destruct (decide (expectedType g = _)) as [_|_].
  - injection H as <-. apply Placement_refl.
  - apply obind_Done in H as ([gep fn1] & Hgep & H).
    destruct (expectedType g) as [expected|]; [|discriminate].
    apply obind_Done in H as ([cast fn2] & Hcast & H). injection H as <-. simpl.
    pose proof (createGEP_Placement n _ _ _ _ _ _ Hgep Hlen) as P1.
    eapply Placement_trans; [exact P1|].
    eapply createInst_Placement; [exact Hcast|]. destruct P1 as (_ & _ & L). lia.
Qed.

Lemma followLinks_Placement n frame insertionPoint path :
  forall state state',
  ofoldl (followLink frame insertionPoint) state path = Done state' ->
  (n <= length (instructions state.2))%nat ->
  Placement n state.2 state'.2.
Proof.
  induction path as [|link path IH]; intros state state' H Hlen.
  - injection H as <-. apply Placement_refl.
  - rewrite ofoldl_cons in H. apply obind_Done in H as (state1 & Hstep & H).
    pose proof (followLink_Placement n _ _ _ _ _ Hstep Hlen) as P1.
    eapply Placement_trans; [exact P1|]. apply (IH _ _ H).
    destruct P1 as (_ & _ & L). lia.
Qed.

Lemma getPointerToObject_Placement n frame object basePointer insertionPoint fn
    pointer fn' :
  getPointerToObject frame object basePointer insertionPoint fn
    = Done (pointer, fn') ->
  (n <= length (instructions fn))%nat ->
  Placement n fn fn'.
Proof.
  unfold getPointerToObject. intros H Hlen.
  destruct (linkMap frame !! object) as [link|];
    [|injection H as _ <-; apply Placement_refl].
  apply obind_Done in H as (path & _ & H).
  apply obind_Done in H as ([[result gepIndices] fn1] & Hfold & H).
  pose proof (followLinks_Placement n _ _ _ _ _ Hfold Hlen) as P1. simpl in P1.
  destruct (1 <? length gepIndices)%nat.
  - apply obind_Done in H as ([gep fn2] & Hgep & H). injection H as _ <-.
    eapply Placement_trans; [exact P1|].
    eapply createGEP_Placement; [exact Hgep|]. destruct P1 as (_ & _ & L). lia.
  - by injection H as _ <-.
Qed.

Lemma rewriteObject_Placement n frame stackFrame fn object fn' :
  rewriteObject frame stackFrame fn object = Done fn' ->
  (n <= length (instructions fn))%nat ->
  Placement n fn fn'.
Proof.
  unfold rewriteObject. intros H Hlen.
  apply obind_Done in H as ([pointer fn1] & Hptr & H).
  destruct pointer as [pointer|]; [|discriminate].
  apply obind_Done in H as ([ptr2int fn2] & Hcast & H). injection H as <-.
  pose proof (getPointerToObject_Placement n _ _ _ _ _ _ _ Hptr Hlen) as P1.
  pose proof P1 as (_ & _ & L1).
  pose proof (createInst_Placement n _ _ _ _ _ Hcast ltac:(lia)) as P2.
  eapply Placement_trans; [exact P1|]. eapply Placement_trans; [exact P2|].
  repeat split; simpl. by rewrite length_map.
Qed.

Lemma rewriteObjects_Placement n frame stackFrame objects :
  forall fn fn',
  ofoldl (rewriteObject frame stackFrame) fn objects = Done fn' ->
  (n <= length (instructions fn))%nat ->
  Placement n fn fn'.
Proof.
  induction objects as [|object objects IH]; intros fn fn' H Hlen.
  - injection H as <-. apply Placement_refl.
  - rewrite ofoldl_cons in H. apply obind_Done in H as (fn1 & Hstep & H).
    pose proof (rewriteObject_Placement n _ _ _ _ _ Hstep Hlen) as P1.
    eapply Placement_trans; [exact P1|]. apply (IH _ _ H).
    destruct P1 as (_ & _ & L). lia.
Qed.

(** ** Opcodes, types and operands *)

Lemma rewiredOperand_more n replaced replaced' o o' :
  (forall v, In v replaced -> In v replaced') ->
  rewiredOperand n replaced o o' -> rewiredOperand n replaced' o o'.
Proof. intros Hsub [->|(Hin & p & -> & Hp)]; [by left | right; eauto]. Qed.

Lemma rewired_refl n replaced i : rewired n replaced i i.
Proof.
  repeat split. induction (operands i); constructor; [by left | assumption].
Qed.

Lemma Rewired_refl fn : Rewired [] fn fn.
Proof.
  unfold Rewired. rewrite firstn_all.
  apply Forall2_same_length_lookup_2; [reflexivity|].
  intros k i i' Hi Hi'. rewrite Hi in Hi'. injection Hi' as <-. apply rewired_refl.
Qed.

Lemma Rewired_length replaced fn0 fn :
  Rewired replaced fn0 fn ->
  (length (instructions fn0) <= length (instructions fn))%nat.
Proof.
  intros H. apply Forall2_length in H. rewrite length_take in H. lia.
Qed.

Lemma Rewired_extends n replaced fn0 fn fn1 :
  Rewired replaced fn0 fn -> Extends n fn fn1 -> Rewired replaced fn0 fn1.
Proof.
  intros H (new & Hnew & _). pose proof (Rewired_length _ _ _ H) as Hlen.
  unfold Rewired in *. rewrite Hnew, take_app_le by exact Hlen. exact H.
Qed.

Lemma Rewired_replace replaced fn0 fn v p :
  Rewired replaced fn0 fn ->
  (length (instructions fn0) <= p)%nat ->
  Rewired (v :: replaced) fn0 (replaceAllUsesWith v (VInst p) fn).
Proof.
  unfold Rewired. simpl. intros H Hp. rewrite <- fmap_take.
  apply Forall2_fmap_r. eapply Forall2_impl; [exact H|].
  intros i i' (Hop & Hty & Hops). repeat split; simpl; [exact Hop | exact Hty |].
  apply Forall2_fmap_r. eapply Forall2_impl; [exact Hops|].
  intros o o' Hoo. simpl. destruct (decide (o' = v)) as [->|Hne].
  - right. split; [|by exists p].
    destruct Hoo as [->|(Hin & _)]; [by left | by right].
  - eapply rewiredOperand_more; [|exact Hoo]. intros w Hw. by right.
Qed.

(** The loop of [runOnFunction] rewires the instructions it found and
    leaves the allocation as it made it. *)
Lemma Rewired_loop fn0 frame alloca objects :
  let n := length (instructions fn0) in
  Forall isConstantInt (operands alloca) ->
  forall fn replaced fn',
  Rewired replaced fn0 fn ->
  instructions fn !! n = Some alloca ->
  Forall (fun object => original n object.2) objects ->
  ofoldl (rewriteObject frame (VInst n)) fn objects = Done fn' ->
  Rewired (rev (map snd objects) ++ replaced) fn0 fn'
  /\ instructions fn' !! n = Some alloca.
Proof.
  intros n Hconst. induction objects as [|object objects IH];
    intros fn replaced fn' Hinv Halloca Horig H.
  - injection H as <-. by split.
  - rewrite ofoldl_cons in H. apply obind_Done in H as (fn1 & Hstep & H).
    apply Forall_cons in Horig as [Ho Horig].
    destruct (rewriteObject_inv n _ _ _ _ _ Hstep (Rewired_length _ _ _ Hinv)
                ltac:(simpl; lia)) as (fn2 & p & Hext & Hp & ->).
    simpl. rewrite <- app_assoc. simpl.
    apply (IH _ _ _ (Rewired_replace _ _ _ _ _ (Rewired_extends _ _ _ _ _ Hinv Hext) Hp));
      [|exact Horig|exact H].
    simpl. rewrite list_lookup_fmap.
    destruct Hext as (new & -> & _).
    rewrite lookup_app_l by (by eapply lookup_lt_Some). rewrite Halloca. simpl.
    f_equal. unfold replaceOperand. destruct alloca as [op ops ty]. simpl in *.
    f_equal. rewrite <- (map_id ops) at 2. apply map_ext_in. intros o Ho'.
    rewrite List.Forall_forall in Hconst. specialize (Hconst o Ho').
    destruct (decide (o = object.2)) as [->|]; [|reflexivity].
    by destruct (original_not_constant n _ Ho).
Qed.

(** What a run that reports a change has done. *)
Lemma runOnFunction_effect dl fn fn' :
  runOnFunction dl fn = Done (true, fn') ->
  let n := length (instructions fn) in
  exists sp root next naiveType,
    getStackPointer fn = Done (Some sp)
    /\ readObject fn (S n) sp None 0 = Done (Some root, next)
    /\ Rewired (rev (map snd (leaves root))) fn fn'
    /\ instructions fn' !! n
       = Some {| opcode := AllocaInst; operands := [VConst (i32 1)];
                 instType := PointerTy naiveType |}
    /\ stackFrameMarks fn' = n :: stackFrameMarks fn
    /\ map (firstInstructions n) (blocks fn')
       = map (firstInstructions n) (blocks fn).
Proof.
  intros H n. unfold runOnFunction in H.
  apply obind_Done in H as (sp & Hsp & H). destruct sp as [sp|]; [|discriminate].
  apply obind_Done in H as ([root next] & Hread & H).
  destruct root as [[self offset|self fields]|]; [discriminate| |discriminate].
  apply obind_Done in H as (frame & Hrep & H).
  destruct frame as [frame|]; [|discriminate].
  destruct (getFirstInsertionPt fn) as [allocaInsert|]; [|discriminate].
  destruct (getNaiveType frame _) as [naiveType|]; [|discriminate].
  apply obind_Done in H as ([stackFrame fnA] & Halloca & H).
  apply obind_Done in H as (fnZ & Hloop & H). injection H as <-.
  pose proof (createInst_Placement n _ _ _ _ _ Halloca (le_n _)) as (PM & PB & PL).
  assert (Hlook : instructions fnA !! n
                  = Some {| opcode := AllocaInst; operands := [VConst (i32 1)];
                            instType := PointerTy naiveType |}).
  { unfold createInst in Halloca. destruct (isPlaced fn allocaInsert); [|discriminate].
    injection Halloca as _ <-. simpl. by rewrite list_lookup_middle. }
  apply (createInst_Extends n) in Halloca as [Hext ->]; [|by repeat constructor].
  fold n in Hloop.
  exists sp, (StructureStackObject self fields), next, naiveType.
  split; [exact Hsp|]. split; [exact Hread|].
  apply representRoot_Some in Hrep as [Hall _]. rewrite Hall in Hloop.
  pose proof (rewriteObjects_Placement n _ _ _ _ _ Hloop ltac:(simpl; lia))
    as (QM & QB & QL).
  assert (Horig : Forall (fun object => original n object.2)
                         (leaves (StructureStackObject self fields))).
  { eapply readObject_leaves_original; [exact Hread|].
    by eapply getStackPointer_original. }
  destruct (Rewired_loop fn frame
              {| opcode := AllocaInst; operands := [VConst (i32 1)];
                 instType := PointerTy naiveType |}
              (leaves (StructureStackObject self fields))
              ltac:(by repeat constructor)
              (setStackFrame n fnA) [] fnZ) as [Hrw Hlook']; auto.
  - apply (Rewired_extends n _ _ fn); [apply Rewired_refl|].
    destruct Hext as (new & E & F & A & S). exists new. by repeat split.
  - rewrite app_nil_r in Hrw. repeat split; [exact Hrw|exact Hlook'| |].
    + rewrite QM. simpl. by rewrite PM.
    + simpl in QB. congruence.
Qed.

(** X9.  A run that reports a change deletes nothing and changes no opcode
    and no type: every instruction of the function is still there under
    its number, and each of its operands is as it was or, where it was the
    offset value of a leaf, an instruction the run has added.  The first
    instruction added is the allocation of the frame, and it alone gets the
    stack-frame marker. *)
Theorem successful_run_appends_and_rewires dl fn fn' :
  runOnFunction dl fn = Done (true, fn') ->
  let n := length (instructions fn) in
  exists sp root next naiveType,
    getStackPointer fn = Done (Some sp)
    /\ readObject fn (S n) sp None 0 = Done (Some root, next)
    /\ (forall id i, getInst fn id = Some i ->
          exists i', getInst fn' id = Some i'
                     /\ rewired n (map snd (leaves root)) i i')
    /\ getInst fn' n
       = Some {| opcode := AllocaInst; operands := [VConst (i32 1)];
                 instType := PointerTy naiveType |}
    /\ stackFrameMarks fn' = n :: stackFrameMarks fn.
Proof.
  intros H n.
  destruct (runOnFunction_effect dl fn fn' H)
    as (sp & root & next & naiveType & Hsp & Hread & Hrw & Halloca & Hmarks & _).
  exists sp, root, next, naiveType.
  split; [exact Hsp|]. split; [exact Hread|]. split; [|by split].
  intros id i Hi. unfold Rewired in Hrw. fold n in Hrw.
  destruct (Forall2_lookup_l _ _ _ _ _ Hrw Hi) as (i' & Hi' & Hii').
  exists i'. split.
  - unfold getInst. by apply lookup_take_Some in Hi' as [? _].
  - destruct Hii' as (Hop & Hty & Hops). repeat split; [exact Hop|exact Hty|].
    eapply Forall2_impl; [exact Hops|]. intros o o'.
    apply rewiredOperand_more. intros v Hv. by apply in_rev.
Qed.

Lemma successful_run_appends_and_rewires_witness :
  exists sp root next naiveType,
    getStackPointer fn_overlap = Done (Some sp)
    /\ readObject fn_overlap (S (length (instructions fn_overlap))) sp None 0
       = Done (Some root, next)
    /\ (forall id i, getInst fn_overlap id = Some i ->
          exists i', getInst fn_overlap_rewritten id = Some i'
                     /\ rewired (length (instructions fn_overlap))
                                (map snd (leaves root)) i i')
    /\ getInst fn_overlap_rewritten (length (instructions fn_overlap))
       = Some {| opcode := AllocaInst; operands := [VConst (i32 1)];
                 instType := PointerTy naiveType |}
    /\ stackFrameMarks fn_overlap_rewritten
       = length (instructions fn_overlap) :: stackFrameMarks fn_overlap.
Proof.
  apply (successful_run_appends_and_rewires dl64 fn_overlap fn_overlap_rewritten).
  vm_compute. reflexivity.
Defined.

(** X10.  The pass reports a change exactly when it has changed the
    function: a run that returns "not modified" returns the function it
    was given, and one that returns "modified" returns another. *)
Theorem reports_change_iff_changed dl fn changed fn' :
  runOnFunction dl fn = Done (changed, fn') ->
  (changed = false <-> fn' = fn).
Proof.
  intros H. destruct changed.
  - split; [discriminate|]. intros ->. exfalso.
    destruct (runOnFunction_effect dl fn fn H) as (_ & _ & _ & _ & _ & _ & _ & _ & Hmarks & _).
    revert Hmarks. generalize (length (instructions fn)).
    induction (stackFrameMarks fn) as [|m marks IH]; intros k E; [discriminate|].
    injection E as -> E. by eapply IH.
  - split; [|reflexivity]. intros _. by eapply runOnFunction_false.
Qed.

Lemma reports_change_iff_changed_witness :
  runOnFunction dl64 fn_overlap = Done (true, fn_overlap_rewritten)
  /\ (true = false <-> fn_overlap_rewritten = fn_overlap).
Proof.
  assert (H : runOnFunction dl64 fn_overlap = Done (true, fn_overlap_rewritten))
    by (vm_compute; reflexivity).
  split; [exact H|].
  apply (reports_change_iff_changed dl64 fn_overlap true fn_overlap_rewritten H).
Defined.

Lemma firstInstructions_all n block :
  Forall (fun id => (id < n)%nat) block -> firstInstructions n block = block.
Proof.
  unfold firstInstructions. induction 1 as [|id block Hid _ IH]; [reflexivity|].
  simpl. rewrite IH. by destruct (Nat.ltb_spec id n); [|lia].
Qed.

(** X11.  The pass adds no block, removes no instruction from a block and
    reorders none: when every placed instruction is in the table, taking
    the instructions the run has added out of the blocks it returns gives
    the blocks it was given. *)
Theorem block_layout_is_kept dl fn changed fn' :
  wellPlaced fn ->
  runOnFunction dl fn = Done (changed, fn') ->
  map (firstInstructions (length (instructions fn))) (blocks fn') = blocks fn.
Proof.
  intros Hwp H.
  assert (Hid : map (firstInstructions (length (instructions fn))) (blocks fn)
                = blocks fn).
  { unfold wellPlaced in Hwp. induction Hwp as [|block bs Hb _ IH]; [reflexivity|].
    simpl. by rewrite IH, firstInstructions_all. }
  destruct changed.
  - destruct (runOnFunction_effect dl fn fn' H)
      as (_ & _ & _ & _ & _ & _ & _ & _ & _ & Hblocks).
    by rewrite Hblocks.
  - apply runOnFunction_false in H. by subst fn'.
Qed.

Lemma block_layout_is_kept_witness :
  wellPlaced fn_overlap
  /\ runOnFunction dl64 fn_overlap = Done (true, fn_overlap_rewritten)
  /\ map (firstInstructions (length (instructions fn_overlap)))
         (blocks fn_overlap_rewritten) = blocks fn_overlap.
Proof.
  assert (Hwp : wellPlaced fn_overlap).
  { unfold wellPlaced. simpl. repeat constructor; simpl; lia. }
  assert (H : runOnFunction dl64 fn_overlap = Done (true, fn_overlap_rewritten))
    by (vm_compute; reflexivity).
  split; [exact Hwp|]. split; [exact H|].
  apply (block_layout_is_kept dl64 fn_overlap true fn_overlap_rewritten Hwp H).
Defined.

(** * The pointer built for a leaf *)

Lemma getType_appended fn fn' new v :
  instructions fn' = instructions fn ++ new -> args fn' = args fn ->
  definedIn fn v -> getType fn' v = getType fn v.
Proof.
  intros Hi Ha Hv. destruct v as [k|id|c|t tag]; simpl; [by rewrite Ha| |reflexivity..].
  unfold getInst. rewrite Hi. simpl in Hv. by rewrite lookup_app_l.
Qed.

Lemma createInst_result i insertBefore fn v fn' :
  createInst i insertBefore fn = Done (v, fn') ->
  v = VInst (length (instructions fn))
  /\ instructions fn' = instructions fn ++ [i]
  /\ args fn' = args fn.
Proof.
  unfold createInst. intros H.
  destruct insertBefore as [pos|]; [destruct (isPlaced fn pos); [|discriminate]|];
    by injection H as <- <-.
Qed.

Lemma createInst_type i insertBefore fn v fn' :
  createInst i insertBefore fn = Done (v, fn') ->
  getType fn' v = instType i /\ definedIn fn' v.
Proof.
  intros H. apply createInst_result in H as (-> & Hi & _). simpl.
  unfold getInst. rewrite Hi, list_lookup_middle by reflexivity.
  split; [reflexivity|]. rewrite length_app. simpl. lia.
Qed.

Lemma createGEP_type pointer idxList insertBefore fn v fn' :
  createGEP pointer idxList insertBefore fn = Done (v, fn') ->
  exists pointee,
    getIndexedType (getType fn pointer) idxList = Some pointee
    /\ getType fn' v = PointerTy pointee /\ definedIn fn' v.
Proof.
  unfold createGEP. intros H.
  destruct (getIndexedType _ _) as [pointee|]; [|discriminate].
  exists pointee. split; [reflexivity|]. by apply createInst_type in H.
Qed.

(** One round leaves a value of the function as the result. *)
Lemma followLink_defined frame insertionPoint result gepIndices fn link
    result' gepIndices' fn' :
  followLink frame insertionPoint (result, gepIndices, fn) link
    = Done (result', gepIndices', fn') ->
  definedIn fn result -> definedIn fn' result'.
Proof.
  unfold followLink. intros H Hdef.
  destruct (links frame !! link) as [g|]; [|discriminate].
  destruct (index g) as [idx|]; [|discriminate].
  destruct (decide (expectedType g = _)) as [_|_]; [by injection H as <- <- <-|].
  apply obind_Done in H as ([gep fn1] & _ & H).
  destruct (expectedType g) as [expected|]; [|discriminate].
  apply obind_Done in H as ([cast fn2] & Hcast & H). injection H as <- <- <-.
  by apply createInst_type in Hcast as [_ ?].
Qed.

Lemma followLinks_defined frame insertionPoint path :
  forall result gepIndices fn result' gepIndices' fn',
  ofoldl (followLink frame insertionPoint) (result, gepIndices, fn) path
    = Done (result', gepIndices', fn') ->
  definedIn fn result -> definedIn fn' result'.
Proof.
  induction path as [|link path IH]; intros result gepIndices fn r' g' fn' H Hdef.
  - by injection H as <- <- <-.
  - rewrite ofoldl_cons in H. apply obind_Done in H as ([[r1 g1] fn1] & Hstep & H).
    eapply IH; [exact H|]. by eapply followLink_defined.
Qed.

(** After the round for a link, the state leads to the type the link
    expects. *)
Lemma followLink_leadsTo frame insertionPoint result gepIndices fn link g T state' :
  followLink frame insertionPoint (result, gepIndices, fn) link = Done state' ->
  links frame !! link = Some g -> expectedType g = Some T ->
  leadsTo T state'.
Proof.
  unfold followLink. intros H Hg HT. rewrite Hg in H.
  destruct (index g) as [idx|]; [|discriminate].
  destruct (decide (expectedType g = _)) as [E|_].
  - injection H as <-. simpl. right. split; [by destruct gepIndices|congruence].
  - apply obind_Done in H as ([gep fn1] & _ & H). rewrite HT in H.
    apply obind_Done in H as ([cast fn2] & Hcast & H). injection H as <-. simpl.
    left. exists (VConst (i64 0)). split; [reflexivity|].
    by apply createInst_type in Hcast as [-> _].
Qed.

Lemma toVector_last arena fuel :
  forall link result path,
  toVector arena fuel link result = Done path ->
  exists above, path = above ++ link :: result.
Proof.
  induction fuel as [|fuel IH]; intros link result path H; [discriminate|].
  simpl in H. destruct (arena !! link) as [g|]; [|discriminate].
  destruct (parent g) as [up|].
  - destruct (IH _ _ _ H) as [above ->]. exists (above ++ [up]).
    by rewrite <- app_assoc.
  - injection H as <-. by exists [].
Qed.

(** X12.  The pointer that [getPointerToObject] returns for an object is a
    pointer to the type that the object's link expects, whatever casts and
    element pointers it took to get there. *)
Theorem pointer_to_object_has_expected_type frame object link g T
    basePointer insertionPoint fn pointer fn' :
  linkMap frame !! object = Some link ->
  links frame !! link = Some g ->
  expectedType g = Some T ->
  definedIn fn basePointer ->
  getPointerToObject frame object basePointer insertionPoint fn
    = Done (pointer, fn') ->
  exists p, pointer = Some p /\ getType fn' p = PointerTy T.
Proof.
  intros Hlink Hg HT Hbase H. unfold getPointerToObject in H. rewrite Hlink in H.
  apply obind_Done in H as (path & Hpath & H).
  apply toVector_last in Hpath as [above ->].
  apply obind_Done in H as ([[result gepIndices] fn2] & Hfold & H).
  rewrite ofoldl_app in Hfold.
  apply obind_Done in Hfold as ([[r1 g1] fn1] & Habove & Hlast).
  rewrite ofoldl_cons in Hlast.
  apply obind_Done in Hlast as (state & Hstep & Hlast). injection Hlast as ->.
  pose proof (followLinks_defined _ _ _ _ _ _ _ _ _ Habove Hbase) as Hdef1.
  pose proof (followLink_defined _ _ _ _ _ _ _ _ _ Hstep Hdef1) as Hdef2.
  pose proof (followLink_leadsTo _ _ _ _ _ _ _ _ _ Hstep Hg HT) as Hleads.
  simpl in Hleads.
  destruct (1 <? length gepIndices)%nat eqn:Hlen.
  - apply obind_Done in H as ([gep fn3] & Hgep & H). injection H as <- <-.
    exists gep. split; [reflexivity|].
    apply createGEP_type in Hgep as (pointee & Hidx & Hty & _).
    destruct Hleads as [(idx & -> & _)|[_ Hto]]; [discriminate|]. congruence.
  - injection H as <- <-. exists result. split; [reflexivity|].
    destruct Hleads as [(idx & _ & Hty)|[Hne Hto]]; [exact Hty|].
    destruct gepIndices as [|idx [|idx' rest]]; [congruence| |discriminate].
    unfold getIndexedType in Hto. destruct (getType fn2 result); try discriminate.
    destruct (isSized _); [|discriminate]. simpl in Hto. congruence.
Qed.

Lemma pointer_to_object_witness :
  exists link g pointer fn',
    linkMap frame_implicit !! 2%nat = Some link
    /\ links frame_implicit !! link = Some g
    /\ expectedType g = Some (IntegerTy 64)
    /\ definedIn fn_implicit_allocated (VInst 6)
    /\ getPointerToObject frame_implicit 2 (VInst 6) (Some 2%nat)
                          fn_implicit_allocated = Done (pointer, fn')
    /\ exists p, pointer = Some p /\ getType fn' p = PointerTy (IntegerTy 64).
Proof.
  assert (H : exists link g pointer fn',
    linkMap frame_implicit !! 2%nat = Some link
    /\ links frame_implicit !! link = Some g
    /\ expectedType g = Some (IntegerTy 64)
    /\ definedIn fn_implicit_allocated (VInst 6)
    /\ getPointerToObject frame_implicit 2 (VInst 6) (Some 2%nat)
                          fn_implicit_allocated = Done (pointer, fn')).
  { do 4 eexists. split; [vm_compute; reflexivity|].
    split; [vm_compute; reflexivity|]. split; [reflexivity|].
    split; [vm_compute; lia|]. vm_compute. reflexivity. }
  destruct H as (link & g & pointer & fn' & Hlink & Hg & HT & Hdef & Hptr).
  exists link, g, pointer, fn'. repeat (split; [assumption|]).
  exact (pointer_to_object_has_expected_type _ _ _ _ _ _ _ _ _ _
           Hlink Hg HT Hdef Hptr).
Defined.

(** * The order of the fields that [readObject] builds *)

Lemma sint64_range z :
  -9223372036854775808 <= sint64 z < 9223372036854775808.
Proof.
  unfold sint64.
  pose proof (Z.mod_pos_bound (z + 9223372036854775808) 18446744073709551616
                ltac:(lia)). lia.
Qed.

Lemma sint64_small z : 0 <= z < 9223372036854775808 -> sint64 z = z.
Proof. intros Hz. unfold sint64. rewrite Z.mod_small; lia. Qed.

Lemma StronglySorted_sublist {A} (R : A -> A -> Prop) (kept l : list A) :
  sublist kept l -> StronglySorted R l -> StronglySorted R kept.
Proof.
  induction 1 as [|x l1 l2 Hsub IH|x l1 l2 Hsub IH]; intros Hl.
  - constructor.
  - apply StronglySorted_inv in Hl as [Hl Hx]. constructor; [by apply IH|].
    apply List.Forall_forall. intros y Hy. rewrite List.Forall_forall in Hx.
    apply Hx, list_elem_of_In. eapply elem_of_sublist; [|exact Hsub].
    by apply list_elem_of_In.
  - apply StronglySorted_inv in Hl as [Hl _]. by apply IH.
Qed.

(** The loop over [constantOffsets] keeps the order of the map: the fields
    it adds come from a part of the entries, in their order, each at the
    distance of its key from the first key. *)
Lemma readFields_kept read structure front cs :
  forall fields next fields' next',
  ofoldl (readField read structure front) (fields, next) cs
    = Done (fields', next') ->
  exists kept added,
    fields' = fields ++ added
    /\ sublist kept cs
    /\ Forall2 (fun (p : Z * nat) (field : Z * StackObject) =>
                  field.1 = sint64 (p.1 - front)
                  /\ exists nx nx',
                       read (VInst p.2) (Some structure) nx
                       = Done (Some field.2, nx'))
               kept added.
Proof.
  induction cs as [|[k id] cs IH]; intros fields next fields' next' H.
  - injection H as <- <-. exists [], []. rewrite app_nil_r.
    split; [reflexivity|]. split; constructor.
  - rewrite ofoldl_cons in H. apply obind_Done in H as ([fields1 next1] & Hstep & H).
    unfold readField in Hstep.
    apply obind_Done in Hstep as ([type nx] & Hread & Hstep). simpl in Hread.
    destruct (IH _ _ _ _ H) as (kept & added & -> & Hsub & Hall).
    destruct type as [type|]; injection Hstep as <- <-.
    + exists ((k, id) :: kept), ((sint64 (k - front), type) :: added).
      rewrite <- app_assoc. split; [reflexivity|].
      split; [by apply sublist_skip|]. constructor; [|exact Hall].
      simpl. split; [reflexivity|]. by exists next, nx.
    + exists kept, added. split; [reflexivity|]. split; [by apply sublist_cons|].
      exact Hall.
Qed.

Lemma ascending_last m back idn :
  ascending m -> last m = Some (back, idn) ->
  forall k id, In (k, id) m -> k <= back.
Proof.
  unfold ascending. induction m as [|[k0 id0] m IH]; intros Hm Hlast k id Hin;
    [destruct Hin|].
  apply StronglySorted_inv in Hm as [Hm Hk0].
  destruct m as [|p m'].
  - simpl in Hlast. injection Hlast as <- <-. destruct Hin as [[= <- <-]|[]]. lia.
  - assert (Hlast' : last (p :: m') = Some (back, idn)) by exact Hlast.
    destruct Hin as [[= <- <-]|Hin]; [|by eapply IH].
    rewrite List.Forall_forall in Hk0. specialize (Hk0 p ltac:(by left)).
    simpl in Hk0. destruct p as [k1 id1].
    specialize (IH Hm Hlast' k1 id1 ltac:(by left)). simpl in Hk0. lia.
Qed.

(** What the classifier recorded is the constant of an addition, read as an
    [int64_t]. *)
Lemma recorded_range fn base hasCast cs vs k id :
  noLeastConstant fn ->
  analyzeObject fn base = Some (hasCast, cs, vs) -> In (k, id) cs ->
  -9223372036854775808 < k < 9223372036854775808.
Proof.
  intros Hno Han Hin. apply analyzeObject_Some in Han as (_ & _ & Hfrom).
  destruct (Hfrom k id Hin) as (i & Hu & _ & c & Hright & <-).
  apply users_In in Hu as (Hget & _ & _).
  assert (Hc : In (VConst c) (operands i)).
  { unfold rightOperand in Hright. apply list_elem_of_In.
    by eapply list_elem_of_lookup_2. }
  pose proof (Hno id i c Hget Hc). pose proof (sint64_range (getLimitedValue c)).
  lia.
Qed.

Lemma orderedFields_all (fields : list (Z * StackObject)) :
  Forall (fun field => orderedFields field.2) fields ->
  (fix all (l : list (Z * StackObject)) : Prop :=
     match l with
     | [] => True
     | field :: l' => orderedFields field.2 /\ all l'
     end) fields.
Proof. induction 1; simpl; auto. Qed.

(** X13.  In a function none of whose constants reads as the least
    [int64_t], every structure that [readObject] builds lists its fields in
    the order of their offsets, and no offset is negative: the offsets are
    the distances of the recorded constants from the least of them, and
    the assertion on their signs keeps the subtraction from wrapping. *)
Theorem readObject_orders_fields fn :
  noLeastConstant fn ->
  forall fuel base parent next T next',
  readObject fn fuel base parent next = Done (Some T, next') ->
  orderedFields T.
Proof.
  intros Hno. induction fuel as [|fuel IH]; intros base parent next T next' H;
    [discriminate|].
  simpl in H.
  destruct (analyzeObject fn base) as [[[hasCast cs] vs]|] eqn:Han; [|discriminate].
  destruct (0 <? length vs)%nat; [discriminate|].
  destruct cs as [|[front id0] cs0] eqn:Ecs; [by injection H as <- _|].
  rewrite <- Ecs in *.
  destruct (last cs) as [[back idn]|] eqn:Hlast;
    [|rewrite Ecs in Hlast; by apply last_None in Hlast].
  destruct (negb _) eqn:Hassert; [discriminate|].
  apply obind_Done in H as ([fields nx] & Hfold & H). injection H as <- <-.
  pose proof (analyzeObject_Some _ _ _ _ _ Han) as (_ & Hasc & _).
  assert (Hfront : forall k id, In (k, id) cs -> front <= k).
  { intros k id Hin. rewrite Ecs in Hin, Hasc.
    destruct Hin as [[= <- <-]|Hin]; [lia|].
    apply StronglySorted_inv in Hasc as [_ Hall].
    rewrite List.Forall_forall in Hall. specialize (Hall _ Hin). simpl in Hall. lia. }
  pose proof (ascending_last _ _ _ Hasc Hlast) as Hback.
  pose proof (recorded_range fn base hasCast cs vs front id0 Hno Han
                ltac:(rewrite Ecs; by left)) as Hfr.
  assert (Hbk : -9223372036854775808 < back < 9223372036854775808).
  { apply (recorded_range fn base hasCast cs vs back idn Hno Han).
    rewrite Ecs in Hlast |- *. clear -Hlast.
    revert Hlast. generalize (front, id0). induction cs0 as [|q cs0 IHc]; intros p Hl.
    - injection Hl as <-. by left.
    - right. by apply IHc. }
  assert (Hsigns : front = 0 \/ back = 0 \/ (front < 0 <-> back < 0)).
  { apply negb_false_iff in Hassert. unfold signbit in Hassert.
    destruct (Z.eqb_spec front 0); [by left|].
    destruct (Z.eqb_spec back 0); [right; by left|]. simpl in Hassert.
    right. right.
    destruct (Z.ltb_spec front 0), (Z.ltb_spec back 0); simpl in Hassert;
      try discriminate; lia. }
  assert (Hoff : forall k id, In (k, id) cs -> sint64 (k - front) = k - front
                                               /\ 0 <= k - front).
  { intros k id Hin. pose proof (Hfront k id Hin). pose proof (Hback k id Hin).
    split; [|lia]. apply sint64_small. lia. }
  assert (Hinit : exists explicit kept,
             fields = (if hasCast then [(0, ObjectStackObject (S next) base)]
                       else []) ++ explicit
             /\ sublist kept cs
             /\ Forall2 (fun (p : Z * nat) (field : Z * StackObject) =>
                  field.1 = sint64 (p.1 - front)
                  /\ exists nx nx',
                       readObject fn fuel (VInst p.2) (Some next) nx
                       = Done (Some field.2, nx'))
               kept explicit).
  { destruct hasCast; apply readFields_kept in Hfold
      as (kept & added & -> & Hsub & Hall); by exists added, kept. }
  destruct Hinit as (explicit & kept & -> & Hsub & Hall).
  assert (Hkept : StronglySorted (fun a b : Z * nat => a.1 < b.1) kept)
    by (by eapply StronglySorted_sublist).
  assert (Hin_kept : forall p, In p kept -> In p cs).
  { intros p Hp. apply list_elem_of_In. eapply elem_of_sublist; [|exact Hsub].
    by apply list_elem_of_In. }
  assert (Hmap : map fst explicit = map (fun p : Z * nat => p.1 - front) kept).
  { clear Hsub Hfold Hkept.
    induction Hall as [|[k id] field kept explicit [Hd _] Hall IHall];
      [reflexivity|].
    simpl. rewrite IHall by (intros q Hq; apply Hin_kept; by right).
    f_equal. rewrite Hd. simpl. apply (Hoff k id), Hin_kept. by left. }
  assert (Hexplicit : StronglySorted Z.le (map fst explicit)
                      /\ List.Forall (fun d => 0 <= d) (map fst explicit)
                      /\ Forall (fun field => orderedFields field.2) explicit).
  { split; [|split].
    - rewrite Hmap. clear -Hkept.
      induction Hkept as [|p kept _ IHk Hp]; simpl; constructor; [exact IHk|].
      apply List.Forall_forall. intros d Hd.
      apply in_map_iff in Hd as (q & <- & Hq).
      rewrite List.Forall_forall in Hp. specialize (Hp q Hq). simpl in Hp. lia.
    - rewrite Hmap. apply List.Forall_forall. intros d Hd.
      apply in_map_iff in Hd as ([k id] & <- & Hq). simpl.
      by apply (Hoff k id), Hin_kept.
    - clear -Hall IH. induction Hall as [|p field kept explicit [_ Hread] _ IHall];
        constructor; [|exact IHall].
      destruct Hread as (nx0 & nx1 & Hread). by eapply IH. }
  destruct Hexplicit as (Hs & Hn & Ho). simpl.
  destruct hasCast; simpl.
  - repeat split; [constructor; [exact Hs|exact Hn]
                  |constructor; [lia|exact Hn]
                  |by apply orderedFields_all].
  - repeat split; [exact Hs | exact Hn | by apply orderedFields_all].
Qed.

Lemma readObject_orders_fields_witness :
  noLeastConstant fn_overlap
  /\ readObject fn_overlap 8 (VArg 0) None 0
     = Done (Some (StructureStackObject 0
                     [(0, ObjectStackObject 1 (VInst 0));
                      (2, ObjectStackObject 2 (VInst 3))]), 3%nat)
  /\ orderedFields (StructureStackObject 0
                      [(0, ObjectStackObject 1 (VInst 0));
                       (2, ObjectStackObject 2 (VInst 3))]).
Proof.
  assert (Hno : noLeastConstant fn_overlap).
  { intros id i c Hget Hin.
    do 7 (destruct id as [|id];
          [injection Hget as <-; simpl in Hin;
           repeat (destruct Hin as [Hin|Hin]; try discriminate Hin;
                   try (injection Hin as <-; vm_compute; discriminate));
           destruct Hin|]).
    discriminate Hget. }
  split; [exact Hno|]. split; [reflexivity|].
  apply (readObject_orders_fields fn_overlap Hno 8 (VArg 0) None 0%nat _ 3%nat).
  reflexivity.
Defined.

(** * Every leaf of a frame is linked *)

Lemma Grows_refl frame : linksWellFormed frame -> Grows frame frame.
Proof. intros H. split; [exact H|]. by repeat split. Qed.

Lemma Grows_trans frame1 frame2 frame3 :
  Grows frame1 frame2 -> Grows frame2 frame3 -> Grows frame1 frame3.
Proof.
  intros (_ & M1 & F1 & T1) (W2 & M2 & F2 & T2). split; [exact W2|].
  split; [auto|]. split; [|auto]. intros o l g Hl Hg Hp. eapply F2; eauto.
Qed.

Lemma Grows_Linked frame frame' o :
  Grows frame frame' -> Linked frame o -> Linked frame' o.
Proof.
  intros (_ & M & F & T) (l & g & T0 & Hl & Hg & HT & He & Hi & Hp).
  exists l, g, T0. repeat split; eauto.
Qed.


Lemma windowTyped_Grows frame frame' typedAccesses :
  Grows frame frame' -> windowTyped frame typedAccesses ->
  windowTyped frame' typedAccesses.
Proof. intros (_ & _ & _ & HT) Hw a Ha. by apply HT, Hw. Qed.

(** [linkFor] finds or makes the link of an object. *)
Lemma linkFor_Grows object frame :
  linksWellFormed frame ->
  Grows frame (linkFor object frame).2
  /\ linkMap (linkFor object frame).2 !! object = Some (linkFor object frame).1
  /\ typeMap (linkFor object frame).2 = typeMap frame.
Proof.
  intros [Hlt Hinj]. unfold linkFor.
  destruct (linkMap frame !! object) as [link|] eqn:Hlink; simpl.
  { split; [by apply Grows_refl|]. by split. }
  split; [|split; [by rewrite lookup_insert_eq | reflexivity]].
  split; [split|split; [|split]]; simpl.
  - intros o l. rewrite length_app. simpl.
    destruct (decide (o = object)) as [->|Hne].
    + rewrite lookup_insert_eq. intros [= <-]. lia.
    + rewrite lookup_insert_ne by congruence. intros H. apply Hlt in H. lia.
  - intros o o' l.
    destruct (decide (o = object)) as [->|Hne];
      destruct (decide (o' = object)) as [->|Hne']; [reflexivity|..];
      rewrite ?lookup_insert_eq, ?lookup_insert_ne by congruence.
    + intros [= <-] H. apply Hlt in H. lia.
    + intros H [= <-]. apply Hlt in H. lia.
    + apply Hinj.
  - intros o l Hl. rewrite lookup_insert_ne; [exact Hl | congruence].
  - intros o l g Hl Hg _. rewrite lookup_app_l; [exact Hg | by eapply lookup_lt_Some].
  - auto.
Qed.

(** One object of a window is linked: its link is found or made, given its
    index and the type of the access, and hung under [parentLink]. *)
Lemma linkStep_Grows object idx T parentLink frame frame' :
  linksWellFormed frame ->
  typeMap frame !! object = Some T ->
  setParent (linkFor object frame).1 parentLink
            (setIndex (linkFor object frame).1 idx T (linkFor object frame).2)
    = Done frame' ->
  Grows frame frame' /\ LinkedAt frame' object parentLink idx T
  /\ typeMap frame' = typeMap frame.
Proof.
  intros Hwf HT H.
  destruct (linkFor_Grows object frame Hwf) as ((Hwf1 & Hm1 & Hf1 & Htypes1) & Hl & Ht).
  destruct (linkFor object frame) as [link frame1]. simpl in *.
  pose proof Hwf1 as [Hlt1 Hinj1].
  unfold setParent in H. simpl in H.
  pose proof (Hlt1 _ _ Hl) as Hlen.
  destruct (lookup_lt_is_Some_2 _ _ Hlen) as [g0 Hg0].
  rewrite list_lookup_alter_eq, Hg0 in H. simpl in H.
  destruct (parent g0) eqn:Hparent; [discriminate|]. injection H as <-.
  split; [split; [|split; [|split]]|split]; simpl.
  - split; simpl; [|exact Hinj1]. intros o l Ho. rewrite !length_alter. by eapply Hlt1.
  - exact Hm1.
  - intros o l g Ho Hg Hp. pose proof (Hf1 _ _ _ Ho Hg Hp) as Hg1.
    destruct (decide (l = link)) as [->|Hne].
    + rewrite Hg0 in Hg1. injection Hg1 as <-. rewrite Hparent in Hp. by destruct Hp.
    + by rewrite !list_lookup_alter_ne.
  - intros o T'. by rewrite Ht.
  - exists link. simpl. rewrite !list_lookup_alter_eq, Hg0. simpl.
    split; [exact Hl|]. split; [reflexivity|]. by rewrite Ht.
  - exact Ht.
Qed.

Lemma LinkedAt_Linked frame o parentLink idx T :
  LinkedAt frame o parentLink idx T -> Linked frame o.
Proof.
  intros (l & Hl & Hg & HT). eexists l, _, T. simpl.
  repeat split; eauto.
Qed.

(** A loop that links the objects of a window one after the other. *)
Lemma linkSteps_Grows (step : LlvmStackFrame -> OverlappingTypedAccesses.TypedAccess
                              -> Outcome LlvmStackFrame) typedAccesses :
  (forall frame a frame',
     linksWellFormed frame ->
     typeMap frame !! OverlappingTypedAccesses.object a
       = Some (OverlappingTypedAccesses.type a) ->
     step frame a = Done frame' ->
     Grows frame frame' /\ Linked frame' (OverlappingTypedAccesses.object a)
     /\ typeMap frame' = typeMap frame) ->
  forall frame frame',
  linksWellFormed frame -> windowTyped frame typedAccesses ->
  ofoldl step frame typedAccesses = Done frame' ->
  Grows frame frame'
  /\ (forall a, In a typedAccesses -> Linked frame' (OverlappingTypedAccesses.object a))
  /\ typeMap frame' = typeMap frame.
Proof.
  intros Hstep. induction typedAccesses as [|a rest IH]; intros frame frame' Hwf Hw H.
  - injection H as <-. split; [by apply Grows_refl|]. split; [intros a []|reflexivity].
  - rewrite ofoldl_cons in H. apply obind_Done in H as (frame1 & H1 & H).
    destruct (Hstep _ _ _ Hwf (Hw a ltac:(by left)) H1) as (G1 & La & T1).
    destruct (IH frame1 frame' ltac:(apply G1)
                ltac:(eapply windowTyped_Grows; [exact G1|];
                      intros b Hb; apply Hw; by right) H) as (G2 & Lrest & T2).
    split; [by eapply Grows_trans|]. split; [|congruence].
    intros b [<-|Hb]; [by eapply Grows_Linked | by apply Lrest].
Qed.

(** [reduceStructField] links every object of the window it reduces. *)
Lemma reduceStructField_Grows dl typedAccesses parentLink index frame result frame' :
  linksWellFormed frame -> windowTyped frame typedAccesses ->
  reduceStructField dl typedAccesses parentLink index frame = Done (result, frame') ->
  Grows frame frame'
  /\ (forall a, In a typedAccesses -> Linked frame' (OverlappingTypedAccesses.object a))
  /\ typeMap frame' = typeMap frame.
Proof.
  intros Hwf Hw H. unfold reduceStructField in H.
  apply obind_Done in H as ([[count resultType] gep] & _ & H).
  destruct (count =? 0); [discriminate|].
  destruct (count =? 1).
  - apply obind_Done in H as (frame1 & Hfold & H). injection H as _ <-.
    eapply linkSteps_Grows; [|exact Hwf|exact Hw|exact Hfold].
    intros fr a fr' Hwf' HT Hstep. cbv beta in Hstep.
    destruct (linkStep_Grows (OverlappingTypedAccesses.object a) (i32 index)
                (OverlappingTypedAccesses.type a) parentLink fr fr' Hwf' HT)
      as (G & L & Ht).
    { by destruct (linkFor (OverlappingTypedAccesses.object a) fr). }
    split; [exact G|]. split; [by eapply LinkedAt_Linked | exact Ht].
  - unfold createLink in H. cbv beta iota zeta in H.
    apply obind_Done in H as (frame1 & Hparent & H).
    apply obind_Done in H as (frame2 & Hfold & H). injection H as _ <-.
    pose proof Hwf as [Hlt Hinj].
    unfold setParent in Hparent. simpl in Hparent.
    rewrite list_lookup_middle in Hparent by reflexivity. simpl in Hparent.
    injection Hparent as <-.
    set (frameS := setIndex (length (links frame)) (i32 index) resultType _) in Hfold.
    assert (GS : Grows frame frameS).
    { split; [split|split; [|split]]; simpl.
      - intros o l Ho. rewrite !length_alter, length_app. apply Hlt in Ho. simpl. lia.
      - exact Hinj.
      - auto.
      - intros o l g Ho Hg _. pose proof (Hlt _ _ Ho).
        rewrite !list_lookup_alter_ne by lia. by rewrite lookup_app_l.
      - auto. }
    apply linkSteps_Grows in Hfold as (G2 & Hall & Ht);
      [| |apply GS|intros a Ha; simpl; by apply Hw].
    2:{ intros fr a fr' Hwf' HT Hstep. cbv beta in Hstep.
        destruct (gep !! OverlappingTypedAccesses.object a) as [position|];
          [|discriminate].
        destruct (linkStep_Grows (OverlappingTypedAccesses.object a) (i32 position)
                    (OverlappingTypedAccesses.type a) (length (links frame))
                    fr fr' Hwf' HT) as (G & L & Ht).
        { by destruct (linkFor (OverlappingTypedAccesses.object a) fr). }
        split; [exact G|]. split; [by eapply LinkedAt_Linked | exact Ht]. }
    split; [by eapply Grows_trans|]. split; [exact Hall|]. rewrite Ht. reflexivity.
Qed.


Lemma insert_appends dl typedAccesses offset object type typedAccesses' :
  OverlappingTypedAccesses.insert dl typedAccesses offset object type
    = Some typedAccesses' ->
  typedAccesses'
  = typedAccesses ++ [OverlappingTypedAccesses.Build_TypedAccess offset object type].
Proof.
  unfold OverlappingTypedAccesses.insert.
  destruct (last typedAccesses); [destruct (_ <=? _); [discriminate|]|];
    by intros [= <-].
Qed.

(** A field that is placed joins the window; what leaves the window on its
    account has been linked. *)
Lemma placeField_Grows dl thisLink offset fieldObject fieldTypes typedAccesses
    frame fieldTypes' typedAccesses' frame' :
  linksWellFormed frame -> windowTyped frame typedAccesses ->
  placeField dl thisLink offset fieldObject fieldTypes typedAccesses frame
    = Done (Some (fieldTypes', typedAccesses'), frame') ->
  Grows frame frame'
  /\ windowTyped frame' typedAccesses'
  /\ (exists a, In a typedAccesses'
                /\ OverlappingTypedAccesses.object a = fieldObject)
  /\ (forall a, In a typedAccesses ->
        Linked frame' (OverlappingTypedAccesses.object a) \/ In a typedAccesses').
Proof.
  intros Hwf Hw H. unfold placeField in H.
  destruct (typeMap frame !! fieldObject) as [fieldType|] eqn:Htype; [|discriminate].
  destruct (OverlappingTypedAccesses.insert dl typedAccesses offset fieldObject
                                            fieldType) as [inserted|] eqn:Hins.
  - injection H as <- <- <-. apply insert_appends in Hins as ->.
    split; [by apply Grows_refl|]. split; [|split].
    + intros a Ha. apply in_app_or in Ha as [Ha|[<-|[]]]; [by apply Hw | exact Htype].
    + eexists. split; [apply in_or_app; right; by left | reflexivity].
    + intros a Ha. right. apply in_or_app. by left.
  - apply obind_Done in H as ([result frame1] & Hreduce & H).
    destruct result as [result|]; [|discriminate]. injection H as _ <- <-.
    apply reduceStructField_Grows in Hreduce as (Hg & Hall & Ht); [|exact Hwf|exact Hw].
    split; [exact Hg|]. simpl. split; [|split].
    + intros a [<-|[]]. simpl. by rewrite Ht.
    + eexists. split; [by left | reflexivity].
    + intros a Ha. left. by apply Hall.
Qed.

(** When a structure is closed its last window is linked, and the
    structure gets a type under a number that had none. *)
Lemma closeStructure_Grows dl self thisLink fieldTypes typedAccesses frame frame' :
  linksWellFormed frame -> windowTyped frame typedAccesses ->
  closeStructure dl self thisLink fieldTypes typedAccesses frame = Done (true, frame') ->
  Grows frame frame'
  /\ (forall a, In a typedAccesses -> Linked frame' (OverlappingTypedAccesses.object a))
  /\ is_Some (typeMap frame' !! self)
  /\ typeMap frame !! self = None.
Proof.
  intros Hwf Hw H. unfold closeStructure in H.
  apply obind_Done in H as ([types frame1] & Hlast & H).
  assert (Hframe1 : Grows frame frame1
            /\ (forall a, In a typedAccesses ->
                  Linked frame1 (OverlappingTypedAccesses.object a))
            /\ typeMap frame1 = typeMap frame).
  { destruct typedAccesses as [|a0 rest].
    - injection Hlast as _ <-. split; [by apply Grows_refl|]. split; [intros a []|done].
    - apply obind_Done in Hlast as ([result frame2] & Hreduce & Hlast).
      injection Hlast as _ <-.
      by apply reduceStructField_Grows in Hreduce. }
  destruct Hframe1 as ((Hwf1 & Hm1 & Hf1 & Ht1) & Hall & Hsame).
  destruct types as [types|]; [|discriminate].
  destruct (typeMap frame1 !! self) eqn:Hself; [discriminate|]. injection H as <-.
  assert (Hkeep : forall o, Linked frame1 o ->
            Linked {| links := links frame1; linkMap := linkMap frame1;
                      typeMap := <[self := StructTy true types]> (typeMap frame1);
                      allObjects := allObjects frame1 |} o).
  { intros o (l & g & T & Hl & Hg & HT & He & Hi & Hp). exists l, g, T. simpl.
    repeat split; auto. rewrite lookup_insert_ne; [exact HT | congruence]. }
  split; [split; [exact Hwf1|split; [|split]]|split; [|split]].
  - exact Hm1.
  - exact Hf1.
  - intros o T HT. simpl. rewrite lookup_insert_ne; [by apply Ht1|].
    intros <-. apply Ht1 in HT. congruence.
  - intros a Ha. by apply Hkeep, Hall.
  - simpl. rewrite lookup_insert_eq. by eexists.
  - by rewrite <- Hsame.
Qed.

Lemma representLeaf_Grows fn dl self offset frame frame' :
  linksWellFormed frame ->
  representLeaf fn dl self offset frame = Done (true, frame') ->
  Grows frame frame' /\ is_Some (typeMap frame' !! self).
Proof.
  intros Hwf H. unfold representLeaf in H. apply obind_Done in H as (types & _ & H).
  destruct (insertTypes dl self types []); [|discriminate].
  apply obind_Done in H as ([[count resultType] gep] & _ & H).
  destruct (negb (count =? 1)); [discriminate|].
  destruct (typeMap frame !! self) eqn:Hself; [discriminate|]. injection H as <-.
  split; [split; [exact Hwf|split; [|split]]|]; simpl.
  - auto.
  - auto.
  - intros o T HT. rewrite lookup_insert_ne; [exact HT | congruence].
  - rewrite lookup_insert_eq. by eexists.
Qed.

(** The loop over the fields of a structure: every leaf met so far is
    linked or its object waits in the window. *)
Lemma representFields_Grows dl
    (represent : StackObject -> LlvmStackFrame -> Outcome (bool * LlvmStackFrame))
    thisLink fields :
  Forall (fun field => forall frame frame',
            linksWellFormed frame ->
            represent field.2 frame = Done (true, frame') ->
            Grows frame frame'
            /\ is_Some (typeMap frame' !! addressOf field.2)
            /\ forall leaf, In leaf (leaves field.2) ->
                 Linked frame' leaf.1 \/ leaf.1 = addressOf field.2)
         fields ->
  forall fieldTypes typedAccesses frame fieldTypes' typedAccesses' frame' met,
  linksWellFormed frame -> windowTyped frame typedAccesses ->
  (forall leaf : nat * Value, In leaf met ->
     Linked frame leaf.1
     \/ exists a, In a typedAccesses /\ OverlappingTypedAccesses.object a = leaf.1) ->
  representFields dl represent thisLink fields fieldTypes typedAccesses frame
    = Done (Some (fieldTypes', typedAccesses'), frame') ->
  Grows frame frame'
  /\ windowTyped frame' typedAccesses'
  /\ forall leaf, In leaf (met ++ flat_map (fun field => leaves field.2) fields) ->
       Linked frame' leaf.1
       \/ exists a, In a typedAccesses' /\ OverlappingTypedAccesses.object a = leaf.1.
Proof.
  induction 1 as [|field fields Hfield _ IH];
    intros fieldTypes typedAccesses frame fieldTypes' typedAccesses' frame' met
           Hwf Hw Hmet H.
  - injection H as <- <- <-. simpl. rewrite app_nil_r.
    split; [by apply Grows_refl|]. by split.
  - simpl in H. apply obind_Done in H as ([represented frame1] & Hrep & H).
    destruct represented; simpl in H; [|discriminate].
    apply obind_Done in H as ([placed frame2] & Hplace & H).
    destruct placed as [[fieldTypes1 typedAccesses1]|]; [|discriminate].
    destruct (Hfield _ _ Hwf Hrep) as (G1 & _ & Hleaves).
    pose proof (windowTyped_Grows _ _ _ G1 Hw) as Hw1.
    destruct (placeField_Grows _ _ _ _ _ _ _ _ _ _ ltac:(apply G1) Hw1 Hplace)
      as (G2 & Hw2 & (anew & Hanew & Hobj) & Hold).
    assert (Hmet2 : forall leaf : nat * Value, In leaf (met ++ leaves field.2) ->
              Linked frame2 leaf.1
              \/ exists a, In a typedAccesses1
                           /\ OverlappingTypedAccesses.object a = leaf.1).
    { intros leaf Hleaf. apply in_app_or in Hleaf as [Hleaf|Hleaf].
      - destruct (Hmet leaf Hleaf) as [Hl|(a & Ha & Hoa)].
        + left. eapply Grows_Linked; [exact G2|]. by eapply Grows_Linked.
        + destruct (Hold a Ha) as [Hl|Hin]; [left; by rewrite <- Hoa | right; eauto].
      - destruct (Hleaves leaf Hleaf) as [Hl|Heq];
          [left; by eapply Grows_Linked|].
        right. exists anew. split; [exact Hanew | congruence]. }
    destruct (IH _ _ _ _ _ _ (met ++ leaves field.2) (proj1 G2) Hw2 Hmet2 H)
      as (G3 & Hw3 & Hall).
    split; [eapply Grows_trans; [exact G1|]; by eapply Grows_trans|].
    split; [exact Hw3|]. intros leaf Hleaf. apply Hall.
    simpl in Hleaf. by rewrite <- app_assoc.
Qed.

(** A structure that is represented has all its leaves linked, under
    numbers other than its own. *)
Lemma representObject_Grows fn dl object :
  forall frame frame',
  linksWellFormed frame ->
  representObject fn dl object frame = Done (true, frame') ->
  Grows frame frame'
  /\ is_Some (typeMap frame' !! addressOf object)
  /\ match object with
     | ObjectStackObject _ _ => True
     | StructureStackObject self _ =>
         forall leaf, In leaf (leaves object) ->
                      Linked frame' leaf.1 /\ leaf.1 <> self
     end.
Proof.
  induction object as [self offset|self fields IH] using StackObject_nested_ind;
    intros frame frame' Hwf H.
  - simpl in H. apply representLeaf_Grows in H as [G Ht]; [|exact Hwf].
    split; [exact G|]. by split.
  - simpl in H.
    destruct (linkFor_Grows self frame Hwf) as (G0 & _ & _).
    destruct (linkFor self frame) as [thisLink frame0]. simpl in G0.
    apply obind_Done in H as ([state frame1] & Hfields & H).
    destruct state as [[fieldTypes typedAccesses]|]; [|discriminate].
    assert (IH' : Forall (fun field => forall frame frame',
              linksWellFormed frame ->
              representObject fn dl field.2 frame = Done (true, frame') ->
              Grows frame frame'
              /\ is_Some (typeMap frame' !! addressOf field.2)
              /\ forall leaf, In leaf (leaves field.2) ->
                   Linked frame' leaf.1 \/ leaf.1 = addressOf field.2) fields).
    { eapply Forall_impl; [exact IH|]. intros field Hf fr fr' Hwf' Hr.
      destruct (Hf fr fr' Hwf' Hr) as (G & Ht & Hl). split; [exact G|].
      split; [exact Ht|]. intros leaf Hleaf.
      destruct field.2 as [s o|s fs]; simpl in *.
      - destruct Hleaf as [<-|[]]. by right.
      - left. by apply Hl. }
    destruct (representFields_Grows dl _ thisLink fields IH' [] [] frame0
                fieldTypes typedAccesses frame1 [] ltac:(apply G0)
                ltac:(intros a []) ltac:(intros leaf []) Hfields)
      as (G1 & Hw1 & Hall).
    apply closeStructure_Grows in H as (G2 & Hlinked & Ht & Hfresh);
      [|apply G1|exact Hw1].
    split; [eapply Grows_trans; [exact G0|]; by eapply Grows_trans|].
    split; [exact Ht|]. intros leaf Hleaf. simpl in Hall.
    destruct (Hall leaf Hleaf) as [Hl|(a & Ha & Hoa)].
    + split; [by eapply Grows_Linked|]. intros E.
      destruct Hl as (l & g & T & _ & _ & HT & _). congruence.
    + split; [rewrite <- Hoa; by apply Hlinked|]. intros E.
      specialize (Hw1 a Ha). congruence.
Qed.

(** X14.  In the frame made for a structure, every leaf has a link, set up
    with an index and a parent, and the type that the link expects is the
    type recorded for the leaf: the rewriting loop never meets a leaf
    without a pointer path. *)
Theorem frame_links_every_leaf fn dl self fields frame :
  representRoot fn dl (StructureStackObject self fields) = Done (Some frame) ->
  forall leaf, In leaf (leaves (StructureStackObject self fields)) ->
  exists link g T,
    linkMap frame !! leaf.1 = Some link
    /\ links frame !! link = Some g
    /\ typeMap frame !! leaf.1 = Some T
    /\ expectedType g = Some T
    /\ is_Some (index g)
    /\ is_Some (parent g).
Proof.
  intros H leaf Hleaf. unfold representRoot in H.
  apply obind_Done in H as ([represented frame1] & Hrep & H).
  destruct represented; [|discriminate].
  destruct (getNaiveType frame1 _) as [rootType|]; [|discriminate].
  assert (Hwf0 : linksWellFormed emptyFrame).
  { split; simpl; intros o; intros; by rewrite lookup_empty in *. }
  apply representObject_Grows in Hrep as (G1 & _ & Hall); [|exact Hwf0].
  destruct (Hall leaf Hleaf) as [Hl Hne].
  destruct (linkFor_Grows self frame1 ltac:(apply G1)) as (G2 & Hroot & _).
  simpl in H. destruct (linkFor self frame1) as [rootLink frame2].
  simpl in G2, Hroot. injection H as <-.
  apply (Grows_Linked _ _ _ G2) in Hl as (l & g & T & Hll & Hg & HT & He & Hi & Hp).
  exists l, g, T. simpl. repeat split; auto.
  rewrite list_lookup_alter_ne; [exact Hg|]. intros <-.
  destruct G2 as ((_ & Hinj) & _). apply Hne. by eapply Hinj.
Qed.

Lemma frame_links_every_leaf_witness :
  exists frame,
    representRoot fn_overlap dl64
      (StructureStackObject 0 [(0, ObjectStackObject 1 (VInst 0));
                               (2, ObjectStackObject 2 (VInst 3))])
      = Done (Some frame)
    /\ forall leaf,
         In leaf (leaves (StructureStackObject 0
                            [(0, ObjectStackObject 1 (VInst 0));
                             (2, ObjectStackObject 2 (VInst 3))])) ->
         exists link g T,
           linkMap frame !! leaf.1 = Some link
           /\ links frame !! link = Some g
           /\ typeMap frame !! leaf.1 = Some T
           /\ expectedType g = Some T
           /\ is_Some (index g)
           /\ is_Some (parent g).
Proof.
  eexists. split; [vm_compute; reflexivity|].
  apply (frame_links_every_leaf fn_overlap dl64). vm_compute. reflexivity.
Defined.

(** * The indices that [reduce] hands out *)

Lemma pad_ints_length sizes difference :
  (length (OverlappingTypedAccesses.pad_ints sizes difference) <= length sizes)%nat.
Proof.
  revert difference. induction sizes as [|i sizes IH]; intros difference; simpl;
    [lia|].
  destruct ((0 <? i) && (0 <? difference)); [|simpl; lia].
  destruct (i <=? difference); simpl;
    [specialize (IH (difference - i)) | specialize (IH difference)]; lia.
Qed.

Lemma pad_length difference :
  (length (OverlappingTypedAccesses.pad difference) <= 5)%nat.
Proof.
  unfold OverlappingTypedAccesses.pad. destruct (16 <? difference); simpl.
  - pose proof (pad_ints_length [8; 4; 2; 1]
                  (uint64 (difference - difference / 8 * 8))). simpl in *. lia.
  - pose proof (pad_ints_length [8; 4; 2; 1] difference). simpl in *. lia.
Qed.

(** One round of the loop of [reduce]: the body grows by at most two
    paddings, the count does not fall, and the access gets minus the length
    of the body as its index. *)
Lemma reduce_step_body dl st iter :
  let st' := OverlappingTypedAccesses.reduce_step dl st iter in
  (length (OverlappingTypedAccesses.structBody st)
   <= length (OverlappingTypedAccesses.structBody st')
   <= length (OverlappingTypedAccesses.structBody st) + 10)%nat
  /\ OverlappingTypedAccesses.fieldCount st
     <= OverlappingTypedAccesses.fieldCount st'
  /\ OverlappingTypedAccesses.gepIndices st'
     = <[OverlappingTypedAccesses.object iter :=
           - sint32 (Z.of_nat (length (OverlappingTypedAccesses.structBody st')))]>
         (OverlappingTypedAccesses.gepIndices st).
Proof.
  unfold OverlappingTypedAccesses.reduce_step.
  destruct (0 <? sint64 (_ - OverlappingTypedAccesses.offset iter)); simpl;
    match goal with
    | |- context [0 <? ?d] => destruct (0 <? d)
    end; simpl; rewrite ?length_app, ?length_rev;
    repeat match goal with
           | |- context [OverlappingTypedAccesses.pad ?d] =>
               lazymatch goal with
               | _ : (length (OverlappingTypedAccesses.pad d) <= 5)%nat |- _ => fail
               | _ => pose proof (pad_length d)
               end
           end; (split; [lia|]); (split; [lia|]); reflexivity.
Qed.

Lemma sint32_small z : 0 <= z < 2147483648 -> sint32 z = z.
Proof. intros Hz. unfold sint32. rewrite Z.mod_small; lia. Qed.

Lemma index_from_end k n :
  1 <= k <= n -> n < 2147483648 ->
  sint32 (uint64 (- k) + n) = n - k.
Proof.
  intros Hk Hn. unfold uint64, sint32.
  replace (- k) with (18446744073709551616 - k + (-1) * 18446744073709551616)
    by lia.
  rewrite Z_mod_plus_full, (Z.mod_small (18446744073709551616 - k)) by lia.
  replace (18446744073709551616 - k + n + 2147483648)
    with (n - k + 2147483648 + 4294967296 * 4294967296) by lia.
  rewrite Z_mod_plus_full, Z.mod_small by lia. lia.
Qed.

(** The loop of [reduce]: every access met has an index, and every index
    is minus a position counted from the end of the body. *)
Lemma reduce_steps_indices dl rest :
  forall st,
  Z.of_nat (length (OverlappingTypedAccesses.structBody st))
    + 10 * Z.of_nat (length rest) < 2147483648 ->
  (1 <= length (OverlappingTypedAccesses.structBody st))%nat ->
  (forall o v, OverlappingTypedAccesses.gepIndices st !! o = Some v ->
     1 <= - v <= Z.of_nat (length (OverlappingTypedAccesses.structBody st))) ->
  let st' := fold_left (OverlappingTypedAccesses.reduce_step dl) rest st in
  (length (OverlappingTypedAccesses.structBody st)
   <= length (OverlappingTypedAccesses.structBody st')
   <= length (OverlappingTypedAccesses.structBody st) + 10 * length rest)%nat
  /\ OverlappingTypedAccesses.fieldCount st
     <= OverlappingTypedAccesses.fieldCount st'
  /\ (forall o v, OverlappingTypedAccesses.gepIndices st' !! o = Some v ->
        1 <= - v <= Z.of_nat (length (OverlappingTypedAccesses.structBody st')))
  /\ (forall o, is_Some (OverlappingTypedAccesses.gepIndices st !! o)
                \/ In o (map OverlappingTypedAccesses.object rest) ->
                is_Some (OverlappingTypedAccesses.gepIndices st' !! o)).
Proof.
  induction rest as [|iter rest IH]; intros st Hbound Hne Hgep; simpl.
  - split; [lia|]. split; [lia|]. split; [exact Hgep|]. by intros o [?|[]].
  - destruct (reduce_step_body dl st iter) as (Hlen & Hcount & Hidx).
    cbn [length] in Hbound.
    set (st1 := OverlappingTypedAccesses.reduce_step dl st iter) in *.
    clearbody st1.
    destruct (IH st1) as (Hlen' & Hcount' & Hgep' & Hkeys'); [lia|lia| |].
    + intros o v. rewrite Hidx.
      destruct (decide (o = OverlappingTypedAccesses.object iter)) as [->|Hne'].
      * rewrite lookup_insert_eq. intros [= <-].
        rewrite Z.opp_involutive, sint32_small by lia. lia.
      * rewrite lookup_insert_ne by congruence. intros Hv.
        specialize (Hgep o v Hv). lia.
    + split; [lia|]. split; [lia|]. split; [exact Hgep'|].
      intros o Ho. apply Hkeys'. rewrite Hidx.
      destruct (decide (o = OverlappingTypedAccesses.object iter)) as [->|Hne'].
      * left. rewrite lookup_insert_eq. by eexists.
      * rewrite lookup_insert_ne by congruence.
        destruct Ho as [Ho|[Ho|Ho]]; [by left | congruence | by right].
Qed.

(** X15.  On a window that is not empty (and has fewer than 2^27
    accesses) [reduce] returns, it never returns a count of zero, and when
    it builds a struct every access of the window has a gep index that
    names a field of that struct: the two [assert(false)] of
    [reduceStructField] are never reached. *)
Theorem reduce_indices_in_range dl accesses :
  accesses <> [] ->
  Z.of_nat (length accesses) < 134217728 ->
  exists count T gep,
    OverlappingTypedAccesses.reduce dl accesses = Done (count, T, gep)
    /\ 1 <= count
    /\ (count = 1 -> gep = ∅)
    /\ (count <> 1 ->
        exists body,
          T = StructTy true body
          /\ forall a, In a accesses ->
               exists idx,
                 gep !! OverlappingTypedAccesses.object a = Some idx
                 /\ 0 <= idx < Z.of_nat (length body)).
Proof.
  intros Hne Hlen. unfold OverlappingTypedAccesses.reduce.
  destruct accesses as [|a [|b accesses]]; [congruence| |].
  - exists 1, (OverlappingTypedAccesses.type a), ∅. split; [reflexivity|].
    split; [lia|]. split; [reflexivity | congruence].
  - destruct (OverlappingTypedAccesses.sort dl (a :: b :: accesses))
      as [|first rest] eqn:Hsort; [by apply sort_nonempty in Hsort|].
    assert (Hrest : (length rest <= length (a :: b :: accesses))%nat).
    { assert (Hl : forall l acc,
                length (fold_left (fun sorted x =>
                          OverlappingTypedAccesses.sort_insert dl x sorted) l acc)
                = (length l + length acc)%nat).
      { assert (Hi : forall x sorted,
                  length (OverlappingTypedAccesses.sort_insert dl x sorted)
                  = S (length sorted)).
        { intros x sorted. induction sorted as [|y sorted IHs]; simpl; [reflexivity|].
          destruct (OverlappingTypedAccesses.before dl x y); simpl; lia. }
        induction l as [|x l IHl]; intros acc; simpl; [reflexivity|].
        rewrite IHl, Hi. lia. }
      unfold OverlappingTypedAccesses.sort in Hsort.
      specialize (Hl (a :: b :: accesses) []). rewrite Hsort in Hl. simpl in Hl.
      simpl. lia. }
    match goal with
    | |- context [fold_left _ rest ?st0] =>
        destruct (reduce_steps_indices dl rest st0) as (Hbody & Hcount & Hgep & Hkeys)
    end.
    { simpl in *. lia. }
    { simpl. lia. }
    { simpl. intros o v Hv. apply lookup_singleton_Some in Hv as [_ <-]. lia. }
    simpl in Hbody, Hcount, Hgep, Hkeys.
    match goal with
    | |- context [fold_left _ rest ?st0] =>
        set (st := fold_left (OverlappingTypedAccesses.reduce_step dl) rest st0) in *
    end.
    destruct (OverlappingTypedAccesses.fieldCount st =? 1) eqn:Hone.
    + destruct (OverlappingTypedAccesses.structBody st) as [|only body] eqn:Hb;
        [simpl in Hbody; lia|].
      exists 1, only, ∅. split; [reflexivity|]. split; [lia|].
      split; [reflexivity | congruence].
    + apply Z.eqb_neq in Hone. eexists _, _, _. split; [reflexivity|].
      split; [lia|]. split; [congruence|]. intros _.
      exists (OverlappingTypedAccesses.structBody st). split; [reflexivity|].
      intros x Hx. apply (sort_In dl) in Hx. rewrite Hsort in Hx.
      destruct (Hkeys (OverlappingTypedAccesses.object x)) as [v Hv].
      { destruct Hx as [<-|Hx]; [left | right; by apply in_map].
        rewrite lookup_singleton_eq. by eexists. }
      specialize (Hgep _ _ Hv).
      exists (sint32 (uint64 v
                      + Z.of_nat (length (OverlappingTypedAccesses.structBody st)))).
      rewrite lookup_fmap, Hv. split; [reflexivity|].
      replace v with (- (- v)) by lia. rewrite index_from_end; simpl in *; lia.
Qed.

Lemma reduce_indices_in_range_witness :
  overlap_window <> []
  /\ Z.of_nat (length overlap_window) < 134217728
  /\ exists count T gep,
       OverlappingTypedAccesses.reduce dl64 overlap_window = Done (count, T, gep)
       /\ 1 <= count
       /\ (count = 1 -> gep = ∅)
       /\ (count <> 1 ->
           exists body,
             T = StructTy true body
             /\ forall a, In a overlap_window ->
                  exists idx,
                    gep !! OverlappingTypedAccesses.object a = Some idx
                    /\ 0 <= idx < Z.of_nat (length body)).
Proof.
  split; [discriminate|]. split; [simpl; lia|].
  apply (reduce_indices_in_range dl64 overlap_window); [discriminate | simpl; lia].
Defined.

(** * Where [reduce] puts the accesses of a window *)

Lemma storeSizes_rev dl fields : storeSizes dl (rev fields) = storeSizes dl fields.
Proof.
  induction fields as [|t fields IH]; [reflexivity|]. simpl.
  rewrite storeSizes_app, IH. simpl. lia.
Qed.

(** Away from 16, what [pad] writes stores the gap, whatever the layout of
    other types. *)
Lemma pad_storeSizes dl d :
  standardIntegers dl ->
  0 < d < 18446744073709551616 -> d <> 16 ->
  storeSizes dl (OverlappingTypedAccesses.pad d) = d.
Proof.
  intros (H8 & H16 & H32 & H64 & Harray) Hd Hne.
  unfold OverlappingTypedAccesses.pad.
  destruct (16 <? d) eqn:Hcmp.
  - apply Z.ltb_lt in Hcmp.
    pose proof (Z.mod_pos_bound d 8 ltac:(lia)) as Hb.
    pose proof (Z.div_mod d 8 ltac:(lia)) as Hdm.
    assert (Hr : uint64 (d - d / 8 * 8) = d mod 8).
    { replace (d - d / 8 * 8) with (d mod 8) by lia.
      unfold uint64. apply Z.mod_small. lia. }
    rewrite Hr. cbn [storeSizes fold_right]. rewrite Harray.
    assert (Hcases : d mod 8 = 0 \/ d mod 8 = 1 \/ d mod 8 = 2 \/ d mod 8 = 3
                     \/ d mod 8 = 4 \/ d mod 8 = 5 \/ d mod 8 = 6 \/ d mod 8 = 7)
      by lia.
    destruct Hcases as [E|[E|[E|[E|[E|[E|[E|E]]]]]]]; rewrite E in *;
      match goal with
      | |- context [OverlappingTypedAccesses.pad_ints ?l ?r] =>
          eval_at (OverlappingTypedAccesses.pad_ints l r)
      end; cbn [storeSizes fold_right]; rewrite ?H8, ?H16, ?H32, ?H64; lia.
  - apply Z.ltb_ge in Hcmp.
    assert (Hcases : d = 1 \/ d = 2 \/ d = 3 \/ d = 4 \/ d = 5 \/ d = 6 \/ d = 7
                     \/ d = 8 \/ d = 9 \/ d = 10 \/ d = 11 \/ d = 12 \/ d = 13
                     \/ d = 14 \/ d = 15) by lia.
    repeat (destruct Hcases as [->|Hcases];
            [match goal with
             | |- context [OverlappingTypedAccesses.pad_ints ?l ?r] =>
                 eval_at (OverlappingTypedAccesses.pad_ints l r)
             end; cbn [storeSizes fold_right]; rewrite ?H8, ?H16, ?H32, ?H64; lia|]).
    subst d.
    match goal with
    | |- context [OverlappingTypedAccesses.pad_ints ?l ?r] =>
        eval_at (OverlappingTypedAccesses.pad_ints l r)
    end; cbn [storeSizes fold_right]; rewrite ?H8, ?H16, ?H32, ?H64; lia.
Qed.

(** [sort] leaves the accesses in the order of [before]. *)
Lemma sort_insert_sorted dl a sorted :
  StronglySorted (notAfter dl) sorted ->
  StronglySorted (notAfter dl) (OverlappingTypedAccesses.sort_insert dl a sorted).
Proof.
  unfold notAfter. induction 1 as [|b rest Hrest IH Hb]; simpl.
  - repeat constructor.
  - destruct (OverlappingTypedAccesses.before dl a b) eqn:Hab.
    + constructor; [by constructor|].
      apply before_spec in Hab. constructor.
      * apply not_true_is_false. rewrite before_spec. lia.
      * eapply Forall_impl; [exact Hb|]. intros x Hx. simpl in Hx.
        apply not_true_iff_false in Hx. rewrite before_spec in Hx.
        apply not_true_is_false. rewrite before_spec. lia.
    + constructor; [exact IH|]. apply List.Forall_forall. intros x Hx.
      apply sort_insert_In in Hx as [->|Hx]; [exact Hab|].
      rewrite List.Forall_forall in Hb. by apply Hb.
Qed.

Lemma sort_sorted dl accesses :
  StronglySorted (notAfter dl) (OverlappingTypedAccesses.sort dl accesses).
Proof.
  unfold OverlappingTypedAccesses.sort.
  assert (H : forall sorted, StronglySorted (notAfter dl) sorted ->
            StronglySorted (notAfter dl)
              (fold_left (fun sorted a =>
                            OverlappingTypedAccesses.sort_insert dl a sorted)
                         accesses sorted)).
  { induction accesses as [|a accesses IH]; intros sorted Hs; simpl; [exact Hs|].
    by apply IH, sort_insert_sorted. }
  apply H. constructor.
Qed.

Lemma notAfter_offset dl x y :
  notAfter dl x y ->
  OverlappingTypedAccesses.offset y <= OverlappingTypedAccesses.offset x.
Proof.
  unfold notAfter. intros H. apply not_true_iff_false in H.
  rewrite before_spec in H. lia.
Qed.

Lemma sint64_id z :
  -9223372036854775808 <= z < 9223372036854775808 -> sint64 z = z.
Proof. intros Hz. unfold sint64. rewrite Z.mod_small; lia. Qed.

(** One round of the loop when the access starts at or before the window
    and ends within it: padding goes to the front only. *)
Lemma reduce_step_front dl st iter :
  moderate dl iter ->
  -2305843009213693952 <= OverlappingTypedAccesses.startOffset st
                       <= 2305843009213693952 ->
  -4611686018427387904 <= OverlappingTypedAccesses.endOffsetSoFar st
                       <= 4611686018427387904 ->
  OverlappingTypedAccesses.offset iter <= OverlappingTypedAccesses.startOffset st ->
  endOf dl iter <= OverlappingTypedAccesses.endOffsetSoFar st ->
  Z.of_nat (length (OverlappingTypedAccesses.structBody st)) + 10 < 2147483648 ->
  let d := OverlappingTypedAccesses.startOffset st
           - OverlappingTypedAccesses.offset iter in
  let front := if 0 <? d then rev (OverlappingTypedAccesses.pad d) else [] in
  OverlappingTypedAccesses.reduce_step dl st iter
  = {| OverlappingTypedAccesses.fieldCount :=
         if 0 <? d then OverlappingTypedAccesses.fieldCount st + 1
         else OverlappingTypedAccesses.fieldCount st;
       OverlappingTypedAccesses.structBody :=
         front ++ OverlappingTypedAccesses.structBody st;
       OverlappingTypedAccesses.gepIndices :=
         <[OverlappingTypedAccesses.object iter :=
             - Z.of_nat (length (front ++ OverlappingTypedAccesses.structBody st))]>
           (OverlappingTypedAccesses.gepIndices st);
       OverlappingTypedAccesses.startOffset := OverlappingTypedAccesses.offset iter;
       OverlappingTypedAccesses.endOffsetSoFar :=
         OverlappingTypedAccesses.endOffsetSoFar st |}.
Proof.
  intros (Hsized & Hoff & Hsize) Hstart Hend Hle Hin Hlen d front.
  assert (Hd : sint64 d = d) by (apply sint64_id; unfold d; lia).
  assert (Hud : 0 < d -> uint64 d = d).
  { intros Hpos. unfold uint64. apply Z.mod_small. unfold d. lia. }
  assert (Hiter : OverlappingTypedAccesses.accessEndOffset dl iter = endOf dl iter).
  { unfold OverlappingTypedAccesses.accessEndOffset, OverlappingTypedAccesses.size,
           endOf. rewrite Hsized. apply sint64_id. lia. }
  assert (Hback : (0 <? sint64 (OverlappingTypedAccesses.accessEndOffset dl iter
                                - OverlappingTypedAccesses.endOffsetSoFar st)) = false).
  { rewrite Hiter. apply Z.ltb_ge. unfold endOf in *. rewrite sint64_id; lia. }
  assert (Hfront : (length front <= 5)%nat).
  { unfold front. destruct (0 <? d); [|simpl; lia]. rewrite length_rev.
    apply pad_length. }
  unfold OverlappingTypedAccesses.reduce_step. fold d. rewrite Hd.
  subst front. destruct (0 <? d) eqn:Hpos.
  - apply Z.ltb_lt in Hpos. cbn [OverlappingTypedAccesses.endOffsetSoFar].
    rewrite Hback. cbn. rewrite (Hud Hpos), sint32_small; [reflexivity|].
    rewrite length_app in *. lia.
  - apply Z.ltb_ge in Hpos. rewrite Hback. cbn.
    rewrite sint32_small by lia. f_equal. unfold d in Hpos. lia.
Qed.

(** The loop of [reduce] over accesses sorted by falling offset, none of
    which ends beyond the first: each access gets the index of the field
    that starts where it does. *)
Lemma reduce_steps_layout dl accesses E :
  standardIntegers dl ->
  (forall a b, In a accesses -> In b accesses ->
     OverlappingTypedAccesses.offset b - OverlappingTypedAccesses.offset a <> 16) ->
  -4611686018427387904 <= E <= 4611686018427387904 ->
  forall rest st met,
  StronglySorted (fun x y => OverlappingTypedAccesses.offset y
                             <= OverlappingTypedAccesses.offset x) rest ->
  Forall (fun x => In x accesses /\ moderate dl x /\ endOf dl x <= E
                   /\ OverlappingTypedAccesses.offset x
                      <= OverlappingTypedAccesses.startOffset st) rest ->
  List.NoDup (map OverlappingTypedAccesses.object rest) ->
  (forall a, In a met ->
     ~ In (OverlappingTypedAccesses.object a)
          (map OverlappingTypedAccesses.object rest)) ->
  (exists b, In b accesses
             /\ OverlappingTypedAccesses.offset b
                = OverlappingTypedAccesses.startOffset st) ->
  -2305843009213693952 <= OverlappingTypedAccesses.startOffset st
                       <= 2305843009213693952 ->
  OverlappingTypedAccesses.endOffsetSoFar st = E ->
  Z.of_nat (length (OverlappingTypedAccesses.structBody st))
    + 10 * Z.of_nat (length rest) < 2147483648 ->
  (1 <= length (OverlappingTypedAccesses.structBody st))%nat ->
  storeSizes dl (OverlappingTypedAccesses.structBody st)
    = E - OverlappingTypedAccesses.startOffset st ->
  (forall a, In a met -> placedAt dl st a) ->
  let st' := fold_left (OverlappingTypedAccesses.reduce_step dl) rest st in
  storeSizes dl (OverlappingTypedAccesses.structBody st')
    = E - OverlappingTypedAccesses.startOffset st'
  /\ OverlappingTypedAccesses.startOffset st'
     <= OverlappingTypedAccesses.startOffset st
  /\ (forall x, In x rest -> OverlappingTypedAccesses.startOffset st'
                             <= OverlappingTypedAccesses.offset x)
  /\ (exists b, In b accesses
                /\ OverlappingTypedAccesses.offset b
                   = OverlappingTypedAccesses.startOffset st')
  /\ (forall a, In a (met ++ rest) -> placedAt dl st' a).
Proof.
  intros Hdl H16 HE. induction rest as [|iter rest IH];
    intros st met Hsorted Hall Hnodup Hmet Hb Hstart Hend Hlen Hbody Hsum Hplaced;
    simpl.
  - split; [exact Hsum|]. split; [lia|]. split; [intros x []|]. split; [exact Hb|].
    intros a Ha. rewrite app_nil_r in Ha. by apply Hplaced.
  - apply StronglySorted_inv in Hsorted as [Hsorted Hiter].
    apply Forall_cons in Hall as [(Hin & Hmod & Hends & Hle) Hall].
    simpl in Hnodup. apply List.NoDup_cons_iff in Hnodup as [Hfresh Hnodup].
    cbn [length] in Hlen.
    pose proof (reduce_step_front dl st iter Hmod Hstart ltac:(lia) Hle
                  ltac:(lia) ltac:(lia)) as Hstep.
    cbv zeta in Hstep. rewrite Hstep. clear Hstep.
    destruct Hmod as (Hsized & Hoff & Hsize).
    set (d := OverlappingTypedAccesses.startOffset st
              - OverlappingTypedAccesses.offset iter) in *.
    set (front := if 0 <? d then rev (OverlappingTypedAccesses.pad d) else []) in *.
    assert (Hfront : (length front <= 5)%nat /\ storeSizes dl front = d).
    { unfold front. destruct (0 <? d) eqn:Hpos.
      - rewrite length_rev, storeSizes_rev. split; [apply pad_length|].
        apply Z.ltb_lt in Hpos. apply pad_storeSizes; [exact Hdl|unfold d in *; lia|].
        destruct Hb as (b & Hbin & Hboff). unfold d. rewrite <- Hboff. by apply H16.
      - apply Z.ltb_ge in Hpos. split; [simpl; lia|]. simpl. unfold d in *. lia. }
    destruct Hfront as [Hflen Hfsum].
    match goal with
    | |- context [fold_left _ rest ?s] => set (st1 := s)
    end.
    destruct (IH st1 (met ++ [iter])) as (Hsum' & Hstart' & Hmin' & Hb' & Hplaced').
    + exact Hsorted.
    + apply List.Forall_forall. intros x Hx. rewrite List.Forall_forall in Hall, Hiter.
      destruct (Hall x Hx) as (Hxin & Hxmod & Hxend & _).
      repeat split; try assumption; try apply Hxmod. simpl. by apply Hiter.
    + exact Hnodup.
    + intros a Ha Hobj. apply in_app_or in Ha as [Ha|[<-|[]]].
      * apply (Hmet a Ha). simpl. by right.
      * by apply Hfresh.
    + exists iter. by split.
    + simpl. lia.
    + simpl. rewrite Hend. reflexivity.
    + simpl. rewrite length_app. lia.
    + simpl. rewrite length_app. lia.
    + simpl. rewrite storeSizes_app, Hfsum, Hsum. unfold d. lia.
    + intros a Ha. apply in_app_or in Ha as [Ha|[<-|[]]].
      * destruct (Hplaced a Ha) as (k & Hk & Hkb & Hksum).
        exists k. simpl. rewrite lookup_insert_ne.
        2:{ intros E'. apply (Hmet a Ha). simpl. by left. }
        split; [exact Hk|]. rewrite length_app. split; [lia|].
        replace (length front + length (OverlappingTypedAccesses.structBody st) - k)%nat
          with (length front
                + (length (OverlappingTypedAccesses.structBody st) - k))%nat by lia.
        rewrite take_app_add' by reflexivity.
        rewrite storeSizes_app, Hfsum, Hksum. unfold d. lia.
      * exists (length (front ++ OverlappingTypedAccesses.structBody st)). simpl.
        rewrite lookup_insert_eq. split; [reflexivity|].
        rewrite length_app. split; [lia | rewrite Nat.sub_diag; simpl; lia].
    + simpl in Hstart'. split; [exact Hsum'|]. split; [lia|]. split; [|split].
      * intros x [<-|Hx]; [exact Hstart' | by apply Hmin'].
      * exact Hb'.
      * intros a Ha. apply Hplaced'. rewrite <- app_assoc. exact Ha.
Qed.

Lemma sort_insert_Permutation dl a sorted :
  Permutation (OverlappingTypedAccesses.sort_insert dl a sorted) (a :: sorted).
Proof.
  induction sorted as [|b rest IH]; simpl; [reflexivity|].
  destruct (OverlappingTypedAccesses.before dl a b); [reflexivity|].
  rewrite IH. apply perm_swap.
Qed.

Lemma sort_Permutation dl accesses :
  Permutation (OverlappingTypedAccesses.sort dl accesses) accesses.
Proof.
  unfold OverlappingTypedAccesses.sort.
  assert (H : forall sorted,
            Permutation
              (fold_left (fun sorted a =>
                            OverlappingTypedAccesses.sort_insert dl a sorted)
                         accesses sorted)
              (accesses ++ sorted)).
  { induction accesses as [|a accesses IH]; intros sorted; simpl; [reflexivity|].
    rewrite IH, sort_insert_Permutation. symmetry. apply Permutation_middle. }
  rewrite H. by rewrite app_nil_r.
Qed.

Lemma StronglySorted_impl {A} (R R' : A -> A -> Prop) l :
  (forall x y, R x y -> R' x y) -> StronglySorted R l -> StronglySorted R' l.
Proof.
  intros HR. induction 1 as [|x l _ IH Hx]; constructor; [exact IH|].
  eapply Forall_impl; [exact Hx|]. auto.
Qed.

(** X16.  Where [reduce] builds a struct for a window in which no access
    that starts lower ends beyond one that starts higher, no two accesses
    start 16 bytes apart, and every object occurs once: the struct spans
    the window from its lowest offset, and the gep index of every access
    names the field that starts at the offset of the access (integer sizes
    as usual, sizes and offsets far from the limits of [int64_t]). *)
Theorem reduce_places_accesses dl accesses count T gep :
  standardIntegers dl ->
  Forall (moderate dl) accesses ->
  List.NoDup (map OverlappingTypedAccesses.object accesses) ->
  (forall a b, In a accesses -> In b accesses ->
     OverlappingTypedAccesses.offset a < OverlappingTypedAccesses.offset b ->
     endOf dl a <= endOf dl b) ->
  (forall a b, In a accesses -> In b accesses ->
     OverlappingTypedAccesses.offset b - OverlappingTypedAccesses.offset a <> 16) ->
  Z.of_nat (length accesses) < 134217728 ->
  OverlappingTypedAccesses.reduce dl accesses = Done (count, T, gep) ->
  count <> 1 ->
  exists body start,
    T = StructTy true body
    /\ (forall a, In a accesses -> start <= OverlappingTypedAccesses.offset a)
    /\ (exists a, In a accesses /\ OverlappingTypedAccesses.offset a = start)
    /\ (forall a, In a accesses -> endOf dl a <= start + storeSizes dl body)
    /\ forall a, In a accesses ->
         exists idx : nat,
           gep !! OverlappingTypedAccesses.object a = Some (Z.of_nat idx)
           /\ (idx < length body)%nat
           /\ storeSizes dl (take idx body)
              = OverlappingTypedAccesses.offset a - start.
Proof.
  intros Hdl Hmod Hnodup Hends H16 Hlen H Hcount.
  unfold OverlappingTypedAccesses.reduce in H.
  destruct accesses as [|a0 [|b0 accesses0]] eqn:Eacc; [discriminate| |].
  { injection H as <- _ _. congruence. }
  rewrite <- Eacc in *. clear Eacc a0 b0 accesses0.
  destruct (OverlappingTypedAccesses.sort dl accesses) as [|first rest] eqn:Hsort;
    [discriminate|].
  pose proof (sort_Permutation dl accesses) as Hperm. rewrite Hsort in Hperm.
  pose proof (sort_sorted dl accesses) as Hsorted. rewrite Hsort in Hsorted.
  apply StronglySorted_inv in Hsorted as [Hsorted Hfirst].
  destruct (sort_first dl _ _ _ Hsort) as [Hin Hmax].
  assert (Hmem : forall x, In x (first :: rest) <-> In x accesses).
  { intros x. rewrite <- Hsort. apply sort_In. }
  rewrite List.Forall_forall in Hmod.
  pose proof (Hmod first Hin) as (Hsized & Hoff & Hsize).
  set (E := endOf dl first).
  assert (HE : forall x, In x accesses -> endOf dl x <= E).
  { intros x Hx. specialize (Hmax x Hx). apply not_true_iff_false in Hmax.
    rewrite before_spec in Hmax. unfold E.
    destruct (Z.lt_ge_cases (OverlappingTypedAccesses.offset x)
                            (OverlappingTypedAccesses.offset first)) as [Hlt|Hge].
    - by apply Hends.
    - unfold endOf. lia. }
  assert (Hobjects : List.NoDup (map OverlappingTypedAccesses.object (first :: rest))).
  { eapply Permutation_NoDup; [|exact Hnodup].
    apply Permutation_map. by symmetry. }
  simpl in Hobjects. apply List.NoDup_cons_iff in Hobjects as [Hfresh Hobjects].
  assert (Hrestlen : Z.of_nat (length rest) < 134217728).
  { apply Permutation_length in Hperm. simpl in Hperm. lia. }
  match type of H with
  | context [fold_left _ rest ?s] => set (st0 := s) in *
  end.
  destruct (reduce_steps_indices dl rest st0) as ((_ & Hbody) & _).
  { simpl. lia. }
  { simpl. lia. }
  { simpl. intros o v Hv. apply lookup_singleton_Some in Hv as [_ <-]. lia. }
  destruct (reduce_steps_layout dl accesses E Hdl H16
              ltac:(unfold E, endOf; lia) rest st0 [first])
    as (Hsum & Hstart & Hmin & Hb & Hplaced).
  - eapply StronglySorted_impl; [|exact Hsorted]. intros x y. apply (notAfter_offset dl).
  - apply List.Forall_forall. intros x Hx.
    assert (Hxin : In x accesses) by (apply Hmem; by right).
    split; [exact Hxin|]. split; [by apply Hmod|]. split; [by apply HE|]. simpl.
    rewrite List.Forall_forall in Hfirst. by apply (notAfter_offset dl), Hfirst.
  - exact Hobjects.
  - intros x [<-|[]]. exact Hfresh.
  - exists first. by split.
  - simpl. lia.
  - simpl. unfold OverlappingTypedAccesses.accessEndOffset,
      OverlappingTypedAccesses.size, E, endOf. rewrite Hsized. apply sint64_id. lia.
  - simpl. lia.
  - simpl. lia.
  - simpl. unfold E, endOf. lia.
  - intros x [<-|[]]. exists 1%nat. simpl. rewrite lookup_singleton_eq.
    split; [reflexivity|]. split; [lia|]. simpl. lia.
  - simpl in Hbody, Hsum, Hstart, Hmin, Hb, Hplaced.
    set (st := fold_left (OverlappingTypedAccesses.reduce_step dl) rest st0) in *.
    destruct (OverlappingTypedAccesses.fieldCount st =? 1).
    { destruct (OverlappingTypedAccesses.structBody st); [discriminate|].
      injection H as <- _ _. congruence. }
    injection H as <- <- <-.
    exists (OverlappingTypedAccesses.structBody st),
           (OverlappingTypedAccesses.startOffset st).
    split; [reflexivity|]. split; [|split; [exact Hb|split]].
    + intros x Hx. apply Hmem in Hx as [<-|Hx]; [exact Hstart | by apply Hmin].
    + intros x Hx. rewrite Hsum. specialize (HE x Hx). lia.
    + intros x Hx. apply Hmem in Hx.
      destruct (Hplaced x Hx) as (k & Hk & Hkb & Hksum).
      exists (length (OverlappingTypedAccesses.structBody st) - k)%nat.
      rewrite lookup_fmap, Hk. simpl. split; [|split; [lia | exact Hksum]].
      f_equal. rewrite index_from_end; simpl in *; lia.
Qed.

Lemma standardIntegers_dl64 : standardIntegers dl64.
Proof.
  repeat split. intros n. change (getTypeStoreSize dl64 (ArrayTy (IntegerTy 64) n))
    with (n * 8). lia.
Qed.

Lemma reduce_places_accesses_witness :
  standardIntegers dl64
  /\ Forall (moderate dl64) comment_window
  /\ List.NoDup (map OverlappingTypedAccesses.object comment_window)
  /\ (forall a b, In a comment_window -> In b comment_window ->
        OverlappingTypedAccesses.offset a < OverlappingTypedAccesses.offset b ->
        endOf dl64 a <= endOf dl64 b)
  /\ (forall a b, In a comment_window -> In b comment_window ->
        OverlappingTypedAccesses.offset b - OverlappingTypedAccesses.offset a <> 16)
  /\ Z.of_nat (length comment_window) < 134217728
  /\ exists count gep,
       OverlappingTypedAccesses.reduce dl64 comment_window
         = Done (count,
                 StructTy true [IntegerTy 8; IntegerTy 16; IntegerTy 8; IntegerTy 32],
                 gep)
       /\ count <> 1
       /\ exists body start,
            StructTy true [IntegerTy 8; IntegerTy 16; IntegerTy 8; IntegerTy 32]
              = StructTy true body
            /\ (forall a, In a comment_window ->
                  start <= OverlappingTypedAccesses.offset a)
            /\ (exists a, In a comment_window
                          /\ OverlappingTypedAccesses.offset a = start)
            /\ (forall a, In a comment_window ->
                  endOf dl64 a <= start + storeSizes dl64 body)
            /\ forall a, In a comment_window ->
                 exists idx : nat,
                   gep !! OverlappingTypedAccesses.object a = Some (Z.of_nat idx)
                   /\ (idx < length body)%nat
                   /\ storeSizes dl64 (take idx body)
                      = OverlappingTypedAccesses.offset a - start.
Proof.
  assert (Hmod : Forall (moderate dl64) comment_window).
  { unfold comment_window.
    repeat (apply List.Forall_cons;
            [unfold moderate; repeat split; vm_compute; congruence|]).
    apply List.Forall_nil. }
  assert (Hnodup : List.NoDup (map OverlappingTypedAccesses.object comment_window)).
  { simpl. repeat constructor; simpl; intuition lia. }
  assert (Hends : forall a b, In a comment_window -> In b comment_window ->
            OverlappingTypedAccesses.offset a < OverlappingTypedAccesses.offset b ->
            endOf dl64 a <= endOf dl64 b).
  { intros a b [<-|[<-|[<-|[]]]] [<-|[<-|[<-|[]]]]; vm_compute; congruence. }
  assert (H16 : forall a b, In a comment_window -> In b comment_window ->
            OverlappingTypedAccesses.offset b - OverlappingTypedAccesses.offset a
            <> 16).
  { intros a b [<-|[<-|[<-|[]]]] [<-|[<-|[<-|[]]]]; vm_compute; congruence. }
  assert (Hlen : Z.of_nat (length comment_window) < 134217728) by (simpl; lia).
  assert (Hrun : exists count gep,
            OverlappingTypedAccesses.reduce dl64 comment_window
            = Done (count,
                    StructTy true [IntegerTy 8; IntegerTy 16; IntegerTy 8; IntegerTy 32],
                    gep)
            /\ count <> 1).
  { eexists _, _. split; [vm_compute; reflexivity | discriminate]. }
  destruct Hrun as (count & gep & Hrun & Hcount).
  repeat (split; [first [exact standardIntegers_dl64 | assumption]|]).
  exists count, gep. split; [exact Hrun|]. split; [exact Hcount|].
  exact (reduce_places_accesses dl64 comment_window count _ gep
           standardIntegers_dl64 Hmod Hnodup Hends H16 Hlen Hrun Hcount).
Defined.

(** * A structure whose fields do not overlap *)



Lemma storeSizes_snoc dl fields t :
  storeSizes dl (fields ++ [t]) = storeSizes dl fields + getTypeStoreSize dl t.
Proof. rewrite storeSizes_app. simpl. lia. Qed.













(** * Where the instructions of a leaf are placed *)

Lemma placeBefore_app pos new l1 l2 :
  placeBefore pos new (l1 ++ l2) = placeBefore pos new l1 ++ placeBefore pos new l2.
Proof. unfold placeBefore. apply flat_map_app. Qed.

Lemma placeBefore_one pos new q :
  exists x, placeBefore pos new [q] = x ++ [q].
Proof.
  unfold placeBefore. simpl. destruct (Nat.eqb q pos); [by exists [new] | by exists []].
Qed.

(** An instruction that stands before [pos] still does after any
    insertion. *)
Lemma placeBefore_keeps at_ new block pre q mid pos post :
  block = pre ++ q :: mid ++ pos :: post ->
  exists pre' mid' post',
    placeBefore at_ new block = pre' ++ q :: mid' ++ pos :: post'.
Proof.
  intros ->.
  change (pre ++ q :: mid ++ pos :: post)
    with (pre ++ [q] ++ mid ++ [pos] ++ post).
  rewrite !placeBefore_app.
  destruct (placeBefore_one at_ new q) as [x ->].
  destruct (placeBefore_one at_ new pos) as [y ->].
  exists (placeBefore at_ new pre ++ x), (placeBefore at_ new mid ++ y),
         (placeBefore at_ new post).
  rewrite <- !app_assoc. reflexivity.
Qed.

Lemma placeBefore_new pos new block :
  In pos block ->
  exists pre post, placeBefore pos new block = pre ++ new :: [] ++ pos :: post.
Proof.
  intros Hin. apply in_split in Hin as (l1 & l2 & ->).
  change (l1 ++ pos :: l2) with (l1 ++ [pos] ++ l2). rewrite !placeBefore_app.
  exists (placeBefore pos new l1), (placeBefore pos new l2).
  unfold placeBefore at 2. simpl. by rewrite Nat.eqb_refl.
Qed.

Lemma isPlaced_In fn pos :
  isPlaced fn pos = true -> exists block, In block (blocks fn) /\ In pos block.
Proof.
  unfold isPlaced. rewrite existsb_exists. intros (block & Hb & Hin).
  exists block. split; [exact Hb|]. apply existsb_exists in Hin as (x & Hx & E).
  apply Nat.eqb_eq in E. by subst.
Qed.

(** An instruction created with an insertion point stands before that
    point, and so does all that stood before it. *)
Lemma createInst_newBefore n pos i fn v fn' :
  createInst i (Some pos) fn = Done (v, fn') ->
  (n <= length (instructions fn))%nat ->
  newBefore n pos fn -> newBefore n pos fn'.
Proof.
  unfold createInst. intros H Hn Hold.
  destruct (isPlaced fn pos) eqn:Hplaced; [|discriminate]. injection H as _ <-.
  intros p. simpl. rewrite length_app. simpl. intros Hp.
  destruct (decide (p = length (instructions fn))) as [->|Hne].
  - apply isPlaced_In in Hplaced as (block & Hb & Hin).
    destruct (placeBefore_new pos (length (instructions fn)) block Hin)
      as (pre & post & E).
    exists (placeBefore pos (length (instructions fn)) block), pre, [], post.
    simpl. split; [by apply in_map | exact E].
  - destruct (Hold p ltac:(lia)) as (block & pre & mid & post & Hb & E).
    destruct (placeBefore_keeps pos (length (instructions fn)) block _ _ _ _ _ E)
      as (pre' & mid' & post' & E').
    exists (placeBefore pos (length (instructions fn)) block), pre', mid', post'.
    simpl. split; [by apply in_map | exact E'].
Qed.

Lemma createInst_length i insertBefore fn v fn' :
  createInst i insertBefore fn = Done (v, fn') ->
  length (instructions fn') = S (length (instructions fn)).
Proof.
  intros H. apply createInst_result in H as (_ & -> & _).
  rewrite length_app. simpl. lia.
Qed.

Lemma createGEP_newBefore n pos pointer idxList fn v fn' :
  createGEP pointer idxList (Some pos) fn = Done (v, fn') ->
  (n <= length (instructions fn))%nat ->
  newBefore n pos fn ->
  newBefore n pos fn' /\ (n <= length (instructions fn'))%nat.
Proof.
  unfold createGEP. intros H Hn Hold.
  destruct (getIndexedType _ _); [|discriminate].
  split; [by eapply createInst_newBefore|].
  apply createInst_length in H. lia.
Qed.

Lemma followLinks_newBefore n pos frame path :
  forall state state',
  ofoldl (followLink frame (Some pos)) state path = Done state' ->
  (n <= length (instructions state.2))%nat ->
  newBefore n pos state.2 ->
  newBefore n pos state'.2 /\ (n <= length (instructions state'.2))%nat.
Proof.
  induction path as [|link path IH]; intros state state' H Hn Hold.
  - injection H as <-. by split.
  - rewrite ofoldl_cons in H. apply obind_Done in H as (state1 & Hstep & H).
    apply (IH _ _ H); clear IH H;
      destruct state as [[result gepIndices] fn]; unfold followLink in Hstep;
      simpl in *;
      (destruct (links frame !! link) as [g|]; [|discriminate]);
      (destruct (index g) as [idx|]; [|discriminate]);
      (destruct (decide (expectedType g = _)) as [_|_];
         [by injection Hstep as <-|]);
      apply obind_Done in Hstep as ([gep fn1] & Hgep & Hstep);
      (destruct (expectedType g) as [expected|]; [|discriminate]);
      apply obind_Done in Hstep as ([cast fn2] & Hcast & Hstep);
      injection Hstep as <-; simpl;
      destruct (createGEP_newBefore n pos _ _ _ _ _ Hgep Hn Hold) as [Q1 L1].
    + apply createInst_length in Hcast. lia.
    + by eapply createInst_newBefore.
Qed.

(** X19.  For a leaf whose offset value is an instruction that stands in
    a block, everything that the rewriting loop creates for the leaf (the
    element pointers, the bitcasts and the pointer-to-integer cast) stands
    in that block, before the instruction. *)
Theorem instruction_leaf_is_placed_before frame stackFrame fn self pos fn' :
  rewriteObject frame stackFrame fn (self, VInst pos) = Done fn' ->
  forall p, (length (instructions fn) <= p < length (instructions fn'))%nat ->
            placedBefore fn' p pos.
Proof.
  intros H. unfold rewriteObject in H. simpl in H.
  apply obind_Done in H as ([pointer fn1] & Hptr & H).
  destruct pointer as [pointer|]; [|discriminate].
  apply obind_Done in H as ([ptr2int fn2] & Hcast & H). injection H as <-.
  set (n := length (instructions fn)).
  assert (Q1 : newBefore n pos fn1 /\ (n <= length (instructions fn1))%nat).
  { unfold getPointerToObject in Hptr.
    destruct (linkMap frame !! self) as [link|]; [|discriminate].
    apply obind_Done in Hptr as (path & _ & Hptr).
    apply obind_Done in Hptr as ([[result gepIndices] fn0] & Hfold & Hptr).
    destruct (followLinks_newBefore n pos frame path _ _ Hfold (le_n _))
      as [Q0 L0]. { intros p Hp. unfold n in Hp. simpl in Hp. lia. }
    simpl in Q0, L0. destruct (1 <? length gepIndices)%nat.
    - apply obind_Done in Hptr as ([gep fn3] & Hgep & Hptr). injection Hptr as _ <-.
      by eapply createGEP_newBefore.
    - injection Hptr as _ <-. by split. }
  destruct Q1 as [Q1 L1].
  pose proof (createInst_newBefore n pos _ _ _ _ Hcast L1 Q1) as Q2.
  intros p Hp. simpl in Hp. rewrite length_map in Hp.
  destruct (Q2 p Hp) as (block & pre & mid & post & Hb & E).
  by exists block, pre, mid, post.
Qed.

Lemma instruction_leaf_is_placed_before_witness :
  exists fn',
    rewriteObject frame_implicit (VInst 6) fn_implicit_first_leaf (2%nat, VInst 2)
      = Done fn'
    /\ forall p,
         (length (instructions fn_implicit_first_leaf) <= p
          < length (instructions fn'))%nat ->
         placedBefore fn' p 2.
Proof.
  eexists. split; [vm_compute; reflexivity|].
  apply (instruction_leaf_is_placed_before frame_implicit (VInst 6)
           fn_implicit_first_leaf 2 2).
  vm_compute. reflexivity.
Defined.

(** * The order in which the witnessed types are walked *)

(** [representObject] for a leaf gathers the types and goes on with them in
    the order in which the set hands them out. *)
Lemma representLeaf_witnessed fn dl self offset frame :
  representLeaf fn dl self offset frame
  = obind (getUnionTypes fn (S (length (instructions fn))) offset [])
          (fun types => representWitnessed dl self offset types frame).
Proof. reflexivity. Qed.

(** C9.  The type of a leaf depends on the order in which the set of its
    witnessed types is walked.  The leaf of [fn_five_types] has five
    witnessed types, one more than a [SmallPtrSet<Type*, 4>] keeps in the
    order of insertion; [i8*] and [i32*] are the widest and of the same
    priority, and the one the set hands out first becomes the type of the
    leaf: the same set walked in two orders gives two types.
    ([representWitnessed] is [representObject] for a leaf from the loop over
    the set on.) *)
Theorem leaf_type_depends_on_walk_of_type_set :
  (forall fn dl self offset frame,
     representLeaf fn dl self offset frame
     = obind (getUnionTypes fn (S (length (instructions fn))) offset [])
             (fun types => representWitnessed dl self offset types frame))
  /\ getUnionTypes fn_five_types (S (length (instructions fn_five_types)))
                (VInst 0) [] = Done five_types
  /\ (4 < length five_types)%nat
  /\ Permutation five_types five_types_swapped
  /\ (exists frame,
        representWitnessed dl64 1 (VInst 0) five_types emptyFrame
          = Done (true, frame)
        /\ typeMap frame !! 1%nat = Some (PointerTy (IntegerTy 32)))
  /\ (exists frame,
        representWitnessed dl64 1 (VInst 0) five_types_swapped emptyFrame
          = Done (true, frame)
        /\ typeMap frame !! 1%nat = Some (PointerTy (IntegerTy 8)))
  /\ ~ (forall types types' frame,
          Permutation types types' ->
          representWitnessed dl64 1 (VInst 0) types frame
          = representWitnessed dl64 1 (VInst 0) types' frame).
Proof.
  assert (Hperm : Permutation five_types five_types_swapped)
    by apply perm_swap.
  split; [exact representLeaf_witnessed|].
  split; [vm_compute; reflexivity|]. split; [vm_compute; lia|].
  split; [exact Hperm|].
  split; [eexists; split; vm_compute; reflexivity|].
  split; [eexists; split; vm_compute; reflexivity|].
  intros H. specialize (H _ _ emptyFrame Hperm). vm_compute in H.
  discriminate.
Qed.
